(** * clickstracker: event store reads, rules engine and metrics aggregation

    A shallow embedding of [backend/database.js] and [backend/rules-engine.js],
    of the event endpoint and the update stream of [backend/server.js] and
    of the collector [js-snippet/analytics.js].
    The store is a SQLite table [events]; the detectors are SQL queries over
    it.  A query is embedded as the list pipeline it denotes
    (FROM / JOIN / WHERE / GROUP BY / HAVING / ORDER BY), a JS object as a
    finite map together with the properties it inherits from
    [Object.prototype], a promise as a settle-once state.

    Numbers: SQLite REAL values and JS numbers are modelled by exact
    rationals ([Qc]); counts are natural numbers; timestamps are integers
    (epoch milliseconds). *)

From Stdlib Require Import ZArith QArith Qcanon Qround String Ascii List.
From stdpp Require Import base decidable option list numbers strings pretty gmap sorting.

Open Scope string_scope.

(** ** Completions of JS calls and of promises *)

Inductive result (A : Type) : Type :=
  | Resolved (a : A)
  | Rejected (e : string).
Arguments Resolved {A} a.
Arguments Rejected {A} e.

Definition bind_result {A B} (r : result A) (k : A → result B) : result B :=
  match r with
  | Resolved a => k a
  | Rejected e => Rejected e
  end.

Notation "x ←ʳ r ; k" := (bind_result r (λ x, k))
  (at level 20, r at level 100, k at level 200, right associativity,
   format "x  ←ʳ  r ;  '/' k").

(** ** The [events] table (createTables) *)

Record event : Type := Event {
  row_id : Z;                        (* id INTEGER PRIMARY KEY AUTOINCREMENT *)
  session_id : string;               (* session_id TEXT NOT NULL *)
  page_url : string;                 (* page_url TEXT NOT NULL *)
  event_type : string;               (* event_type TEXT NOT NULL *)
  element_selector : option string;  (* element_selector TEXT *)
  click_x : option Z;                (* click_x INTEGER *)
  click_y : option Z;                (* click_y INTEGER *)
  scroll_depth : option Qc;          (* scroll_depth INTEGER, numeric affinity *)
  timestamp : Z;                     (* timestamp INTEGER NOT NULL *)
  created_at : Z                     (* created_at DATETIME, seconds *)
}.

(** The reads issued through [db.all]. *)
Inductive query_name : Type :=
  | QTotalEvents | QTotalSessions | QTopClickedElements
  | QAverageScrollDepth | QRecentActivity
  | QLowClickRate | QLowScrollDepth | QRageClicks | QDeadClicks | QHighExitRate.

Global Instance event_eq_dec : EqDecision event.
Proof. solve_decision. Defined.

Global Instance query_name_eq_dec : EqDecision query_name.
Proof. solve_decision. Defined.

(** A store handle: the committed rows, and for each read whether the
    driver reports an error for it ([err] in the [db.all] callback). *)
Record Store : Type := {
  events : list event;
  read_error : query_name → option string
}.

Definition db_all {A} (s : Store) (q : query_name) (run : list event → A) : result A :=
  match read_error s q with
  | Some e => Rejected e
  | None => Resolved (run (events s))
  end.

(** ** SQL building blocks *)

Definition Qc_of_nat (n : nat) : Qc := Qc_of_Z (Z.of_nat n).

(** [a / b] in SQLite: NULL when the divisor is zero. *)
Definition sql_div (a b : Qc) : option Qc :=
  if decide (b = 0%Qc) then None else Some (a / b)%Qc.

(** A comparison against NULL is not true. *)
Definition sql_lt (a : option Qc) (b : Qc) : bool :=
  match a with Some x => bool_decide (x < b)%Qc | None => false end.
Definition sql_gt (a : option Qc) (b : Qc) : bool :=
  match a with Some x => bool_decide (b < x)%Qc | None => false end.

Section relational.
Context {A K : Type} `{EqDecision K}.

(** COUNT(DISTINCT k) *)
Definition count_distinct (key : A → K) (l : list A) : nat :=
  length (remove_dups (key <$> l)).

(** GROUP BY k: one group per distinct key, with the rows of that key. *)
Definition group_by (key : A → K) (l : list A) : list (K * list A) :=
  (λ k, (k, filter (λ a, key a = k) l)) <$> remove_dups (key <$> l).
End relational.

Definition is_click (e : event) : bool := bool_decide (event_type e = "click").
Definition is_scroll (e : event) : bool := bool_decide (event_type e = "scroll").

(** Sum and mean of a column (AVG is NULL over no rows). *)
Definition sum_Qc (l : list Qc) : Qc := foldr Qcplus 0%Qc l.
Definition avg_Qc (l : list Qc) : option Qc := sql_div (sum_Qc l) (Qc_of_nat (length l)).

(** MAX / MIN over the non-empty list of an aggregate group. *)
Definition max_Z (l : list Z) : Z :=
  match l with [] => 0%Z | x :: l' => foldr Z.max x l' end.
Definition min_Z (l : list Z) : Z :=
  match l with [] => 0%Z | x :: l' => foldr Z.min x l' end.
Definition max_Qc (l : list Qc) : option Qc :=
  match l with
  | [] => None
  | x :: l' => Some (foldr (λ a b, if bool_decide (b < a)%Qc then a else b) x l')
  end.

(** ** LIKE

    [like_prefix lit s] is [s LIKE 'lit%'] for a literal [lit] without the
    wildcard characters: SQLite's LIKE folds the case of ASCII letters (no
    [PRAGMA case_sensitive_like] is issued), so this is a prefix test up to
    ASCII case. *)

Definition ascii_lower (c : ascii) : ascii :=
  let n := nat_of_ascii c in
  if (65 <=? n)%nat && (n <=? 90)%nat then ascii_of_nat (n + 32) else c.

Fixpoint like_prefix (lit s : string) : bool :=
  match lit with
  | EmptyString => true
  | String c lit' =>
      match s with
      | EmptyString => false
      | String d s' => bool_decide (ascii_lower c = ascii_lower d) && like_prefix lit' s'
      end
  end.

(** The case-sensitive prefix test, for comparison. *)
Fixpoint is_prefix (lit s : string) : bool :=
  match lit with
  | EmptyString => true
  | String c lit' =>
      match s with
      | EmptyString => false
      | String d s' => bool_decide (c = d) && is_prefix lit' s'
      end
  end.

(** ** JS objects used as maps

    [this.rules], a rule's [thresholds] and [this.suggestions] are object
    literals: besides their own properties they answer to the property
    names of [Object.prototype]. *)

Definition object_prototype_props : list string :=
  ["constructor"; "__defineGetter__"; "__defineSetter__"; "hasOwnProperty";
   "__lookupGetter__"; "__lookupSetter__"; "isPrototypeOf";
   "propertyIsEnumerable"; "toString"; "valueOf"; "__proto__"; "toLocaleString"].

Inductive property (A : Type) : Type :=
  | Own (a : A)      (* an own property *)
  | Inherited        (* a function or accessor found on Object.prototype *)
  | Undefined.       (* undefined *)
Arguments Own {A} a.
Arguments Inherited {A}.
Arguments Undefined {A}.

(** [o[k]] *)
Definition js_get {A} (o : gmap string A) (k : string) : property A :=
  match o !! k with
  | Some a => Own a
  | None => if bool_decide (k ∈ object_prototype_props) then Inherited else Undefined
  end.

(** [o[k] = v]: assigning to the accessor [__proto__] with a primitive
    leaves the object as it is; any other name becomes an own property. *)
Definition js_set {A} (o : gmap string A) (k : string) (v : A) : gmap string A :=
  match o !! k with
  | Some _ => <[k := v]> o
  | None => if bool_decide (k = "__proto__") then o else <[k := v]> o
  end.

(** A synchronous call returns or throws. *)
Inductive completion (A : Type) : Type :=
  | Return (a : A)
  | Throw (e : string).
Arguments Return {A} a.
Arguments Throw {A} e.

(** ** Rule configuration (the RulesEngine constructor) *)

Inductive threshold : Type :=
  | TNum (q : Qc)            (* a number *)
  | TList (l : list string). (* nonInteractiveSelectors *)

Record rule : Type := Rule {
  rule_name : string;
  rule_description : string;
  thresholds : gmap string threshold;
  severity : string
}.

Record RulesEngine : Type := {
  db : Store;
  rules : gmap string rule;
  suggestions : gmap string (list string)
}.

Definition dec (n d : Z) : Qc := (Qc_of_Z n / Qc_of_Z d)%Qc.

Definition nonInteractiveSelectors_default : list string :=
  ["div"; "span"; "p"; "h1"; "h2"; "h3"; "h4"; "h5"; "h6"].

Definition lowClickRate_rule : rule :=
  Rule "Low Click Rate"
       "Identifies buttons/links with low click rates relative to page views"
       (<["minClickRate" := TNum (dec 5 100)]> (<["minPageViews" := TNum (Qc_of_Z 10)]> ∅))
       "medium".

Definition lowScrollDepth_rule : rule :=
  Rule "Low Scroll Depth"
       "Identifies pages where users scroll less than expected"
       (<["maxScrollDepth" := TNum (Qc_of_Z 30)]> (<["minSessions" := TNum (Qc_of_Z 5)]> ∅))
       "low".

Definition rageClicks_rule : rule :=
  Rule "Rage Clicks"
       "Identifies elements with multiple rapid clicks indicating frustration"
       (<["clicksInWindow" := TNum (Qc_of_Z 3)]>
         (<["timeWindow" := TNum (Qc_of_Z 2000)]>
           (<["minOccurrences" := TNum (Qc_of_Z 2)]> ∅)))
       "high".

Definition deadClicks_rule : rule :=
  Rule "Dead Clicks"
       "Identifies non-interactive elements being clicked frequently"
       (<["minClicksOnNonInteractive" := TNum (Qc_of_Z 5)]>
         (<["nonInteractiveSelectors" := TList nonInteractiveSelectors_default]> ∅))
       "medium".

Definition highExitRate_rule : rule :=
  Rule "High Exit Rate"
       "Identifies pages with high exit rates without significant interaction"
       (<["maxInteractionTime" := TNum (Qc_of_Z 10000)]>
         (<["minSessions" := TNum (Qc_of_Z 5)]> ∅))
       "medium".

Definition default_rules : gmap string rule :=
  <["lowClickRate" := lowClickRate_rule]>
  (<["lowScrollDepth" := lowScrollDepth_rule]>
  (<["rageClicks" := rageClicks_rule]>
  (<["deadClicks" := deadClicks_rule]>
  (<["highExitRate" := highExitRate_rule]> ∅)))).

Definition default_suggestions : gmap string (list string) :=
  <["lowClickRate" :=
      ["Consider making the button more prominent with better contrast or size";
       "Review button placement - move critical actions above the fold";
       "Test different button text or calls-to-action";
       "Add visual affordances like hover effects or icons";
       "Ensure the button purpose is clear from surrounding context"]]>
  (<["lowScrollDepth" :=
      ["Add engaging content above the fold to encourage scrolling";
       "Use visual cues like arrows or gradients to indicate more content below";
       "Break up long content with images, videos, or interactive elements";
       "Consider sticky navigation or progress indicators";
       "Review page loading speed - slow pages discourage scrolling"]]>
  (<["rageClicks" :=
      ["Check if the element should be interactive - add proper click handlers";
       "Improve loading feedback - add spinners or disable buttons during processing";
       "Ensure click targets are large enough (minimum 44px)";
       "Fix any JavaScript errors that might prevent proper interaction";
       "Add clear visual feedback when elements are clicked"]]>
  (<["deadClicks" :=
      ["Remove click events from non-interactive elements";
       "Style interactive elements to look clickable (buttons, links)";
       "Add proper semantic HTML - use buttons instead of divs for actions";
       "Ensure consistent interaction patterns across the interface";
       "Consider if users expect these elements to be interactive"]]>
  (<["highExitRate" :=
      ["Improve page loading speed and performance";
       "Ensure the page content matches user expectations from the entry point";
       "Add clear navigation and breadcrumbs";
       "Include engaging content or clear calls-to-action early on the page";
       "Review and improve the page's value proposition"]]> ∅)))).

(** [new RulesEngine(db)] *)
Definition new_RulesEngine (d : Store) : RulesEngine :=
  {| db := d; rules := default_rules; suggestions := default_suggestions |}.

(** ** updateRuleThreshold

    [value] ranges over numbers.  [this.rules[ruleId]] is truthy for an own
    rule and for every name inherited from [Object.prototype]; an inherited
    value has no [thresholds], so indexing it throws a TypeError.  The test
    [thresholds[thresholdKey] !== undefined] succeeds for own and for
    inherited names alike. *)

Definition set_threshold (this : RulesEngine) (ruleId : string) (r : rule)
    (thresholdKey : string) (value : Qc) : RulesEngine :=
  {| db := db this;
     rules := <[ruleId :=
                 Rule (rule_name r) (rule_description r)
                      (js_set (thresholds r) thresholdKey (TNum value))
                      (severity r)]> (rules this);
     suggestions := suggestions this |}.

Definition updateRuleThreshold (this : RulesEngine) (ruleId thresholdKey : string)
    (value : Qc) : completion bool * RulesEngine :=
  match js_get (rules this) ruleId with
  | Undefined => (Return false, this)
  | Inherited => (Throw "TypeError: Cannot read properties of undefined", this)
  | Own r =>
      match js_get (thresholds r) thresholdKey with
      | Undefined => (Return false, this)
      | Own _ | Inherited => (Return true, set_threshold this ruleId r thresholdKey value)
      end
  end.

(** [getRuleConfiguration]: the own entries of [this.rules]. *)
Definition getRuleConfiguration (this : RulesEngine) : list (string * rule) :=
  map_to_list (rules this).

(** Reading the thresholds in a detector:
    [const { k } = this.rules.<ruleId>.thresholds]. *)
Definition rule_of (this : RulesEngine) (ruleId : string) : result rule :=
  match js_get (rules this) ruleId with
  | Own r => Resolved r
  | _ => Rejected "TypeError: Cannot read properties of undefined"
  end.

(** A query parameter.  Only numbers are bound by the detectors of the
    default configuration; any other value is reported as a rejected read. *)
Definition num_threshold (r : rule) (k : string) : result Qc :=
  match js_get (thresholds r) k with
  | Own (TNum q) => Resolved q
  | _ => Rejected "parameter is not a number"
  end.

Definition list_threshold (r : rule) (k : string) : result (list string) :=
  match js_get (thresholds r) k with
  | Own (TList l) => Resolved l
  | _ => Rejected "TypeError: nonInteractiveSelectors.map is not a function"
  end.

(** ** Issues *)

Record suggestion : Type := Suggestion {
  sg_id : string;
  sg_text : string;
  sg_priority : string
}.

(** A description is a template literal; its numeric holes are kept as
    values ([toFixed(1)] and the default number rendering are not spelled
    out). *)
Inductive desc_part : Type :=
  | DText (s : string)
  | DFixed1 (q : option Qc)
  | DNum (n : nat).

Record issue : Type := Issue {
  issue_id : string * Z * string;       (* prefix, Date.now(), random suffix *)
  ruleId : string;
  ruleName : string;
  issue_severity : string;
  elementSelector : option string;
  pageUrl : string;
  issue_description : list desc_part;
  metrics : list (string * option Qc);
  issue_suggestions : option (list suggestion);  (* set by analyzeAllRules *)
  detectedAt : option Z                          (* set by analyzeAllRules *)
}.

(** What a call observes of the outside world: the clock and the random
    source, per call site and per draw. *)
Record World : Type := {
  date_now : string → nat → Z;
  math_random : string → nat → string
}.

Definition fresh_id (w : World) (prefix : string) (i : nat) : string * Z * string :=
  (prefix, date_now w prefix i, math_random w prefix i).

(** ** getSuggestionsForRule *)

Definition priority_of (index : nat) : string :=
  match index with 0 => "high" | 1 => "medium" | _ => "low" end.

Definition digit_of (index : nat) : string :=
  match index with 0 => "0" | 1 => "1" | _ => "2" end.

(** [suggestions.slice(0, 3).map((text, index) => ...)]; the slice has at
    most three entries, so the index is 0, 1 or 2. *)
Definition slice_map (ruleId : string) (l : list string) : list suggestion :=
  imap (λ index text,
          Suggestion ("suggestion-" +:+ ruleId +:+ "-" +:+ digit_of index)
                     text (priority_of index))
       (take 3 l).

Definition getSuggestionsForRule (this : RulesEngine) (rid : string)
    : completion (list suggestion) :=
  match js_get (suggestions this) rid with
  | Own l => Return (slice_map rid l)
  | Undefined => Return (slice_map rid [])
  | Inherited => Throw "TypeError: suggestions.slice is not a function"
  end.

(** ** The detectors

    ORDER BY is a sort on the stated keys; SQL leaves the order of ties
    open, and no statement below depends on it.  NULL sorts first. *)

Definition null_lt (a b : option Qc) : bool :=
  match a, b with
  | None, Some _ => true
  | Some x, Some y => bool_decide (x < y)%Qc
  | _, None => false
  end.

Definition dquote : string := String "034"%char EmptyString.

(** *** analyzeLowClickRate *)

Record lcr_row : Type := LcrRow {
  lcr_element_selector : option string;
  lcr_page_url : string;
  lcr_clicks : nat;
  lcr_unique_sessions : nat;
  lcr_page_sessions : nat;
  lcr_click_rate : option Qc
}.

(** WITH page_session_counts AS
      (SELECT page_url, COUNT(DISTINCT session_id) AS page_sessions
       FROM events GROUP BY page_url) *)
Definition page_session_counts (evs : list event) : list (string * nat) :=
  (λ g, (g.1, count_distinct session_id g.2)) <$> group_by page_url evs.

(** FROM events e JOIN page_session_counts p ON p.page_url = e.page_url *)
Definition lcr_from (evs : list event) : list (event * (string * nat)) :=
  e ← evs; p ← page_session_counts evs;
  if bool_decide (p.1 = page_url e) then [(e, p)] else [].

(** WHERE e.event_type = 'click' AND e.element_selector IS NOT NULL
      AND e.element_selector != '' *)
Definition lcr_where (ep : event * (string * nat)) : bool :=
  is_click ep.1
  && bool_decide (is_Some (element_selector ep.1))
  && bool_decide (element_selector ep.1 ≠ Some EmptyString).

(** GROUP BY e.element_selector, e.page_url, p.page_sessions *)
Definition lcr_key (ep : event * (string * nat)) : option string * string * nat :=
  (element_selector ep.1, page_url ep.1, ep.2.2).

Definition lcr_select
    (g : (option string * string * nat) * list (event * (string * nat))) : lcr_row :=
  let u := count_distinct (λ ep : event * (string * nat), session_id ep.1) g.2 in
  LcrRow g.1.1.1 g.1.1.2 (length g.2) u g.1.2
         (sql_div (Qc_of_nat u) (Qc_of_nat g.1.2)).

(** HAVING p.page_sessions >= ? AND (COUNT(DISTINCT e.session_id) * 1.0) / p.page_sessions < ? *)
Definition lcr_having (minPageViews minClickRate : Qc) (r : lcr_row) : bool :=
  bool_decide (minPageViews ≤ Qc_of_nat (lcr_page_sessions r))%Qc
  && sql_lt (lcr_click_rate r) minClickRate.

(** ORDER BY click_rate ASC, clicks DESC *)
Definition lcr_before (r1 r2 : lcr_row) : bool :=
  null_lt (lcr_click_rate r1) (lcr_click_rate r2)
  || (bool_decide (lcr_click_rate r1 = lcr_click_rate r2)
      && bool_decide (lcr_clicks r2 ≤ lcr_clicks r1)%nat).

Definition low_click_rate_query (minPageViews minClickRate : Qc)
    (evs : list event) : list lcr_row :=
  merge_sort (λ r1 r2, Is_true (lcr_before r1 r2))
    (filter (λ r, Is_true (lcr_having minPageViews minClickRate r))
       (lcr_select <$> group_by lcr_key (filter (λ ep, Is_true (lcr_where ep)) (lcr_from evs)))).

Definition lcr_issue (w : World) (r : rule) (i : nat) (row : lcr_row) : issue :=
  {| issue_id := fresh_id w "low-click-rate" i;
     ruleId := "lowClickRate";
     ruleName := rule_name r;
     issue_severity := severity r;
     elementSelector := lcr_element_selector row;
     pageUrl := lcr_page_url row;
     issue_description :=
       [DText "Low click rate (";
        DFixed1 ((λ x, x * Qc_of_Z 100)%Qc <$> lcr_click_rate row);
        DText ("%) on " +:+ dquote);
        DText (default "null" (lcr_element_selector row));
        DText dquote];
     metrics :=
       [("clickRate", lcr_click_rate row);
        ("clicks", Some (Qc_of_nat (lcr_clicks row)));
        ("uniqueSessions", Some (Qc_of_nat (lcr_unique_sessions row)));
        ("pageSessions", Some (Qc_of_nat (lcr_page_sessions row)))];
     issue_suggestions := None;
     detectedAt := None |}.

Definition analyzeLowClickRate (this : RulesEngine) (w : World) : result (list issue) :=
  r ←ʳ rule_of this "lowClickRate";
  minClickRate ←ʳ num_threshold r "minClickRate";
  minPageViews ←ʳ num_threshold r "minPageViews";
  rows ←ʳ db_all (db this) QLowClickRate (low_click_rate_query minPageViews minClickRate);
  Resolved (imap (lcr_issue w r) rows).

(** *** analyzeLowScrollDepth *)

Record lsd_row : Type := LsdRow {
  lsd_page_url : string;
  lsd_sessions : nat;
  lsd_avg_scroll_depth : option Qc;
  lsd_max_scroll_depth : option Qc
}.

(** WHERE event_type = 'scroll' AND scroll_depth IS NOT NULL *)
Definition lsd_where (e : event) : bool :=
  is_scroll e && bool_decide (is_Some (scroll_depth e)).

Definition lsd_select (g : string * list event) : lsd_row :=
  let depths := omap scroll_depth g.2 in
  LsdRow g.1 (count_distinct session_id g.2) (avg_Qc depths) (max_Qc depths).

(** HAVING sessions >= ? AND avg_scroll_depth < ? *)
Definition lsd_having (minSessions maxScrollDepth : Qc) (r : lsd_row) : bool :=
  bool_decide (minSessions ≤ Qc_of_nat (lsd_sessions r))%Qc
  && sql_lt (lsd_avg_scroll_depth r) maxScrollDepth.

(** ORDER BY avg_scroll_depth ASC *)
Definition lsd_before (r1 r2 : lsd_row) : bool :=
  null_lt (lsd_avg_scroll_depth r1) (lsd_avg_scroll_depth r2)
  || bool_decide (lsd_avg_scroll_depth r1 = lsd_avg_scroll_depth r2).

Definition low_scroll_depth_query (minSessions maxScrollDepth : Qc)
    (evs : list event) : list lsd_row :=
  merge_sort (λ r1 r2, Is_true (lsd_before r1 r2))
    (filter (λ r, Is_true (lsd_having minSessions maxScrollDepth r))
       (lsd_select <$> group_by page_url (filter (λ e, Is_true (lsd_where e)) evs))).

Definition lsd_issue (w : World) (r : rule) (i : nat) (row : lsd_row) : issue :=
  {| issue_id := fresh_id w "low-scroll-depth" i;
     ruleId := "lowScrollDepth";
     ruleName := rule_name r;
     issue_severity := severity r;
     elementSelector := None;
     pageUrl := lsd_page_url row;
     issue_description :=
       [DText "Low average scroll depth (";
        DFixed1 (lsd_avg_scroll_depth row);
        DText "%) on page"];
     metrics :=
       [("avgScrollDepth", lsd_avg_scroll_depth row);
        ("maxScrollDepth", lsd_max_scroll_depth row);
        ("sessions", Some (Qc_of_nat (lsd_sessions row)))];
     issue_suggestions := None;
     detectedAt := None |}.

Definition analyzeLowScrollDepth (this : RulesEngine) (w : World) : result (list issue) :=
  r ←ʳ rule_of this "lowScrollDepth";
  maxScrollDepth ←ʳ num_threshold r "maxScrollDepth";
  minSessions ←ʳ num_threshold r "minSessions";
  rows ←ʳ db_all (db this) QLowScrollDepth (low_scroll_depth_query minSessions maxScrollDepth);
  Resolved (imap (lsd_issue w r) rows).

(** *** analyzeRageClicks *)

Record rapid_sequence : Type := RapidSequence {
  rs_session_id : string;
  rs_element_selector : option string;
  rs_page_url : string;
  rs_timestamp : Z;
  rs_clicks_in_window : nat
}.

(** ON e1.session_id = e2.session_id
      AND e1.element_selector = e2.element_selector
      AND e2.timestamp BETWEEN e1.timestamp AND e1.timestamp + ?
    (an equality with a NULL side is not true). *)
Definition rage_on (timeWindow : Qc) (e1 e2 : event) : bool :=
  bool_decide (session_id e1 = session_id e2)
  && match element_selector e1, element_selector e2 with
     | Some a, Some b => bool_decide (a = b)
     | _, _ => false
     end
  && bool_decide (timestamp e1 ≤ timestamp e2)%Z
  && bool_decide (Qc_of_Z (timestamp e2) ≤ Qc_of_Z (timestamp e1) + timeWindow)%Qc.

(** FROM events e1 JOIN events e2 ON ... *)
Definition rage_from (timeWindow : Qc) (evs : list event) : list (event * event) :=
  e1 ← evs; e2 ← evs; if rage_on timeWindow e1 e2 then [(e1, e2)] else [].

(** WHERE e1.event_type = 'click' AND e2.event_type = 'click'
      AND e1.element_selector IS NOT NULL *)
Definition rage_where (p : event * event) : bool :=
  is_click p.1 && is_click p.2 && bool_decide (is_Some (element_selector p.1)).

(** GROUP BY e1.session_id, e1.element_selector, e1.timestamp *)
Definition rage_key (p : event * event) : string * option string * Z :=
  (session_id p.1, element_selector p.1, timestamp p.1).

(** [e1.page_url] is a bare column of the aggregate: it is read from one
    row of the group (here the first). [COUNT(e2.timestamp)] counts the
    joined rows of the group. *)
Definition rage_select (g : (string * option string * Z) * list (event * event))
    : rapid_sequence :=
  RapidSequence g.1.1.1 g.1.1.2
    (default EmptyString ((λ p : event * event, page_url p.1) <$> head g.2))
    g.1.2 (length g.2).

(** HAVING clicks_in_window >= ? *)
Definition rapid_sequences (timeWindow clicksInWindow : Qc) (evs : list event)
    : list rapid_sequence :=
  filter (λ r, clicksInWindow ≤ Qc_of_nat (rs_clicks_in_window r))%Qc
    (rage_select <$> group_by rage_key
       (filter (λ p, Is_true (rage_where p)) (rage_from timeWindow evs))).

Record rage_click_session : Type := RageClickSession {
  rcs_session_id : string;
  rcs_element_selector : option string;
  rcs_page_url : string;
  rcs_rapid_clicks : nat
}.

(** WITH rage_click_sessions AS (SELECT ..., COUNT( * ) as rapid_clicks
      FROM (...) rapid_sequences GROUP BY session_id, element_selector, page_url) *)
Definition rage_click_sessions (timeWindow clicksInWindow : Qc) (evs : list event)
    : list rage_click_session :=
  (λ g : (string * option string * string) * list rapid_sequence,
     RageClickSession g.1.1.1 g.1.1.2 g.1.2 (length g.2))
  <$> group_by (λ r, (rs_session_id r, rs_element_selector r, rs_page_url r))
        (rapid_sequences timeWindow clicksInWindow evs).

Record rage_row : Type := RageRow {
  rg_element_selector : option string;
  rg_page_url : string;
  rg_affected_sessions : nat;
  rg_total_rage_clicks : nat;
  rg_avg_rage_clicks_per_session : option Qc
}.

Definition rage_row_select (g : (option string * string) * list rage_click_session)
    : rage_row :=
  let rapid := rcs_rapid_clicks <$> g.2 in
  RageRow g.1.1 g.1.2 (length g.2) (foldr Nat.add 0%nat rapid)
          (avg_Qc (Qc_of_nat <$> rapid)).

(** ORDER BY affected_sessions DESC, total_rage_clicks DESC *)
Definition rage_before (r1 r2 : rage_row) : bool :=
  bool_decide (rg_affected_sessions r2 < rg_affected_sessions r1)%nat
  || (bool_decide (rg_affected_sessions r1 = rg_affected_sessions r2)
      && bool_decide (rg_total_rage_clicks r2 ≤ rg_total_rage_clicks r1)%nat).

(** Parameters in the order bound: [timeWindow, clicksInWindow, minOccurrences]. *)
Definition rage_clicks_query (timeWindow clicksInWindow minOccurrences : Qc)
    (evs : list event) : list rage_row :=
  merge_sort (λ r1 r2, Is_true (rage_before r1 r2))
    (filter (λ r, minOccurrences ≤ Qc_of_nat (rg_affected_sessions r))%Qc
       (rage_row_select
          <$> group_by (λ s, (rcs_element_selector s, rcs_page_url s))
                (rage_click_sessions timeWindow clicksInWindow evs))).

Definition rage_issue (w : World) (r : rule) (i : nat) (row : rage_row) : issue :=
  {| issue_id := fresh_id w "rage-clicks" i;
     ruleId := "rageClicks";
     ruleName := rule_name r;
     issue_severity := severity r;
     elementSelector := rg_element_selector row;
     pageUrl := rg_page_url row;
     issue_description :=
       [DText ("Rage clicks detected on " +:+ dquote);
        DText (default "null" (rg_element_selector row));
        DText (dquote +:+ " (");
        DNum (rg_affected_sessions row);
        DText " sessions affected)"];
     metrics :=
       [("affectedSessions", Some (Qc_of_nat (rg_affected_sessions row)));
        ("totalRageClicks", Some (Qc_of_nat (rg_total_rage_clicks row)));
        ("avgRageClicksPerSession", rg_avg_rage_clicks_per_session row)];
     issue_suggestions := None;
     detectedAt := None |}.

Definition analyzeRageClicks (this : RulesEngine) (w : World) : result (list issue) :=
  r ←ʳ rule_of this "rageClicks";
  clicksInWindow ←ʳ num_threshold r "clicksInWindow";
  timeWindow ←ʳ num_threshold r "timeWindow";
  minOccurrences ←ʳ num_threshold r "minOccurrences";
  rows ←ʳ db_all (db this) QRageClicks
            (rage_clicks_query timeWindow clicksInWindow minOccurrences);
  Resolved (imap (rage_issue w r) rows).

(** *** analyzeDeadClicks *)

Record dead_row : Type := DeadRow {
  dc_element_selector : option string;
  dc_page_url : string;
  dc_clicks : nat;
  dc_unique_sessions : nat
}.

(** WHERE event_type = 'click' AND element_selector IS NOT NULL
      AND (element_selector LIKE 'div%' OR element_selector LIKE 'span%' OR ...) *)
Definition dead_where (sels : list string) (e : event) : bool :=
  is_click e
  && match element_selector e with
     | Some s => existsb (λ sel, like_prefix sel s) sels
     | None => false
     end.

Definition dead_select (g : (option string * string) * list event) : dead_row :=
  DeadRow g.1.1 g.1.2 (length g.2) (count_distinct session_id g.2).

(** ORDER BY clicks DESC *)
Definition dead_before (r1 r2 : dead_row) : bool :=
  bool_decide (dc_clicks r2 ≤ dc_clicks r1)%nat.

Definition dead_clicks_query (sels : list string) (minClicksOnNonInteractive : Qc)
    (evs : list event) : list dead_row :=
  merge_sort (λ r1 r2, Is_true (dead_before r1 r2))
    (filter (λ r, minClicksOnNonInteractive ≤ Qc_of_nat (dc_clicks r))%Qc
       (dead_select
          <$> group_by (λ e, (element_selector e, page_url e))
                (filter (λ e, Is_true (dead_where sels e)) evs))).

Definition dead_issue (w : World) (r : rule) (i : nat) (row : dead_row) : issue :=
  {| issue_id := fresh_id w "dead-clicks" i;
     ruleId := "deadClicks";
     ruleName := rule_name r;
     issue_severity := severity r;
     elementSelector := dc_element_selector row;
     pageUrl := dc_page_url row;
     issue_description :=
       [DText ("Dead clicks on non-interactive element " +:+ dquote);
        DText (default "null" (dc_element_selector row));
        DText (dquote +:+ " (");
        DNum (dc_clicks row);
        DText " clicks)"];
     metrics :=
       [("clicks", Some (Qc_of_nat (dc_clicks row)));
        ("uniqueSessions", Some (Qc_of_nat (dc_unique_sessions row)))];
     issue_suggestions := None;
     detectedAt := None |}.

(** An empty selector list leaves [AND ()] in the statement, which SQLite
    refuses. *)
Definition analyzeDeadClicks (this : RulesEngine) (w : World) : result (list issue) :=
  r ←ʳ rule_of this "deadClicks";
  minClicksOnNonInteractive ←ʳ num_threshold r "minClicksOnNonInteractive";
  nonInteractiveSelectors ←ʳ list_threshold r "nonInteractiveSelectors";
  match nonInteractiveSelectors with
  | [] => Rejected "SQLITE_ERROR: syntax error"
  | _ =>
      rows ←ʳ db_all (db this) QDeadClicks
                (dead_clicks_query nonInteractiveSelectors minClicksOnNonInteractive);
      Resolved (imap (dead_issue w r) rows)
  end.

(** *** analyzeHighExitRate *)

Record session_duration : Type := SessionDuration {
  sd_page_url : string;
  sd_session_id : string;
  sd_duration : Z
}.

(** WITH session_durations AS
      (SELECT page_url, session_id, (MAX(timestamp) - MIN(timestamp)) AS duration
       FROM events GROUP BY page_url, session_id) *)
Definition session_durations (evs : list event) : list session_duration :=
  (λ g : (string * string) * list event,
     SessionDuration g.1.1 g.1.2
       (max_Z (timestamp <$> g.2) - min_Z (timestamp <$> g.2))%Z)
  <$> group_by (λ e, (page_url e, session_id e)) evs.

Record exit_row : Type := ExitRow {
  ex_page_url : string;
  ex_sessions : nat;
  ex_quick_exit_sessions : nat;
  ex_exit_rate : option Qc
}.

(** SUM(CASE WHEN duration <= ? THEN 1 ELSE 0 END) *)
Definition quick_exits (maxInteractionTime : Qc) (l : list session_duration) : nat :=
  length (filter (λ d, Qc_of_Z (sd_duration d) ≤ maxInteractionTime)%Qc l).

Definition exit_select (maxInteractionTime : Qc) (g : string * list session_duration)
    : exit_row :=
  let q := quick_exits maxInteractionTime g.2 in
  ExitRow g.1 (length g.2) q (sql_div (Qc_of_nat q) (Qc_of_nat (length g.2))).

(** HAVING COUNT( * ) >= ? AND exit_rate > 0.5 *)
Definition exit_having (minSessions : Qc) (r : exit_row) : bool :=
  bool_decide (minSessions ≤ Qc_of_nat (ex_sessions r))%Qc
  && sql_gt (ex_exit_rate r) (dec 5 10).

(** ORDER BY exit_rate DESC, sessions DESC *)
Definition exit_before (r1 r2 : exit_row) : bool :=
  null_lt (ex_exit_rate r2) (ex_exit_rate r1)
  || (bool_decide (ex_exit_rate r1 = ex_exit_rate r2)
      && bool_decide (ex_sessions r2 ≤ ex_sessions r1)%nat).

(** Parameters in the order bound:
    [maxInteractionTime, maxInteractionTime, minSessions]. *)
Definition high_exit_rate_query (maxInteractionTime minSessions : Qc)
    (evs : list event) : list exit_row :=
  merge_sort (λ r1 r2, Is_true (exit_before r1 r2))
    (filter (λ r, Is_true (exit_having minSessions r))
       (exit_select maxInteractionTime <$> group_by sd_page_url (session_durations evs))).

Definition exit_issue (w : World) (r : rule) (i : nat) (row : exit_row) : issue :=
  {| issue_id := fresh_id w "high-exit-rate" i;
     ruleId := "highExitRate";
     ruleName := rule_name r;
     issue_severity := severity r;
     elementSelector := None;
     pageUrl := ex_page_url row;
     issue_description :=
       [DText "High exit rate (";
        DFixed1 ((λ x, x * Qc_of_Z 100)%Qc <$> ex_exit_rate row);
        DText "%) with minimal interaction"];
     metrics :=
       [("exitRate", ex_exit_rate row);
        ("sessions", Some (Qc_of_nat (ex_sessions row)));
        ("quickExitSessions", Some (Qc_of_nat (ex_quick_exit_sessions row)))];
     issue_suggestions := None;
     detectedAt := None |}.

Definition analyzeHighExitRate (this : RulesEngine) (w : World) : result (list issue) :=
  r ←ʳ rule_of this "highExitRate";
  maxInteractionTime ←ʳ num_threshold r "maxInteractionTime";
  minSessions ←ʳ num_threshold r "minSessions";
  rows ←ʳ db_all (db this) QHighExitRate
            (high_exit_rate_query maxInteractionTime minSessions);
  Resolved (imap (exit_issue w r) rows).

(** ** analyzeAllRules

    [Promise.all] over the five detectors: the result is rejected as soon
    as one of them is; the five arrays are concatenated in the order
    written, and every issue then receives its suggestions and a stamp. *)

Definition with_suggestions (x : issue) (sg : list suggestion) (stamp : Z) : issue :=
  {| issue_id := issue_id x;
     ruleId := ruleId x;
     ruleName := ruleName x;
     issue_severity := issue_severity x;
     elementSelector := elementSelector x;
     pageUrl := pageUrl x;
     issue_description := issue_description x;
     metrics := metrics x;
     issue_suggestions := Some sg;
     detectedAt := Some stamp |}.

(** [issues.forEach(issue => { issue.suggestions = ...; issue.detectedAt = ... })];
    a throw inside the loop is caught and rethrown by [analyzeAllRules]. *)
Fixpoint attach_suggestions (this : RulesEngine) (w : World) (i : nat)
    (l : list issue) : result (list issue) :=
  match l with
  | [] => Resolved []
  | x :: l' =>
      match getSuggestionsForRule this (ruleId x) with
      | Throw e => Rejected e
      | Return sg =>
          rest ←ʳ attach_suggestions this w (S i) l';
          Resolved (with_suggestions x sg (date_now w "detectedAt" i) :: rest)
      end
  end.

Definition analyzeAllRules (this : RulesEngine) (w : World) : result (list issue) :=
  lowClickRateIssues ←ʳ analyzeLowClickRate this w;
  lowScrollDepthIssues ←ʳ analyzeLowScrollDepth this w;
  rageClickIssues ←ʳ analyzeRageClicks this w;
  deadClickIssues ←ʳ analyzeDeadClicks this w;
  highExitRateIssues ←ʳ analyzeHighExitRate this w;
  attach_suggestions this w 0
    (lowClickRateIssues ++ lowScrollDepthIssues ++ rageClickIssues
       ++ deadClickIssues ++ highExitRateIssues).

(** ** Test data (test-data-generator.js, scaled down) *)

Definition click (n : Z) (sess page sel : string) (ts : Z) : event :=
  Event n sess page "click" (Some sel) (Some 0%Z) (Some 0%Z) None ts 0.

Definition scroll (n : Z) (sess page : string) (depth : Z) (ts : Z) : event :=
  Event n sess page "scroll" None None None (Some (Qc_of_Z depth)) ts 0.

Definition no_errors : query_name → option string := λ _, None.

Definition quiet_world : World :=
  {| date_now := λ _ _, 0%Z; math_random := λ _ _, EmptyString |}.

(** ** getAggregatedMetrics (database.js) *)

Inductive metric_rows : Type :=
  | CountRow (count : nat)                          (* [{count}] *)
  | TopClickedRows (l : list (option string * nat)) (* [{element_selector, clicks}] *)
  | AvgDepthRow (avg_depth : option Qc)             (* [{avg_depth}] *)
  | RecentActivityRows (l : list (string * nat)).   (* [{page_url, events_count}] *)

(** ORDER BY n DESC on (key, n) rows *)
Definition count_desc {K} (r1 r2 : K * nat) : Prop := (r2.2 ≤ r1.2)%nat.

Global Instance count_desc_dec {K} : RelDecision (@count_desc K).
Proof. intros r1 r2. unfold count_desc. apply _. Defined.

Definition top_clicked_elements (evs : list event) : metric_rows :=
  TopClickedRows
    (take 10
       (merge_sort count_desc
          ((λ g : option string * list event, (g.1, length g.2))
             <$> group_by element_selector
                   (filter (λ e, Is_true (is_click e && bool_decide (is_Some (element_selector e))))
                      evs)))).

Definition average_scroll_depth (evs : list event) : metric_rows :=
  AvgDepthRow
    (avg_Qc (omap scroll_depth (filter (λ e, Is_true (lsd_where e)) evs))).

(** WHERE datetime(created_at) > datetime('now', '-1 hour') *)
Definition recent_activity (now : Z) (evs : list event) : metric_rows :=
  RecentActivityRows
    (take 5
       (merge_sort count_desc
          ((λ g : string * list event, (g.1, length g.2))
             <$> group_by page_url
                   (filter (λ e, now - 3600 < created_at e)%Z evs)))).

(** The [queries] object, in key order. *)
Definition metric_queries (now : Z)
    : list (string * (query_name * (list event → metric_rows))) :=
  [("totalEvents", (QTotalEvents, λ evs, CountRow (length evs)));
   ("totalSessions", (QTotalSessions, λ evs, CountRow (count_distinct session_id evs)));
   ("topClickedElements", (QTopClickedElements, top_clicked_elements));
   ("averageScrollDepth", (QAverageScrollDepth, average_scroll_depth));
   ("recentActivity", (QRecentActivity, recent_activity now))].

Definition metric_keys : list string :=
  ["totalEvents"; "totalSessions"; "topClickedElements"; "averageScrollDepth";
   "recentActivity"].

(** A promise settles once: later calls of [resolve] or [reject] are ignored. *)
Inductive promise (A : Type) : Type :=
  | Pending
  | Fulfilled (a : A)
  | Failed (e : string).
Arguments Pending {A}.
Arguments Fulfilled {A} a.
Arguments Failed {A} e.

Definition resolve {A} (a : A) (p : promise A) : promise A :=
  match p with Pending => Fulfilled a | _ => p end.
Definition reject {A} (e : string) (p : promise A) : promise A :=
  match p with Pending => Failed e | _ => p end.

(** The closure state of one call: [results], [completed] and the promise. *)
Record aggregation : Type := Aggregation {
  agg_results : gmap string metric_rows;
  agg_completed : nat;
  agg_promise : promise (gmap string metric_rows)
}.

(** The callback handed to [db.all(queries[key], ...)]. *)
Definition on_rows (total : nat) (key : string) (r : result metric_rows)
    (st : aggregation) : aggregation :=
  match r with
  | Rejected err =>
      Aggregation (agg_results st) (agg_completed st) (reject err (agg_promise st))
  | Resolved rows =>
      let results := <[key := rows]> (agg_results st) in
      let completed := S (agg_completed st) in
      Aggregation results completed
        (if bool_decide (completed = total)
         then resolve results (agg_promise st)
         else agg_promise st)
  end.

Definition deliver (s : Store) (now : Z) (st : aggregation) (key : string) : aggregation :=
  match list_find (λ kq, kq.1 = key) (metric_queries now) with
  | Some (_, (_, (q, run))) => on_rows (length (metric_queries now)) key (db_all s q run) st
  | None => st
  end.

(** [getAggregatedMetrics]: the five reads are issued together and their
    callbacks arrive in some order [arrival]; the state after the callbacks
    that have arrived. *)
Definition getAggregatedMetrics (s : Store) (now : Z) (arrival : list string)
    : aggregation :=
  foldl (deliver s now) (Aggregation ∅ 0 Pending) arrival.

(** Whether the read behind a key of [queries] succeeds on this store. *)
Definition read_ok (s : Store) (now : Z) (key : string) : bool :=
  match list_find (λ kq, kq.1 = key) (metric_queries now) with
  | Some (_, (_, (q, _))) => bool_decide (read_error s q = None)
  | None => false
  end.

(** ** The detectors as the specification words them

    These measures are written from the specification of the detectors, to
    be compared with the queries above. *)

(** Low Click Rate: distinct sessions on a page, distinct sessions that
    clicked a selector on it, and their quotient. *)
Definition page_sessions (evs : list event) (page : string) : nat :=
  count_distinct session_id (filter (λ e, page_url e = page) evs).

Definition selector_clicks (evs : list event) (page sel : string) : list event :=
  filter (λ e, event_type e = "click" ∧ page_url e = page
               ∧ element_selector e = Some sel) evs.

Definition clicking_sessions (evs : list event) (page sel : string) : nat :=
  count_distinct session_id (selector_clicks evs page sel).

Definition click_rate (evs : list event) (page sel : string) : Qc :=
  (Qc_of_nat (clicking_sessions evs page sel) / Qc_of_nat (page_sessions evs page))%Qc.

(** High Exit Rate: per (page, session) the span of all its events, and the
    share of the page's sessions whose span is at most the threshold. *)
Definition sessions_on (evs : list event) (page : string) : list string :=
  remove_dups (session_id <$> filter (λ e, page_url e = page) evs).

Definition session_events (evs : list event) (page sess : string) : list event :=
  filter (λ e, page_url e = page ∧ session_id e = sess) evs.

Definition duration (evs : list event) (page sess : string) : Z :=
  (max_Z (timestamp <$> session_events evs page sess)
   - min_Z (timestamp <$> session_events evs page sess))%Z.

Definition quick_exit_sessions (maxInteractionTime : Qc) (evs : list event)
    (page : string) : list string :=
  filter (λ s, Qc_of_Z (duration evs page s) ≤ maxInteractionTime)%Qc
         (sessions_on evs page).

Definition exit_rate (maxInteractionTime : Qc) (evs : list event) (page : string) : Qc :=
  (Qc_of_nat (length (quick_exit_sessions maxInteractionTime evs page))
   / Qc_of_nat (length (sessions_on evs page)))%Qc.

(** Rage Clicks: the clicks of the same session on the same selector whose
    timestamp lies in the inclusive window opened by a click; a click
    qualifies when there are at least [clicksInWindow] of them (itself
    included); a session with a qualifying click on (page, selector) is a
    rage session of that pair. *)
Definition window_clicks (timeWindow : Qc) (evs : list event) (e : event) : list event :=
  filter (λ e', event_type e' = "click"
                ∧ session_id e' = session_id e
                ∧ element_selector e' = element_selector e
                ∧ (timestamp e ≤ timestamp e')%Z
                ∧ (Qc_of_Z (timestamp e') ≤ Qc_of_Z (timestamp e) + timeWindow)%Qc) evs.

Definition qualifying (timeWindow clicksInWindow : Qc) (evs : list event) (e : event) : Prop :=
  event_type e = "click"
  ∧ (clicksInWindow ≤ Qc_of_nat (length (window_clicks timeWindow evs e)))%Qc.

Global Instance qualifying_dec tw cw evs e : Decision (qualifying tw cw evs e).
Proof. unfold qualifying. apply _. Defined.

Definition rage_sessions (timeWindow clicksInWindow : Qc) (evs : list event)
    (page sel : string) : list string :=
  remove_dups
    (session_id
       <$> filter (λ e, qualifying timeWindow clicksInWindow evs e
                        ∧ page_url e = page ∧ element_selector e = Some sel) evs).

Definition rage_flagged_spec (timeWindow clicksInWindow minOccurrences : Qc)
    (evs : list event) (page sel : string) : Prop :=
  (minOccurrences ≤ Qc_of_nat (length (rage_sessions timeWindow clicksInWindow evs page sel)))%Qc.

(** No two click rows of one session on one selector carry the same
    timestamp. *)
Definition distinct_click_times (evs : list event) : Prop :=
  ∀ e1 e2, e1 ∈ evs → e2 ∈ evs →
    event_type e1 = "click" → event_type e2 = "click" →
    session_id e1 = session_id e2 → element_selector e1 = element_selector e2 →
    timestamp e1 = timestamp e2 → e1 = e2.

(** The row of the inner query for a click, in the measures above. *)
Definition rapid_sequence_of (tw : Qc) (evs : list event) (e : event) : rapid_sequence :=
  RapidSequence (session_id e) (element_selector e) (page_url e) (timestamp e)
                (length (window_clicks tw evs e)).

Global Instance rage_flagged_spec_dec tw cw mo evs page sel :
  Decision (rage_flagged_spec tw cw mo evs page sel).
Proof. unfold rage_flagged_spec. apply _. Defined.

(** Dead Clicks: the whitelist test, up to ASCII case as LIKE decides it and
    case-sensitive as the specification words it. *)
Definition whitelist_like (sel : string) : bool :=
  existsb (λ lit, like_prefix lit sel) nonInteractiveSelectors_default.

Definition whitelist_case_sensitive (sel : string) : bool :=
  existsb (λ lit, is_prefix lit sel) nonInteractiveSelectors_default.

Definition dead_flagged_spec (minClicks : Qc) (evs : list event) (page sel : string) : Prop :=
  Is_true (whitelist_case_sensitive sel)
  ∧ (minClicks ≤ Qc_of_nat (length (selector_clicks evs page sel)))%Qc.

(** The rows the two rate detectors are to return for a pair or a page,
    written with the measures above. *)
Definition lcr_pair (evs : list event) (e : event) : event * (string * nat) :=
  (e, (page_url e, page_sessions evs (page_url e))).

Definition lcr_row_of (evs : list event) (page sel : string) : lcr_row :=
  LcrRow (Some sel) page (length (selector_clicks evs page sel))
         (clicking_sessions evs page sel) (page_sessions evs page)
         (Some (click_rate evs page sel)).

Definition duration_of (evs : list event) (page sess : string) : session_duration :=
  SessionDuration page sess (duration evs page sess).

Definition exit_row_of (maxInteractionTime : Qc) (evs : list event) (page : string)
    : exit_row :=
  ExitRow page (length (sessions_on evs page))
          (length (quick_exit_sessions maxInteractionTime evs page))
          (Some (exit_rate maxInteractionTime evs page)).

(** An issue list flags a page, or a (page, selector) pair. *)
Definition flags_pair (l : list issue) (page sel : string) : Prop :=
  ∃ i, i ∈ l ∧ pageUrl i = page ∧ elementSelector i = Some sel.

Definition flags_page (l : list issue) (page : string) : Prop :=
  ∃ i, i ∈ l ∧ pageUrl i = page.

(** What two analyses of the same data have in common: everything but the
    identifier and the stamp. *)
Definition issue_content (i : issue) :=
  (ruleId i, ruleName i, issue_severity i, elementSelector i, pageUrl i,
   issue_description i, metrics i, issue_suggestions i).

Definition issue_tuple (i : issue) :=
  (ruleId i, pageUrl i, elementSelector i, metrics i).

(** ** Data sets *)

(** Two sessions, each clicking one button twice in the same millisecond. *)
Definition doubled_clicks : list event :=
  [click 1 "s1" "/p" "button.buy" 1000; click 2 "s1" "/p" "button.buy" 1000;
   click 3 "s2" "/p" "button.buy" 5000; click 4 "s2" "/p" "button.buy" 5000].

(** Two sessions, each clicking the same selector twice on /cart and once
    on /checkout within a second. *)
Definition cross_page_clicks : list event :=
  [click 1 "s1" "/cart" "button.next" 0; click 2 "s1" "/cart" "button.next" 400;
   click 3 "s1" "/checkout" "button.next" 800;
   click 4 "s2" "/cart" "button.next" 10000; click 5 "s2" "/cart" "button.next" 10400;
   click 6 "s2" "/checkout" "button.next" 10800].

(** Five clicks on a selector whose tag is spelled in upper case. *)
Definition upper_case_clicks : list event :=
  [click 1 "s1" "/home" "DIV.hero" 0; click 2 "s2" "/home" "DIV.hero" 10;
   click 3 "s3" "/home" "DIV.hero" 20; click 4 "s4" "/home" "DIV.hero" 30;
   click 5 "s5" "/home" "DIV.hero" 40].

(** Twenty-five sessions view /landing-page and one of them clicks the
    call to action (test case 1 of test-data-generator.js, scaled). *)
Definition landing_page_events : list event :=
  ((λ i : nat, scroll (Z.of_nat i) ("session-low-click-" +:+ pretty i) "/landing-page" 50
                      (Z.of_nat i * 60000)%Z) <$> seq 0 25)
  ++ [click 25 "session-low-click-0" "/landing-page" "button.cta-primary" 30000].

(** The same page views, with one click recorded on the empty selector. *)
Definition empty_selector_events : list event :=
  ((λ i : nat, scroll (Z.of_nat i) ("session-low-click-" +:+ pretty i) "/landing-page" 50
                      (Z.of_nat i * 60000)%Z) <$> seq 0 25)
  ++ [click 25 "session-low-click-0" "/landing-page" EmptyString 30000].

(** Test case 3 of test-data-generator.js: three sessions, five clicks each
    on the order button, 500 ms apart. *)
Definition rage_test_events : list event :=
  s ← seq 0 3; c ← seq 0 5;
  [click (Z.of_nat (5 * s + c)) ("session-rage-" +:+ pretty s) "/checkout"
         "button.submit-order" (1000000 + Z.of_nat s * 300000 + Z.of_nat c * 500)].

(** Test case 4: eight sessions click a product image once. *)
Definition dead_test_events : list event :=
  (λ i : nat, click (Z.of_nat i) ("session-dead-" +:+ pretty i) "/product-page"
                    "div.product-image" (Z.of_nat i * 180000)) <$> seq 0 8.

(** Fifteen sessions on /pricing with two scroll events each: twelve leave
    after two seconds, three stay for twenty. *)
Definition pricing_events : list event :=
  i ← seq 0 15;
  [scroll (Z.of_nat (2 * i)) ("session-quick-exit-" +:+ pretty i) "/pricing" 5
          (Z.of_nat i * 240000);
   scroll (Z.of_nat (2 * i + 1)) ("session-quick-exit-" +:+ pretty i) "/pricing" 10
          (Z.of_nat i * 240000 + (if (i <? 12)%nat then 2000 else 20000))].

Definition store_of (evs : list event) : Store :=
  {| events := evs; read_error := no_errors |}.

(** A store whose scroll-depth read fails, and one order of arrival. *)
Definition failing_store : Store :=
  {| events := upper_case_clicks;
     read_error := λ q, if decide (q = QAverageScrollDepth) then Some "SQLITE_IOERR" else None |}.

Definition sample_arrival : list string :=
  ["recentActivity"; "totalEvents"; "averageScrollDepth"; "totalSessions";
   "topClickedElements"].

(** The same row, recorded on another page. *)
Definition relocate (page : string) (e : event) : event :=
  Event (row_id e) (session_id e) page (event_type e) (element_selector e)
        (click_x e) (click_y e) (scroll_depth e) (timestamp e) (created_at e).

(** A second observation of the clock and of the random source. *)
Definition later_world : World :=
  {| date_now := λ _ i, (1700000000000 + Z.of_nat i)%Z; math_random := λ _ _, "k3x9q2m1z" |}.

Definition sample_engine : RulesEngine := new_RulesEngine (store_of cross_page_clicks).

(** A literal without [.] and [#], as the tag names of the whitelist are. *)
Fixpoint no_punctuation (lit : string) : bool :=
  match lit with
  | EmptyString => true
  | String c lit' =>
      negb (bool_decide (ascii_lower c = "."%char))
      && negb (bool_decide (ascii_lower c = "#"%char))
      && no_punctuation lit'
  end.

(** A selector suffix: nothing, or a class or id part. *)
Definition selector_suffix (s : string) : Prop :=
  s = EmptyString ∨ (∃ s', s = String "."%char s') ∨ (∃ s', s = String "#"%char s').

(** ** Low Scroll Depth, measured on the rows

    The scroll rows of a page that carry a depth, their depths, the
    distinct sessions among them and the mean of the depths. *)
Definition scroll_events (evs : list event) (page : string) : list event :=
  filter (λ e, event_type e = "scroll" ∧ is_Some (scroll_depth e) ∧ page_url e = page) evs.

Definition scroll_depths (evs : list event) (page : string) : list Qc :=
  omap scroll_depth (scroll_events evs page).

Definition scrolling_sessions (evs : list event) (page : string) : nat :=
  count_distinct session_id (scroll_events evs page).

Definition mean_depth (evs : list event) (page : string) : Qc :=
  (sum_Qc (scroll_depths evs page) / Qc_of_nat (length (scroll_depths evs page)))%Qc.

Definition lsd_row_of (evs : list event) (page : string) : lsd_row :=
  LsdRow page (scrolling_sessions evs page) (Some (mean_depth evs page))
         (max_Qc (scroll_depths evs page)).

(** Test case 2 of test-data-generator.js, scaled: six sessions scroll a
    long article once, none beyond a quarter of the page. *)
Definition long_article_events : list event :=
  (λ i : nat, scroll (Z.of_nat i) ("session-low-scroll-" +:+ pretty i) "/long-article"
                     (Z.of_nat (4 * i)) (Z.of_nat i * 120000)%Z) <$> seq 0 6.

(** ** The reads and the rule ids of the five detectors *)

Definition detector_reads : list query_name :=
  [QLowClickRate; QLowScrollDepth; QRageClicks; QDeadClicks; QHighExitRate].

Definition rule_ids : list string :=
  ["lowClickRate"; "lowScrollDepth"; "rageClicks"; "deadClicks"; "highExitRate"].

(** What identifies a finding for a reader of the issue list. *)
Definition issue_key (i : issue) : string * string * option string :=
  (ruleId i, pageUrl i, elementSelector i).

(** A store whose rage-click read fails. *)
Definition rage_read_failing_store : Store :=
  {| events := cross_page_clicks;
     read_error := λ q, if decide (q = QRageClicks) then Some "SQLITE_BUSY" else None |}.

(** ** Sequences of threshold updates

    A caller issuing [updateRuleThreshold(ruleId, thresholdKey, value)]
    several times; a call that throws leaves the engine as it was. *)
Definition apply_updates (this : RulesEngine) (ups : list (string * string * Qc))
    : RulesEngine :=
  foldl (λ t u, (updateRuleThreshold t u.1.1 u.1.2 u.2).2) this ups.

(** The value of threshold [key] of rule [rid] after the updates: that of
    the last update naming it, or the one it had. *)
Definition final_threshold (rid key : string) (t0 : threshold)
    (ups : list (string * string * Qc)) : threshold :=
  foldl (λ t u, if decide (u.1.1 = rid ∧ u.1.2 = key) then TNum u.2 else t) t0 ups.

Definition sample_updates : list (string * string * Qc) :=
  [("lowClickRate", "minClickRate", dec 1 10);
   ("constructor", "minClickRate", dec 9 10);
   ("rageClicks", "minClickRate", dec 2 10);
   ("lowClickRate", "minClickRate", dec 3 10);
   ("lowClickRate", "minPageViews", Qc_of_Z 20)].

(** ** Dashboard metrics, measured on the rows *)

(** The click rows of a selector, and the rows of a page written during
    the last hour. *)
Definition clicks_on (evs : list event) (sel : string) : list event :=
  filter (λ e, event_type e = "click" ∧ element_selector e = Some sel) evs.

Definition recent_events (now : Z) (evs : list event) (page : string) : list event :=
  filter (λ e, (now - 3600 < created_at e)%Z ∧ page_url e = page) evs.

(** Every callback arrives, in an order other than that of the keys. *)
Definition full_arrival : list string :=
  ["recentActivity"; "totalEvents"; "averageScrollDepth"; "totalSessions";
   "topClickedElements"].

(** ** insertEvents (database.js)

    One element of the [events] array as [insertEvents] reads it: a
    property that is absent or [null] is [None].  The optional ones are
    bound with [?? null]; an absent required one binds NULL as well.
    Values are strings and whole numbers, as the collector sends them. *)
Record js_event : Type := JsEvent {
  ev_sessionId : option string;
  ev_pageUrl : option string;
  ev_eventType : option string;
  ev_elementSelector : option string;
  ev_clickX : option Z;
  ev_clickY : option Z;
  ev_scrollDepth : option Qc;
  ev_timestamp : option Z
}.

(** The table together with the counter AUTOINCREMENT keeps in
    [sqlite_sequence]: the largest row id handed out so far. *)
Record Database : Type := {
  store : Store;
  sqlite_sequence : Z
}.

(** The id of the next row: one more than every id in the table and than
    the counter. *)
Definition next_row_id (d : Database) : Z :=
  (foldr Z.max (sqlite_sequence d) (row_id <$> events (store d)) + 1)%Z.

(** [stmt.run([...])]: INSERT INTO events (session_id, ..., timestamp)
    VALUES (?, ..., ?).  The row receives the next id and
    CURRENT_TIMESTAMP; a NULL bound to a NOT NULL column fails the
    statement. *)
Definition insert_row (d : Database) (created : Z) (ev : js_event) : option Database :=
  sess ← ev_sessionId ev;
  page ← ev_pageUrl ev;
  ty ← ev_eventType ev;
  ts ← ev_timestamp ev;
  Some {| store :=
            {| events :=
                 events (store d)
                 ++ [Event (next_row_id d) sess page ty (ev_elementSelector ev)
                           (ev_clickX ev) (ev_clickY ev) (ev_scrollDepth ev) ts created];
               read_error := read_error (store d) |};
          sqlite_sequence := next_row_id d |}.

(** [events.forEach(event => stmt.run([...]))] between BEGIN TRANSACTION
    and COMMIT, the i-th statement running at [clock i].  The result is
    [None] when a statement fails on a constraint: what the driver and the
    engine then do with the batch is not part of this model.  COMMIT is
    taken to succeed. *)
Fixpoint insert_rows (d : Database) (clock : nat → Z) (i : nat) (evs : list js_event)
    : option Database :=
  match evs with
  | [] => Some d
  | ev :: evs' => d' ← insert_row d (clock i) ev; insert_rows d' clock (S i) evs'
  end.

Definition insertEvents (d : Database) (clock : nat → Z) (evs : list js_event)
    : option Database :=
  insert_rows d clock 0 evs.

(** The properties the table declares NOT NULL. *)
Definition required_present (ev : js_event) : Prop :=
  is_Some (ev_sessionId ev) ∧ is_Some (ev_pageUrl ev)
  ∧ is_Some (ev_eventType ev) ∧ is_Some (ev_timestamp ev).

(** The row a request element becomes. *)
Definition row_of (ev : js_event) (row : event) : Prop :=
  ev_sessionId ev = Some (session_id row) ∧ ev_pageUrl ev = Some (page_url row)
  ∧ ev_eventType ev = Some (event_type row) ∧ ev_timestamp ev = Some (timestamp row)
  ∧ element_selector row = ev_elementSelector ev
  ∧ click_x row = ev_clickX ev ∧ click_y row = ev_clickY ev
  ∧ scroll_depth row = ev_scrollDepth ev.

(** A click and a scroll event as the collector sends them. *)
Definition js_click (sess page sel : string) (x y ts : Z) : js_event :=
  JsEvent (Some sess) (Some page) (Some "click") (Some sel) (Some x) (Some y) None (Some ts).

Definition js_scroll (sess page : string) (depth : Z) (ts : Z) : js_event :=
  JsEvent (Some sess) (Some page) (Some "scroll") None None None
          (Some (Qc_of_Z depth)) (Some ts).

Definition sample_database : Database :=
  {| store := store_of upper_case_clicks; sqlite_sequence := 7 |}.

Definition sample_batch : list js_event :=
  [js_click "s6" "/home" "DIV.hero" 3 4 50; js_scroll "s6" "/home" 40 60].

(** The engine of the server reads the table through the [Database]
    object it was built with: after an insert it sees the new rows. *)
Definition engine_on (this : RulesEngine) (d : Database) : RulesEngine :=
  {| db := store d; rules := rules this; suggestions := suggestions this |}.

(** ** The event endpoint and the update stream (server.js)

    [sseClients] is a [Set] of response objects; it is iterated in
    insertion order and holds an object at most once.  A response object
    is named by a number; [written] records the chunks written to each
    response so far, oldest first. *)
Definition nl : string := String "010"%char EmptyString.

Record sse_state : Type := SseState {
  sseClients : list nat;
  written : gmap nat (list string)
}.

(** [res.write(chunk)] *)
Definition res_write (res : nat) (chunk : string) (wr : gmap nat (list string))
    : gmap nat (list string) :=
  <[res := (default [] (wr !! res) ++ [chunk])%list]> wr.

(** [sseClients.add(res)] and [sseClients.delete(res)] *)
Definition set_add (res : nat) (l : list nat) : list nat :=
  if decide (res ∈ l) then l else (l ++ [res])%list.

Definition set_delete (res : nat) (l : list nat) : list nat :=
  filter (λ c, c ≠ res) l.

Definition ping_chunk (now : Z) : string :=
  "event: ping" +:+ nl +:+ "data: " +:+ pretty now +:+ nl +:+ nl.

(** [`data: ${JSON.stringify(data)}\n\n`], [json] being the text
    [JSON.stringify] returns. *)
Definition data_chunk (json : string) : string :=
  "data: " +:+ json +:+ nl +:+ nl.

(** GET /metrics/stream: the ping is written, then the response joins the
    set. *)
Definition metrics_stream (res : nat) (now : Z) (st : sse_state) : sse_state :=
  SseState (set_add res (sseClients st)) (res_write res (ping_chunk now) (written st)).

(** [req.on('close', () => sseClients.delete(res))] *)
Definition stream_closed (res : nat) (st : sse_state) : sse_state :=
  SseState (set_delete res (sseClients st)) (written st).

(** [broadcastSSE(data)] *)
Definition broadcastSSE (json : string) (st : sse_state) : sse_state :=
  SseState (sseClients st)
    (foldl (λ wr client, res_write client (data_chunk json) wr)
       (written st) (sseClients st)).

(** [JSON.stringify({ type: 'metrics_update' })] *)
Definition metrics_update_json : string :=
  "{" +:+ dquote +:+ "type" +:+ dquote +:+ ":" +:+ dquote +:+ "metrics_update"
  +:+ dquote +:+ "}".

(** POST /events.  [valid] is the verdict of [validateBatch] on the body
    and [inserted] the outcome of awaiting [db.insertEvents]; the result is
    the status of the response and the state of the stream. *)
Definition post_events (valid : bool) (inserted : result unit) (st : sse_state)
    : nat * sse_state :=
  if negb valid then (400%nat, st)
  else match inserted with
       | Resolved _ => (200%nat, broadcastSSE metrics_update_json st)
       | Rejected _ => (500%nat, st)
       end.

(** What reaches the server, in order. *)
Inductive request : Type :=
  | StreamOpened (res : nat) (now : Z)
  | StreamClosed (res : nat)
  | EventsPosted (valid : bool) (inserted : result unit).

Definition handle (st : sse_state) (rq : request) : sse_state :=
  match rq with
  | StreamOpened res now => metrics_stream res now st
  | StreamClosed res => stream_closed res st
  | EventsPosted valid inserted => (post_events valid inserted st).2
  end.

Definition serve (rqs : list request) : sse_state :=
  foldl handle (SseState [] ∅) rqs.

(** A batch that was valid and inserted. *)
Definition accepted (rq : request) : bool :=
  match rq with
  | EventsPosted true (Resolved _) => true
  | _ => false
  end.

(** A request about the stream of response [res]. *)
Definition about (res : nat) (rq : request) : bool :=
  match rq with
  | StreamOpened r _ | StreamClosed r => bool_decide (r = res)
  | EventsPosted _ _ => false
  end.

Definition opens (res : nat) (rq : request) : bool :=
  match rq with
  | StreamOpened r _ => bool_decide (r = res)
  | _ => false
  end.

(** ** The collector (js-snippet/analytics.js)

    The snippet keeps a queue of events and the time of the last scroll
    event it recorded; [flush] hands the queue to [sendBeacon] or [fetch]
    as one batch.  [sent] records the batches handed over, oldest first. *)
Definition BATCH_SIZE : nat := 10.
Definition SCROLL_THROTTLE : Z := 1000.

Record collector : Type := Collector {
  queue : list js_event;
  lastScrollEventTs : Z;
  sent : list (list js_event)
}.

Definition collector_start : collector := Collector [] 0 [].

(** [if(queue.length === 0) return;
     const payload = { events: queue.splice(0, queue.length) }; ...] *)
Definition flush (c : collector) : collector :=
  match queue c with
  | [] => c
  | _ => Collector [] (lastScrollEventTs c) (sent c ++ [queue c])
  end.

(** [queue.push(evt); if(queue.length >= BATCH_SIZE){ flush(); }] *)
Definition enqueue (evt : js_event) (c : collector) : collector :=
  let c' := Collector (queue c ++ [evt]) (lastScrollEventTs c) (sent c) in
  if decide (BATCH_SIZE ≤ length (queue c'))%nat then flush c' else c'.

(** [Math.round] on a rational: the nearest integer, halves upwards. *)
Definition js_round (x : Qc) : Z := Qfloor (this (x + dec 1 2)%Qc).

(** [a || b] on numbers. *)
Definition js_or (a b : Qc) : Qc := if decide (a = 0%Qc) then b else a.

(** A DOM node as [selectorFor] reads it: [nodeType] (0 when absent),
    [id] (empty when absent), [tagName] and the class list. *)
Record element : Type := Element {
  nodeType : nat;
  el_id : string;
  tagName : option string;
  classList : list string
}.

(** [toLowerCase] on a tag name (ASCII). *)
Fixpoint toLowerCase (s : string) : string :=
  match s with
  | EmptyString => EmptyString
  | String c s' => String (ascii_lower c) (toLowerCase s')
  end.

(** [if(!el || !el.nodeType) return null;
     if(el.id) return '#' + el.id;
     let sel = el.tagName ? el.tagName.toLowerCase() : '';
     if(el.classList && el.classList.length){
       sel += '.' + Array.from(el.classList).slice(0,3).join('.'); }
     return sel || null;] *)
Definition selectorFor (el : option element) : option string :=
  match el with
  | None => None
  | Some el =>
      if decide (nodeType el = 0%nat) then None
      else if decide (el_id el ≠ EmptyString) then Some ("#" +:+ el_id el)
      else
        let sel := match tagName el with
                   | Some t => toLowerCase t
                   | None => EmptyString
                   end in
        let sel := match classList el with
                   | [] => sel
                   | _ => sel +:+ "." +:+ String.concat "." (take 3 (classList el))
                   end in
        if decide (sel = EmptyString) then None else Some sel
  end.

(** [height > 0 ? Math.round((scrollTop / height) * 100) : 0] *)
Definition scroll_percent (scrollTop height : Qc) : Z :=
  if decide (0 < height)%Qc then js_round (scrollTop / height * Qc_of_Z 100)%Qc else 0%Z.

(** What the page reports to the two listeners and to the timer.  [rect]
    is the target's bounding rectangle, when it has one. *)
Inductive dom_event : Type :=
  | ClickAt (target : option element) (rect : option (Qc * Qc)) (clientX clientY : Qc)
            (now : Z)
  | ScrollAt (pageYOffset scrollTop clientTop scrollHeight clientHeight : Qc) (now : Z)
  | FlushTimer.  (* setInterval(flush, FLUSH_INTERVAL), or beforeunload *)

(** The listeners, for the session [sid] on the page [href]. *)
Definition on_click (sid href : string) (target : option element) (rect : option (Qc * Qc))
    (clientX clientY : Qc) (now : Z) (c : collector) : collector :=
  let r := default (0%Qc, 0%Qc) rect in
  enqueue (JsEvent (Some sid) (Some href) (Some "click") (selectorFor target)
                   (Some (js_round (clientX - r.1)%Qc)) (Some (js_round (clientY - r.2)%Qc))
                   None (Some now)) c.

Definition on_scroll (sid href : string)
    (pageYOffset scrollTop clientTop scrollHeight clientHeight : Qc) (now : Z)
    (c : collector) : collector :=
  if decide (now - lastScrollEventTs c < SCROLL_THROTTLE)%Z then c
  else
    let c' := Collector (queue c) now (sent c) in
    let top := (js_or pageYOffset scrollTop - js_or clientTop 0)%Qc in
    let height := (scrollHeight - clientHeight)%Qc in
    enqueue (JsEvent (Some sid) (Some href) (Some "scroll") None None None
                     (Some (Qc_of_Z (scroll_percent top height))) (Some now)) c'.

Definition listen (sid href : string) (c : collector) (ev : dom_event) : collector :=
  match ev with
  | ClickAt target rect x y now => on_click sid href target rect x y now c
  | ScrollAt py st ct sh ch now => on_scroll sid href py st ct sh ch now c
  | FlushTimer => flush c
  end.

Definition collect (sid href : string) (evs : list dom_event) : collector :=
  foldl (listen sid href) collector_start evs.

(** Everything recorded so far, in order: what was handed over, then what
    still waits. *)
Definition recorded (c : collector) : list js_event :=
  (concat (sent c) ++ queue c)%list.

Definition scroll_stamps (l : list js_event) : list Z :=
  omap (λ e, if decide (ev_eventType e = Some "scroll") then ev_timestamp e else None) l.

(** Neighbours in the list are at least [gap] apart. *)
Definition spaced (gap : Z) (l : list Z) : Prop :=
  ∀ i t1 t2, l !! i = Some t1 → l !! S i = Some t2 → (gap ≤ t2 - t1)%Z.

(** The queue is short of a batch and every batch handed over has between
    one and [BATCH_SIZE] events. *)
Definition batches_ok (c : collector) : Prop :=
  (length (queue c) < BATCH_SIZE)%nat
  ∧ Forall (λ b, (1 ≤ length b)%nat ∧ (length b ≤ BATCH_SIZE)%nat) (sent c).

(** A node with an id, and one without, as the click listener meets them. *)
Definition buy_button : element :=
  Element 1 "buy-now" (Some "BUTTON") ["btn"; "btn-primary"].

Definition hero_banner : element :=
  Element 1 EmptyString (Some "DIV") ["hero"; "wide"; "dark"; "rounded"].

(** * Properties *)

(** ** Lists as relations *)

Section relational_facts.
Context {A K : Type} `{EqDecision K}.
Implicit Types (key : A → K) (l : list A).

Lemma elem_of_group_by key l k g :
  (k, g) ∈ group_by key l ↔ k ∈ key <$> l ∧ g = filter (λ a, key a = k) l.
Proof.
  unfold group_by. rewrite list_elem_of_fmap. split.
  - intros (k' & Heq & Hin). rewrite elem_of_remove_dups in Hin.
    inversion Heq; subst. done.
  - intros [Hin ->]. exists k. split; [done|]. by rewrite elem_of_remove_dups.
Qed.

Lemma group_by_inhabited key l k g :
  (k, g) ∈ group_by key l → ∃ a, a ∈ g ∧ key a = k.
Proof.
  rewrite elem_of_group_by. intros [Hin ->].
  apply list_elem_of_fmap in Hin as (a & -> & Ha).
  exists a. split; [|done]. by apply list_elem_of_filter.
Qed.

Lemma remove_dups_filter (P : K → Prop) `{∀ x, Decision (P x)} (l : list K) :
  filter P (remove_dups l) = remove_dups (filter P l).
Proof.
  induction l as [|x l IH]; [done|]. cbn [remove_dups].
  destruct (decide (P x)) as [HP|HP].
  - rewrite (filter_cons_True _ _ _ HP). cbn [remove_dups].
    destruct (decide_rel elem_of x l) as [Hin|Hin];
      destruct (decide_rel elem_of x (filter P l)) as [Hf|Hf].
    + done.
    + exfalso. apply Hf. by apply list_elem_of_filter.
    + exfalso. apply list_elem_of_filter in Hf as [_ ?]. done.
    + rewrite (filter_cons_True _ _ _ HP). by rewrite IH.
  - rewrite (filter_cons_False _ _ _ HP).
    destruct (decide_rel elem_of x l) as [Hin|Hin]; [done|].
    by rewrite (filter_cons_False _ _ _ HP).
Qed.
End relational_facts.

Lemma remove_dups_fmap_inj {A B} `{EqDecision A, EqDecision B} (f : A → B)
    `{!Inj (=) (=) f} (l : list A) :
  remove_dups (f <$> l) = f <$> remove_dups l.
Proof.
  induction l as [|x l IH]; [done|]. cbn [fmap list_fmap remove_dups].
  destruct (decide_rel elem_of (f x) (f <$> l)) as [Hin|Hin];
    destruct (decide_rel elem_of x l) as [Hx|Hx].
  - done.
  - exfalso. apply list_elem_of_fmap in Hin as (y & Hy & Hyl).
    apply (inj f) in Hy. by subst.
  - exfalso. apply Hin. apply list_elem_of_fmap. by exists x.
  - cbn. by rewrite IH.
Qed.

Lemma filter_fmap {A B} (f : A → B) (P : B → Prop) `{∀ x, Decision (P x)} (l : list A) :
  filter P (f <$> l) = f <$> filter (λ a, P (f a)) l.
Proof.
  induction l as [|x l IH]; [done|]. cbn [fmap list_fmap].
  destruct (decide (P (f x))) as [HP|HP].
  - rewrite (filter_cons_True P _ _ HP), (filter_cons_True (λ a, P (f a)) _ _ HP).
    cbn. by rewrite IH.
  - rewrite (filter_cons_False P _ _ HP), (filter_cons_False (λ a, P (f a)) _ _ HP).
    done.
Qed.

Lemma elem_of_merge_sort {A} (R : relation A) `{∀ x y, Decision (R x y)}
    (l : list A) (x : A) :
  x ∈ merge_sort R l ↔ x ∈ l.
Proof. by rewrite merge_sort_Permutation. Qed.

Lemma elem_of_grouped {A K R} `{EqDecision K} (key : A → K)
    (select : K * list A → R) (having : R → Prop) `{∀ r, Decision (having r)}
    (before : relation R) `{∀ x y, Decision (before x y)} (l : list A) (row : R) :
  row ∈ merge_sort before (filter having (select <$> group_by key l))
  ↔ having row
    ∧ ∃ k, k ∈ key <$> l ∧ row = select (k, filter (λ a, key a = k) l).
Proof.
  rewrite elem_of_merge_sort, list_elem_of_filter, list_elem_of_fmap. split.
  - intros [Hh ([k g] & -> & Hg)]. apply elem_of_group_by in Hg as [Hk ->].
    split; [done|]. by exists k.
  - intros [Hh (k & Hk & ->)]. split; [done|].
    exists (k, filter (λ a, key a = k) l). split; [done|].
    by apply elem_of_group_by.
Qed.

Lemma elem_of_imap {A B} (f : nat → A → B) (l : list A) (y : B) :
  y ∈ imap f l ↔ ∃ i x, l !! i = Some x ∧ y = f i x.
Proof.
  rewrite elem_of_lookup_imap. split.
  - intros (i & x & -> & Hl). eauto.
  - intros (i & x & Hl & ->). eauto.
Qed.

Lemma fmap_imap_const {A B C} (f : nat → A → B) (g : B → C) (h : A → C) (l : list A) :
  (∀ i x, g (f i x) = h x) → g <$> imap f l = h <$> l.
Proof.
  intros Hgf. revert f Hgf. induction l as [|x l IH]; intros f Hgf; [done|].
  cbn. rewrite Hgf. f_equal. apply IH. intros i y. apply Hgf.
Qed.

(** ** Suggestions *)

Lemma slice_map_texts rid (l : list string) :
  sg_text <$> slice_map rid l = take 3 l.
Proof. by destruct l as [|a [|b [|c l]]]. Qed.

Lemma slice_map_priorities rid (l : list string) :
  sg_priority <$> slice_map rid l
  = take (length (slice_map rid l)) ["high"; "medium"; "low"].
Proof. by destruct l as [|a [|b [|c l]]]. Qed.

Lemma slice_map_length rid (l : list string) :
  length (slice_map rid l) = length l `min` 3.
Proof. unfold slice_map. rewrite length_imap, length_take. lia. Qed.

Lemma attach_suggestions_spec this w n l l' :
  attach_suggestions this w n l = Resolved l' →
  ∀ i, i ∈ l' →
    ∃ x sg stamp, x ∈ l ∧ i = with_suggestions x sg stamp
      ∧ getSuggestionsForRule this (ruleId x) = Return sg.
Proof.
  revert n l'. induction l as [|x l IH]; intros n l' Hrun i Hi; cbn in Hrun.
  - simplify_eq. by apply elem_of_nil in Hi.
  - destruct (getSuggestionsForRule this (ruleId x)) as [sg|e] eqn:Hsg; [|done].
    destruct (attach_suggestions this w (S n) l) as [rest|e] eqn:Hrest; [|done].
    cbn in Hrun. simplify_eq.
    apply elem_of_cons in Hi as [->|Hi].
    + exists x, sg, (date_now w "detectedAt" n). split_and!; [left|done|done].
    + destruct (IH _ _ Hrest i Hi) as (y & sg' & st & Hy & -> & Hg).
      exists y, sg', st. split_and!; [by right|done|done].
Qed.

(** C9. Every issue returned by [analyzeAllRules] carries the first three
    texts of the catalog entry of its rule, in catalog order, tagged high,
    medium, low by position, and never more than three, whatever the size of
    the catalog. *)
Theorem analyzeAllRules_suggestions (this : RulesEngine) (w : World) (l : list issue) :
  analyzeAllRules this w = Resolved l →
  ∀ i, i ∈ l →
    ∃ sg, issue_suggestions i = Some sg
      ∧ sg_text <$> sg = take 3 (default [] (suggestions this !! ruleId i))
      ∧ sg_priority <$> sg = take (length sg) ["high"; "medium"; "low"]
      ∧ length sg = length (default [] (suggestions this !! ruleId i)) `min` 3
      ∧ (length sg ≤ 3)%nat.
Proof.
  unfold analyzeAllRules. intros Hrun i Hi.
  destruct (analyzeLowClickRate this w) as [l1|?]; [cbn in Hrun|done].
  destruct (analyzeLowScrollDepth this w) as [l2|?]; [cbn in Hrun|done].
  destruct (analyzeRageClicks this w) as [l3|?]; [cbn in Hrun|done].
  destruct (analyzeDeadClicks this w) as [l4|?]; [cbn in Hrun|done].
  destruct (analyzeHighExitRate this w) as [l5|?]; [cbn in Hrun|done].
  destruct (attach_suggestions_spec _ _ _ _ _ Hrun i Hi)
    as (x & sg & stamp & _ & -> & Hsg).
  exists sg. cbn. split; [done|].
  unfold getSuggestionsForRule, js_get in Hsg.
  destruct (suggestions this !! ruleId x) as [cat|] eqn:Hcat; cbn.
  - simplify_eq. rewrite slice_map_texts, slice_map_priorities, slice_map_length.
    split_and!; [done|done|done|lia].
  - case_bool_decide; simplify_eq. split_and!; cbn; (done || lia).
Qed.

Lemma analyzeAllRules_suggestions_witness :
  ∃ l, analyzeAllRules sample_engine quiet_world = Resolved l
    ∧ l ≠ []
    ∧ ∀ i, i ∈ l →
        ∃ sg, issue_suggestions i = Some sg
          ∧ sg_text <$> sg = take 3 (default [] (suggestions sample_engine !! ruleId i))
          ∧ sg_priority <$> sg = take (length sg) ["high"; "medium"; "low"]
          ∧ length sg = length (default [] (suggestions sample_engine !! ruleId i)) `min` 3
          ∧ (length sg ≤ 3)%nat.
Proof.
  destruct (analyzeAllRules sample_engine quiet_world) as [l|e] eqn:Hrun.
  - exists l. split; [done|]. split.
    + intros ->. vm_compute in Hrun. discriminate Hrun.
    + exact (analyzeAllRules_suggestions sample_engine quiet_world l Hrun).
  - vm_compute in Hrun. discriminate Hrun.
Defined.

(** ** updateRuleThreshold *)

Lemma js_get_own {A} (o : gmap string A) k a : o !! k = Some a → js_get o k = Own a.
Proof. unfold js_get. by intros ->. Qed.

Lemma js_get_plain {A} (o : gmap string A) k :
  o !! k = None → k ∉ object_prototype_props → js_get o k = Undefined.
Proof. unfold js_get. intros -> Hk. by rewrite bool_decide_eq_false_2. Qed.

Lemma js_get_inherited {A} (o : gmap string A) k :
  o !! k = None → k ∈ object_prototype_props → js_get o k = Inherited.
Proof. unfold js_get. intros -> Hk. by rewrite bool_decide_eq_true_2. Qed.

(** For names that [Object.prototype] does not define, the update behaves
    as a map update guarded by two lookups: an unknown rule or an unknown
    key is refused and the engine is left as it was. *)
Lemma updateRuleThreshold_unknown (this : RulesEngine) (rid key : string) (value : Qc) :
  rid ∉ object_prototype_props → key ∉ object_prototype_props →
  (rules this !! rid = None
   ∨ ∃ r, rules this !! rid = Some r ∧ thresholds r !! key = None) →
  updateRuleThreshold this rid key value = (Return false, this).
Proof.
  intros Hrid Hkey [Hnone|(r & Hr & Hk)]; unfold updateRuleThreshold.
  - by rewrite (js_get_plain _ _ Hnone Hrid).
  - by rewrite (js_get_own _ _ _ Hr), (js_get_plain _ _ Hk Hkey).
Qed.

(** A known rule and a known key: the call returns true, the stored
    threshold is the new value, every other threshold and every other rule
    is as before, and a detector reading the key binds the new value. *)
Lemma updateRuleThreshold_known (this : RulesEngine) (rid key : string) (value : Qc)
    (r : rule) (old : threshold) :
  rules this !! rid = Some r → thresholds r !! key = Some old →
  ∃ this' r',
    updateRuleThreshold this rid key value = (Return true, this')
    ∧ rules this' !! rid = Some r'
    ∧ thresholds r' !! key = Some (TNum value)
    ∧ num_threshold r' key = Resolved value
    ∧ (∀ k, k ≠ key → thresholds r' !! k = thresholds r !! k)
    ∧ (∀ rid', rid' ≠ rid → rules this' !! rid' = rules this !! rid')
    ∧ db this' = db this ∧ suggestions this' = suggestions this.
Proof.
  intros Hr Hk. unfold updateRuleThreshold.
  rewrite (js_get_own _ _ _ Hr), (js_get_own _ _ _ Hk).
  eexists _, _. split; [done|]. cbn.
  rewrite lookup_insert_eq. split; [done|]. cbn.
  unfold num_threshold, js_get, js_set. cbn. rewrite Hk.
  rewrite lookup_insert_eq. split_and!; try done.
  - intros k Hne. by rewrite lookup_insert_ne.
  - intros rid' Hne. by rewrite lookup_insert_ne.
Qed.

(** Names inherited from [Object.prototype]: as a rule id such a name
    makes the call throw, as a threshold key it is accepted and becomes an
    own threshold of the rule. *)
Lemma updateRuleThreshold_inherited_rule (this : RulesEngine) (rid key : string)
    (value : Qc) :
  rules this !! rid = None → rid ∈ object_prototype_props →
  updateRuleThreshold this rid key value
  = (Throw "TypeError: Cannot read properties of undefined", this).
Proof.
  intros Hnone Hrid. unfold updateRuleThreshold.
  by rewrite (js_get_inherited _ _ Hnone Hrid).
Qed.

Lemma updateRuleThreshold_inherited_key (this : RulesEngine) (rid key : string)
    (value : Qc) (r : rule) :
  rules this !! rid = Some r → thresholds r !! key = None →
  key ∈ object_prototype_props → key ≠ "__proto__" →
  ∃ this' r',
    updateRuleThreshold this rid key value = (Return true, this')
    ∧ rules this' !! rid = Some r'
    ∧ thresholds r' !! key = Some (TNum value)
    ∧ getRuleConfiguration this' ≠ getRuleConfiguration this.
Proof.
  intros Hr Hk Hin Hne. unfold updateRuleThreshold.
  rewrite (js_get_own _ _ _ Hr), (js_get_inherited _ _ Hk Hin).
  eexists _, _. split; [done|]. unfold set_threshold.
  cbn [rules thresholds]. rewrite lookup_insert_eq. split; [done|].
  assert (js_set (thresholds r) key (TNum value) !! key = Some (TNum value)) as Hset.
  { unfold js_set. rewrite Hk, bool_decide_eq_false_2 by done.
    apply lookup_insert_eq. }
  split; [done|].
  unfold getRuleConfiguration. cbn [rules]. intros Heq.
  apply (f_equal (λ l, (list_to_map l : gmap string rule) !! rid)) in Heq.
  rewrite !list_to_map_to_list, lookup_insert_eq, Hr in Heq.
  injection Heq as Heq. apply (f_equal thresholds) in Heq. cbn [thresholds] in Heq.
  rewrite Heq, Hk in Hset. discriminate Hset.
Qed.

(** C7, at names inherited from [Object.prototype]: on the engine as
    constructed, over any store and for any value, the rule id
    [constructor] is not a rule and yet the call throws; the key [toString]
    is not a threshold of [lowClickRate] and yet the call returns true and
    the rule configuration then lists a threshold of that name. *)
Theorem updateRuleThreshold_inherited_names (s : Store) (value : Qc) :
  default_rules !! "constructor" = None
  ∧ (updateRuleThreshold (new_RulesEngine s) "constructor" "minClickRate" value).1
    = Throw "TypeError: Cannot read properties of undefined"
  ∧ (∃ r, default_rules !! "lowClickRate" = Some r ∧ thresholds r !! "toString" = None)
  ∧ ∃ this' r',
      updateRuleThreshold (new_RulesEngine s) "lowClickRate" "toString" value
      = (Return true, this')
      ∧ rules this' !! "lowClickRate" = Some r'
      ∧ thresholds r' !! "toString" = Some (TNum value)
      ∧ getRuleConfiguration this' ≠ getRuleConfiguration (new_RulesEngine s).
Proof.
  assert (default_rules !! "constructor" = None) as Hc by (by vm_compute).
  assert (∃ r, default_rules !! "lowClickRate" = Some r
               ∧ thresholds r !! "toString" = None) as (r & Hr & Hk).
  { eexists. split; by vm_compute. }
  split; [done|]. split.
  - rewrite (updateRuleThreshold_inherited_rule (new_RulesEngine s)); [done|done|].
    apply (bool_decide_unpack _). by vm_compute.
  - split; [by exists r|].
    apply (updateRuleThreshold_inherited_key (new_RulesEngine s) _ _ value r);
      [done|done| |done].
    apply (bool_decide_unpack _). by vm_compute.
Qed.

(** ** getAggregatedMetrics *)

Lemma find_metric_key now key :
  key ∈ metric_keys →
  ∃ i q run, list_find (λ kq, kq.1 = key) (metric_queries now) = Some (i, (key, (q, run))).
Proof.
  unfold metric_keys. intros Hkey.
  repeat (apply elem_of_cons in Hkey as [->|Hkey];
          [cbn; repeat (rewrite decide_False by done);
           rewrite decide_True by done; cbn; by eexists _, _, _|]).
  by apply elem_of_nil in Hkey.
Qed.

Lemma deliver_completed s now st key :
  agg_completed (deliver s now st key)
  = (agg_completed st + (if read_ok s now key then 1 else 0))%nat.
Proof.
  unfold deliver, read_ok.
  destruct (list_find _ (metric_queries now)) as [[i [k [q run]]]|]; [|cbn; lia].
  unfold db_all. destruct (read_error s q); cbn; lia.
Qed.

Lemma completed_count s now arrival :
  agg_completed (getAggregatedMetrics s now arrival)
  = length (filter (λ k, Is_true (read_ok s now k)) arrival).
Proof.
  unfold getAggregatedMetrics.
  induction arrival as [|k l IH] using rev_ind; [done|].
  rewrite foldl_snoc, deliver_completed, IH, filter_app, length_app.
  f_equal. destruct (read_ok s now k) eqn:Hk.
  - rewrite filter_cons_True; [done|]. by rewrite Hk.
  - rewrite filter_cons_False; [done|]. rewrite Hk. by intros [].
Qed.

Lemma deliver_fulfilled s now st key m :
  agg_promise (deliver s now st key) = Fulfilled m →
  agg_promise st = Fulfilled m
  ∨ (agg_completed (deliver s now st key) = length (metric_queries now)
     ∧ m = agg_results (deliver s now st key)).
Proof.
  unfold deliver.
  destruct (list_find _ (metric_queries now)) as [[i [k [q run]]]|]; [|by left].
  unfold db_all. destruct (read_error s q); cbn.
  - destruct (agg_promise st); cbn; intros; simplify_eq. by left.
  - case_bool_decide as Hc; [|intros; by left].
    destruct (agg_promise st); cbn; intros; simplify_eq;
      [right; split; [lia|done]|by left].
Qed.

Lemma not_fulfilled_before_all s now arrival m :
  (length (filter (λ k, Is_true (read_ok s now k)) arrival)
   < length (metric_queries now))%nat →
  agg_promise (getAggregatedMetrics s now arrival) ≠ Fulfilled m.
Proof.
  induction arrival as [|k l IH] using rev_ind; [done|].
  intros Hlt Hful.
  assert (length (filter (λ k, Is_true (read_ok s now k)) l)
          ≤ length (filter (λ k, Is_true (read_ok s now k)) (l ++ [k])%list))%nat as Hle.
  { rewrite filter_app, length_app. lia. }
  pose proof (completed_count s now (l ++ [k])%list) as Hcount.
  unfold getAggregatedMetrics in Hful, Hcount. rewrite foldl_snoc in Hful, Hcount.
  apply deliver_fulfilled in Hful as [Hful|[Hc _]].
  - apply IH; [lia|done].
  - lia.
Qed.

Lemma deliver_settled s now st key :
  agg_promise st ≠ Pending → agg_promise (deliver s now st key) ≠ Pending.
Proof.
  unfold deliver.
  destruct (list_find _ (metric_queries now)) as [[i [k [q run]]]|]; [|done].
  unfold db_all. destruct (read_error s q); cbn.
  - by destruct (agg_promise st).
  - case_bool_decide; by destruct (agg_promise st).
Qed.

Lemma settled_after_failure s now arrival key :
  key ∈ arrival → key ∈ metric_keys → read_ok s now key = false →
  agg_promise (getAggregatedMetrics s now arrival) ≠ Pending.
Proof.
  unfold getAggregatedMetrics.
  induction arrival as [|k l IH] using rev_ind; intros Hin Hkey Hbad.
  - by apply elem_of_nil in Hin.
  - rewrite foldl_snoc. apply elem_of_app in Hin as [Hin|Hin].
    + apply deliver_settled. by apply IH.
    + apply list_elem_of_singleton in Hin as <-.
      unfold deliver. unfold read_ok in Hbad.
      destruct (find_metric_key now key Hkey) as (i & q & run & Hfind).
      rewrite Hfind in Hbad |- *.
      unfold db_all. apply bool_decide_eq_false in Hbad.
      destruct (read_error s q); [|done]. cbn.
      by destruct (agg_promise (foldl _ _ l)).
Qed.

Lemma read_ok_false s now key q run e :
  (key, (q, run)) ∈ metric_queries now → read_error s q = Some e →
  key ∈ metric_keys ∧ read_ok s now key = false.
Proof.
  intros Hin He. unfold metric_queries in Hin.
  repeat (apply elem_of_cons in Hin as [Heq|Hin];
          [inversion Heq; subst; split;
            [apply (bool_decide_unpack _); by vm_compute
            |unfold read_ok; cbn; repeat (rewrite decide_False by done);
             rewrite decide_True by done; cbn; by rewrite He]|]).
  by apply elem_of_nil in Hin.
Qed.

(** C8. If one of the five reads fails, the promise of
    [getAggregatedMetrics] is never fulfilled, whichever callbacks have
    arrived so far and in whatever order: no snapshot reaches the caller;
    and once all five callbacks have arrived the promise is rejected. *)
Theorem getAggregatedMetrics_all_or_nothing (s : Store) (now : Z)
    (arrival : list string) (key : string) (q : query_name)
    (run : list event → metric_rows) (e : string) :
  NoDup arrival → (∀ k, k ∈ arrival → k ∈ metric_keys) →
  (key, (q, run)) ∈ metric_queries now → read_error s q = Some e →
  (∀ m, agg_promise (getAggregatedMetrics s now arrival) ≠ Fulfilled m)
  ∧ (key ∈ arrival →
     ∃ e', agg_promise (getAggregatedMetrics s now arrival) = Failed e').
Proof.
  intros Hnd Hsub Hq He.
  destruct (read_ok_false s now key q run e Hq He) as [Hkey Hbad].
  assert (∀ m, agg_promise (getAggregatedMetrics s now arrival) ≠ Fulfilled m) as Hnf.
  { intros m. apply not_fulfilled_before_all.
    assert (filter (λ k, Is_true (read_ok s now k)) arrival
            ⊆+ filter (λ k, k ≠ key) metric_keys) as Hsm.
    { apply NoDup_submseteq; [by apply NoDup_filter|].
      intros k [Hk Hin]%list_elem_of_filter. apply list_elem_of_filter.
      split; [|by apply Hsub]. intros ->. by rewrite Hbad in Hk. }
    apply submseteq_length in Hsm.
    assert (length (filter (λ k, k ≠ key) metric_keys) < 5)%nat as Hlen.
    { clear -Hkey. unfold metric_keys in *.
      repeat (apply elem_of_cons in Hkey as [->|Hkey]; [vm_compute; lia|]).
      by apply elem_of_nil in Hkey. }
    cbn [metric_queries length]. lia. }
  split; [done|]. intros Hin.
  pose proof (settled_after_failure s now arrival key Hin Hkey Hbad) as Hset.
  destruct (agg_promise (getAggregatedMetrics s now arrival)) as [|m|e'] eqn:Hp.
  - done.
  - by destruct (Hnf m).
  - by exists e'.
Qed.

Lemma getAggregatedMetrics_all_or_nothing_witness :
  (∀ m, agg_promise (getAggregatedMetrics failing_store 0 sample_arrival) ≠ Fulfilled m)
  ∧ ("averageScrollDepth" ∈ sample_arrival →
     ∃ e', agg_promise (getAggregatedMetrics failing_store 0 sample_arrival) = Failed e').
Proof.
  apply (getAggregatedMetrics_all_or_nothing failing_store 0 sample_arrival
           "averageScrollDepth" QAverageScrollDepth average_scroll_depth "SQLITE_IOERR").
  - apply (bool_decide_unpack _). by vm_compute.
  - intros k Hk. apply (bool_decide_unpack _).
    unfold sample_arrival in Hk.
    repeat (apply elem_of_cons in Hk as [->|Hk]; [by vm_compute|]).
    by apply elem_of_nil in Hk.
  - unfold metric_queries. do 3 apply list_elem_of_further. apply list_elem_of_here.
  - reflexivity.
Defined.

(** When every read succeeds and all five callbacks have arrived, the
    promise is fulfilled with a snapshot that has all five keys. *)
Lemma deliver_not_failed s now st key e :
  (∀ q, read_error s q = None) →
  agg_promise st ≠ Failed e → agg_promise (deliver s now st key) ≠ Failed e.
Proof.
  intros Hok. unfold deliver.
  destruct (list_find _ (metric_queries now)) as [[i [k [q run]]]|]; [|done].
  unfold db_all. rewrite Hok. cbn.
  case_bool_decide; by destruct (agg_promise st).
Qed.

Lemma never_failed s now arrival e :
  (∀ q, read_error s q = None) →
  agg_promise (getAggregatedMetrics s now arrival) ≠ Failed e.
Proof.
  intros Hok. unfold getAggregatedMetrics.
  induction arrival as [|k l IH] using rev_ind; [done|].
  rewrite foldl_snoc. by apply deliver_not_failed.
Qed.

Lemma deliver_resolved s now st key :
  (∀ q, read_error s q = None) → key ∈ metric_keys →
  ∃ rows, deliver s now st key = on_rows 5 key (Resolved rows) st.
Proof.
  intros Hok Hkey. unfold deliver.
  destruct (find_metric_key now key Hkey) as (i & q & run & ->).
  unfold db_all. rewrite Hok. by eexists.
Qed.

Lemma deliver_results s now st key k :
  (∀ q, read_error s q = None) → key ∈ metric_keys →
  is_Some (agg_results st !! k) ∨ k = key →
  is_Some (agg_results (deliver s now st key) !! k).
Proof.
  intros Hok Hkey Hk. unfold deliver.
  destruct (find_metric_key now key Hkey) as (i & q & run & ->).
  unfold db_all. rewrite Hok. cbn.
  destruct (decide (key = k)) as [->|Hne].
  - rewrite lookup_insert_eq. by eexists.
  - rewrite lookup_insert_ne; [|done]. destruct Hk as [Hk|Hk]; [done|by subst].
Qed.

Lemma results_keys s now arrival k :
  (∀ q, read_error s q = None) → (∀ k, k ∈ arrival → k ∈ metric_keys) →
  k ∈ arrival → is_Some (agg_results (getAggregatedMetrics s now arrival) !! k).
Proof.
  intros Hok. unfold getAggregatedMetrics.
  induction arrival as [|x l IH] using rev_ind; intros Hsub Hin.
  - by apply elem_of_nil in Hin.
  - rewrite foldl_snoc.
    apply deliver_results; [done|apply Hsub, elem_of_app; right; left|].
    apply elem_of_app in Hin as [Hin|Hin].
    + left. apply IH; [|done]. intros y Hy. apply Hsub, elem_of_app. by left.
    + right. by apply list_elem_of_singleton in Hin.
Qed.

Lemma getAggregatedMetrics_snapshot (s : Store) (now : Z) (arrival : list string) :
  (∀ q, read_error s q = None) → arrival ≡ₚ metric_keys →
  ∃ m, agg_promise (getAggregatedMetrics s now arrival) = Fulfilled m
    ∧ ∀ k, k ∈ metric_keys → is_Some (m !! k).
Proof.
  intros Hok Hperm.
  assert (∀ k, k ∈ arrival → k ∈ metric_keys) as Hsub.
  { intros k. by rewrite Hperm. }
  assert (∀ k, read_ok s now k = true ∨ k ∉ metric_keys) as Hall.
  { intros k. destruct (decide (k ∈ metric_keys)) as [Hk|Hk]; [left|by right].
    unfold read_ok. destruct (find_metric_key now k Hk) as (i & q & run & ->).
    by rewrite Hok. }
  pose proof (Permutation_length Hperm) as Hlen. cbn in Hlen.
  destruct arrival as [|x l _] using rev_ind; [done|].
  rewrite length_app in Hlen. cbn in Hlen.
  assert (filter (λ k, Is_true (read_ok s now k)) l = l) as Hfl.
  { clear -Hall Hsub. induction l as [|y l IH]; [done|].
    rewrite filter_cons_True.
    - f_equal. apply IH. intros k Hk. apply Hsub. by right.
    - destruct (Hall y) as [->|Hy]; [done|]. exfalso. apply Hy, Hsub. left. }
  pose proof (completed_count s now l) as Hcount. rewrite Hfl in Hcount.
  assert (agg_promise (getAggregatedMetrics s now l) = Pending) as Hpend.
  { destruct (agg_promise (getAggregatedMetrics s now l)) as [|m|e] eqn:Hp; [done| |].
    - exfalso. revert Hp. apply not_fulfilled_before_all.
      rewrite Hfl. cbn [metric_queries length]. lia.
    - exfalso. revert Hp. by apply never_failed. }
  exists (agg_results (getAggregatedMetrics s now (l ++ [x])%list)). split.
  - unfold getAggregatedMetrics in *. rewrite foldl_snoc.
    destruct (deliver_resolved s now (foldl (deliver s now) (Aggregation ∅ 0 Pending) l) x)
      as [rows ->]; [done|apply Hsub, elem_of_app; right; left|].
    unfold on_rows. cbn [agg_promise agg_results agg_completed].
    rewrite Hpend, Hcount.
    rewrite bool_decide_eq_true_2; [done|lia].
  - intros k Hk. apply results_keys; [done|done|]. by rewrite Hperm.
Qed.

(** ** analyzeAllRules on unchanged data *)

Lemma bind_result_inv {A B} (m : result A) (k : A → result B) (b : B) :
  bind_result m k = Resolved b → ∃ a, m = Resolved a ∧ k a = Resolved b.
Proof. destruct m as [a|e]; [|done]. intros Hk. by exists a. Qed.

Lemma rule_of_inv this rid r :
  rule_of this rid = Resolved r → rules this !! rid = Some r.
Proof.
  unfold rule_of, js_get. destruct (rules this !! rid) as [r'|].
  - by intros [= ->].
  - by case_bool_decide.
Qed.

Lemma num_threshold_inv r k q :
  num_threshold r k = Resolved q → thresholds r !! k = Some (TNum q).
Proof.
  unfold num_threshold, js_get. destruct (thresholds r !! k) as [[q'|l]|].
  - by intros [= ->].
  - done.
  - by case_bool_decide.
Qed.

Lemma list_threshold_inv r k l :
  list_threshold r k = Resolved l → thresholds r !! k = Some (TList l).
Proof.
  unfold list_threshold, js_get. destruct (thresholds r !! k) as [[q'|l']|].
  - done.
  - by intros [= ->].
  - by case_bool_decide.
Qed.

Lemma db_all_inv {A} (s : Store) (q : query_name) (run : list event → A) (a : A) :
  db_all s q run = Resolved a → read_error s q = None ∧ a = run (events s).
Proof. unfold db_all. destruct (read_error s q); [done|]. by intros [= <-]. Qed.

Ltac invert_reads H :=
  repeat match type of H with
         | bind_result _ _ = Resolved _ =>
             let a := fresh "a" in let Ha := fresh "Ha" in
             apply bind_result_inv in H as (a & Ha & H)
         end.

Lemma analyzeLowClickRate_inv this w l :
  analyzeLowClickRate this w = Resolved l →
  ∃ r minClickRate minPageViews,
    rules this !! "lowClickRate" = Some r
    ∧ thresholds r !! "minClickRate" = Some (TNum minClickRate)
    ∧ thresholds r !! "minPageViews" = Some (TNum minPageViews)
    ∧ read_error (db this) QLowClickRate = None
    ∧ l = imap (lcr_issue w r)
            (low_click_rate_query minPageViews minClickRate (events (db this))).
Proof.
  unfold analyzeLowClickRate. intros H. invert_reads H.
  apply rule_of_inv in Ha. apply num_threshold_inv in Ha0, Ha1.
  apply db_all_inv in Ha2 as [He ->]. injection H as <-.
  by eexists _, _, _.
Qed.

Lemma analyzeLowScrollDepth_inv this w l :
  analyzeLowScrollDepth this w = Resolved l →
  ∃ r maxScrollDepth minSessions,
    rules this !! "lowScrollDepth" = Some r
    ∧ thresholds r !! "maxScrollDepth" = Some (TNum maxScrollDepth)
    ∧ thresholds r !! "minSessions" = Some (TNum minSessions)
    ∧ read_error (db this) QLowScrollDepth = None
    ∧ l = imap (lsd_issue w r)
            (low_scroll_depth_query minSessions maxScrollDepth (events (db this))).
Proof.
  unfold analyzeLowScrollDepth. intros H. invert_reads H.
  apply rule_of_inv in Ha. apply num_threshold_inv in Ha0, Ha1.
  apply db_all_inv in Ha2 as [He ->]. injection H as <-.
  by eexists _, _, _.
Qed.

Lemma analyzeRageClicks_inv this w l :
  analyzeRageClicks this w = Resolved l →
  ∃ r clicksInWindow timeWindow minOccurrences,
    rules this !! "rageClicks" = Some r
    ∧ thresholds r !! "clicksInWindow" = Some (TNum clicksInWindow)
    ∧ thresholds r !! "timeWindow" = Some (TNum timeWindow)
    ∧ thresholds r !! "minOccurrences" = Some (TNum minOccurrences)
    ∧ read_error (db this) QRageClicks = None
    ∧ l = imap (rage_issue w r)
            (rage_clicks_query timeWindow clicksInWindow minOccurrences
               (events (db this))).
Proof.
  unfold analyzeRageClicks. intros H. invert_reads H.
  apply rule_of_inv in Ha. apply num_threshold_inv in Ha0, Ha1, Ha2.
  apply db_all_inv in Ha3 as [He ->]. injection H as <-.
  by eexists _, _, _, _.
Qed.

Lemma analyzeDeadClicks_inv this w l :
  analyzeDeadClicks this w = Resolved l →
  ∃ r minClicks sels,
    rules this !! "deadClicks" = Some r
    ∧ thresholds r !! "minClicksOnNonInteractive" = Some (TNum minClicks)
    ∧ thresholds r !! "nonInteractiveSelectors" = Some (TList sels)
    ∧ sels ≠ []
    ∧ read_error (db this) QDeadClicks = None
    ∧ l = imap (dead_issue w r) (dead_clicks_query sels minClicks (events (db this))).
Proof.
  unfold analyzeDeadClicks. intros H. invert_reads H.
  apply rule_of_inv in Ha. apply num_threshold_inv in Ha0.
  apply list_threshold_inv in Ha1.
  destruct a1 as [|sel sels]; [done|]. invert_reads H.
  apply db_all_inv in Ha2 as [He ->]. injection H as <-.
  by eexists _, _, _.
Qed.

Lemma analyzeHighExitRate_inv this w l :
  analyzeHighExitRate this w = Resolved l →
  ∃ r maxInteractionTime minSessions,
    rules this !! "highExitRate" = Some r
    ∧ thresholds r !! "maxInteractionTime" = Some (TNum maxInteractionTime)
    ∧ thresholds r !! "minSessions" = Some (TNum minSessions)
    ∧ read_error (db this) QHighExitRate = None
    ∧ l = imap (exit_issue w r)
            (high_exit_rate_query maxInteractionTime minSessions (events (db this))).
Proof.
  unfold analyzeHighExitRate. intros H. invert_reads H.
  apply rule_of_inv in Ha. apply num_threshold_inv in Ha0, Ha1.
  apply db_all_inv in Ha2 as [He ->]. injection H as <-.
  by eexists _, _, _.
Qed.

Lemma analyzeLowClickRate_content this1 this2 w1 w2 l1 l2 :
  rules this1 = rules this2 → events (db this1) = events (db this2) →
  analyzeLowClickRate this1 w1 = Resolved l1 →
  analyzeLowClickRate this2 w2 = Resolved l2 →
  issue_content <$> l1 = issue_content <$> l2.
Proof.
  intros Hr He
    (r1 & x1 & y1 & Hr1 & Hx1 & Hy1 & _ & ->)%analyzeLowClickRate_inv
    (r2 & x2 & y2 & Hr2 & Hx2 & Hy2 & _ & ->)%analyzeLowClickRate_inv.
  rewrite <- Hr, <- He in *. simplify_eq.
  by rewrite !(fmap_imap_const _ issue_content
                 (λ row, issue_content (lcr_issue quiet_world r1 0 row))).
Qed.

Lemma analyzeLowScrollDepth_content this1 this2 w1 w2 l1 l2 :
  rules this1 = rules this2 → events (db this1) = events (db this2) →
  analyzeLowScrollDepth this1 w1 = Resolved l1 →
  analyzeLowScrollDepth this2 w2 = Resolved l2 →
  issue_content <$> l1 = issue_content <$> l2.
Proof.
  intros Hr He
    (r1 & x1 & y1 & Hr1 & Hx1 & Hy1 & _ & ->)%analyzeLowScrollDepth_inv
    (r2 & x2 & y2 & Hr2 & Hx2 & Hy2 & _ & ->)%analyzeLowScrollDepth_inv.
  rewrite <- Hr, <- He in *. simplify_eq.
  by rewrite !(fmap_imap_const _ issue_content
                 (λ row, issue_content (lsd_issue quiet_world r1 0 row))).
Qed.

Lemma analyzeRageClicks_content this1 this2 w1 w2 l1 l2 :
  rules this1 = rules this2 → events (db this1) = events (db this2) →
  analyzeRageClicks this1 w1 = Resolved l1 →
  analyzeRageClicks this2 w2 = Resolved l2 →
  issue_content <$> l1 = issue_content <$> l2.
Proof.
  intros Hr He
    (r1 & x1 & y1 & z1 & Hr1 & Hx1 & Hy1 & Hz1 & _ & ->)%analyzeRageClicks_inv
    (r2 & x2 & y2 & z2 & Hr2 & Hx2 & Hy2 & Hz2 & _ & ->)%analyzeRageClicks_inv.
  rewrite <- Hr, <- He in *. simplify_eq.
  by rewrite !(fmap_imap_const _ issue_content
                 (λ row, issue_content (rage_issue quiet_world r1 0 row))).
Qed.

Lemma analyzeDeadClicks_content this1 this2 w1 w2 l1 l2 :
  rules this1 = rules this2 → events (db this1) = events (db this2) →
  analyzeDeadClicks this1 w1 = Resolved l1 →
  analyzeDeadClicks this2 w2 = Resolved l2 →
  issue_content <$> l1 = issue_content <$> l2.
Proof.
  intros Hr He
    (r1 & x1 & y1 & Hr1 & Hx1 & Hy1 & _ & _ & ->)%analyzeDeadClicks_inv
    (r2 & x2 & y2 & Hr2 & Hx2 & Hy2 & _ & _ & ->)%analyzeDeadClicks_inv.
  rewrite <- Hr, <- He in *. simplify_eq.
  by rewrite !(fmap_imap_const _ issue_content
                 (λ row, issue_content (dead_issue quiet_world r1 0 row))).
Qed.

Lemma analyzeHighExitRate_content this1 this2 w1 w2 l1 l2 :
  rules this1 = rules this2 → events (db this1) = events (db this2) →
  analyzeHighExitRate this1 w1 = Resolved l1 →
  analyzeHighExitRate this2 w2 = Resolved l2 →
  issue_content <$> l1 = issue_content <$> l2.
Proof.
  intros Hr He
    (r1 & x1 & y1 & Hr1 & Hx1 & Hy1 & _ & ->)%analyzeHighExitRate_inv
    (r2 & x2 & y2 & Hr2 & Hx2 & Hy2 & _ & ->)%analyzeHighExitRate_inv.
  rewrite <- Hr, <- He in *. simplify_eq.
  by rewrite !(fmap_imap_const _ issue_content
                 (λ row, issue_content (exit_issue quiet_world r1 0 row))).
Qed.

Lemma attach_suggestions_content this1 this2 w1 w2 n1 n2 l1 l2 l1' l2' :
  suggestions this1 = suggestions this2 →
  issue_content <$> l1 = issue_content <$> l2 →
  attach_suggestions this1 w1 n1 l1 = Resolved l1' →
  attach_suggestions this2 w2 n2 l2 = Resolved l2' →
  issue_content <$> l1' = issue_content <$> l2'.
Proof.
  intros Hs. revert n1 n2 l2 l1' l2'.
  induction l1 as [|x l1 IH]; intros n1 n2 [|y l2] l1' l2' Hc H1 H2;
    try discriminate Hc; cbn in H1, H2.
  - by simplify_eq.
  - unfold getSuggestionsForRule in H1, H2. rewrite <- Hs in H2.
    cbn in Hc. injection Hc as Hxy Hc.
    assert (ruleId x = ruleId y) as Hid by (by inversion Hxy).
    rewrite <- Hid in H2.
    destruct (js_get (suggestions this1) (ruleId x)) as [cat| |]; try discriminate H1.
    + destruct (attach_suggestions this1 w1 (S n1) l1) as [r1|] eqn:E1; [|done].
      destruct (attach_suggestions this2 w2 (S n2) l2) as [r2|] eqn:E2; [|done].
      cbn in H1, H2. simplify_eq. cbn. f_equal; [|by eapply IH].
      unfold issue_content in *. cbn. congruence.
    + destruct (attach_suggestions this1 w1 (S n1) l1) as [r1|] eqn:E1; [|done].
      destruct (attach_suggestions this2 w2 (S n2) l2) as [r2|] eqn:E2; [|done].
      cbn in H1, H2. simplify_eq. cbn. f_equal; [|by eapply IH].
      unfold issue_content in *. cbn. congruence.
Qed.

Lemma issue_tuple_of_content (l1 l2 : list issue) :
  issue_content <$> l1 = issue_content <$> l2 → issue_tuple <$> l1 = issue_tuple <$> l2.
Proof.
  intros Hc.
  apply (f_equal (fmap (λ c : string * string * string * option string * string
                              * list desc_part * list (string * option Qc)
                              * option (list suggestion),
                          (c.1.1.1.1.1.1.1, c.1.1.1.2, c.1.1.1.1.2, c.1.2)))) in Hc.
  by rewrite <- !list_fmap_compose in Hc.
Qed.

(** C6. Two runs of [analyzeAllRules] over the same rows and the same
    configuration, whatever the clock and the random source show in each,
    flag the same (ruleId, pageUrl, elementSelector) tuples with the same
    metrics values; the issues differ in nothing but identifier and stamp. *)
Theorem analyzeAllRules_idempotent (this1 this2 : RulesEngine) (w1 w2 : World)
    (l1 l2 : list issue) :
  rules this1 = rules this2 → suggestions this1 = suggestions this2 →
  events (db this1) = events (db this2) →
  analyzeAllRules this1 w1 = Resolved l1 →
  analyzeAllRules this2 w2 = Resolved l2 →
  issue_tuple <$> l1 = issue_tuple <$> l2
  ∧ issue_content <$> l1 = issue_content <$> l2
  ∧ ∀ t, t ∈ issue_tuple <$> l1 ↔ t ∈ issue_tuple <$> l2.
Proof.
  intros Hr Hs He H1 H2.
  assert (issue_content <$> l1 = issue_content <$> l2) as Hc.
  { unfold analyzeAllRules in H1, H2.
    destruct (analyzeLowClickRate this1 w1) as [a1|] eqn:A1; [cbn in H1|done].
    destruct (analyzeLowScrollDepth this1 w1) as [b1|] eqn:B1; [cbn in H1|done].
    destruct (analyzeRageClicks this1 w1) as [c1|] eqn:C1; [cbn in H1|done].
    destruct (analyzeDeadClicks this1 w1) as [d1|] eqn:D1; [cbn in H1|done].
    destruct (analyzeHighExitRate this1 w1) as [e1|] eqn:E1; [cbn in H1|done].
    destruct (analyzeLowClickRate this2 w2) as [a2|] eqn:A2; [cbn in H2|done].
    destruct (analyzeLowScrollDepth this2 w2) as [b2|] eqn:B2; [cbn in H2|done].
    destruct (analyzeRageClicks this2 w2) as [c2|] eqn:C2; [cbn in H2|done].
    destruct (analyzeDeadClicks this2 w2) as [d2|] eqn:D2; [cbn in H2|done].
    destruct (analyzeHighExitRate this2 w2) as [e2|] eqn:E2; [cbn in H2|done].
    eapply (attach_suggestions_content this1 this2); [done| |done|done].
    rewrite !fmap_app.
    rewrite (analyzeLowClickRate_content _ _ _ _ _ _ Hr He A1 A2).
    rewrite (analyzeLowScrollDepth_content _ _ _ _ _ _ Hr He B1 B2).
    rewrite (analyzeRageClicks_content _ _ _ _ _ _ Hr He C1 C2).
    rewrite (analyzeDeadClicks_content _ _ _ _ _ _ Hr He D1 D2).
    by rewrite (analyzeHighExitRate_content _ _ _ _ _ _ Hr He E1 E2). }
  pose proof (issue_tuple_of_content _ _ Hc) as Ht.
  split; [done|]. split; [done|]. intros t. by rewrite Ht.
Qed.

Lemma analyzeAllRules_idempotent_witness :
  ∃ l1 l2,
    analyzeAllRules sample_engine quiet_world = Resolved l1
    ∧ analyzeAllRules sample_engine later_world = Resolved l2
    ∧ l1 ≠ []
    ∧ issue_id <$> l1 ≠ issue_id <$> l2
    ∧ issue_tuple <$> l1 = issue_tuple <$> l2
    ∧ issue_content <$> l1 = issue_content <$> l2
    ∧ ∀ t, t ∈ issue_tuple <$> l1 ↔ t ∈ issue_tuple <$> l2.
Proof.
  destruct (analyzeAllRules sample_engine quiet_world) as [l1|e] eqn:H1;
    [|vm_compute in H1; discriminate H1].
  destruct (analyzeAllRules sample_engine later_world) as [l2|e] eqn:H2;
    [|vm_compute in H2; discriminate H2].
  exists l1, l2. split; [done|]. split; [done|]. split.
  { intros ->. vm_compute in H1. discriminate H1. }
  split.
  { intros Hid. vm_compute in H1, H2. simplify_eq. }
  exact (analyzeAllRules_idempotent sample_engine sample_engine quiet_world later_world
           l1 l2 eq_refl eq_refl eq_refl H1 H2).
Defined.

(** ** From rows to issues *)

Lemma flags_pair_imap {R} (mk : nat → R → issue) (rows : list R)
    (pg : R → string) (sl : R → option string) (page sel : string) :
  (∀ i row, pageUrl (mk i row) = pg row ∧ elementSelector (mk i row) = sl row) →
  flags_pair (imap mk rows) page sel
  ↔ ∃ row, row ∈ rows ∧ pg row = page ∧ sl row = Some sel.
Proof.
  intros Hmk. unfold flags_pair. split.
  - intros (i & Hi & Hp & Hs). apply elem_of_imap in Hi as (n & row & Hrow & ->).
    destruct (Hmk n row) as [Hp' Hs']. exists row.
    split_and!; [by eapply list_elem_of_lookup_2|congruence|congruence].
  - intros (row & Hrow & Hp & Hs). apply list_elem_of_lookup_1 in Hrow as [n Hn].
    exists (mk n row). destruct (Hmk n row) as [Hp' Hs'].
    split_and!; [|congruence|congruence].
    apply elem_of_imap. eauto.
Qed.

Lemma flags_page_imap {R} (mk : nat → R → issue) (rows : list R)
    (pg : R → string) (page : string) :
  (∀ i row, pageUrl (mk i row) = pg row) →
  flags_page (imap mk rows) page ↔ ∃ row, row ∈ rows ∧ pg row = page.
Proof.
  intros Hmk. unfold flags_page. split.
  - intros (i & Hi & Hp). apply elem_of_imap in Hi as (n & row & Hrow & ->).
    exists row. split; [by eapply list_elem_of_lookup_2|]. by rewrite <- Hmk with (i := n).
  - intros (row & Hrow & Hp). apply list_elem_of_lookup_1 in Hrow as [n Hn].
    exists (mk n row). split; [|by rewrite Hmk].
    apply elem_of_imap. eauto.
Qed.

Lemma analyzeRageClicks_run (this : RulesEngine) (w : World) (r : rule)
    (clicksInWindow timeWindow minOccurrences : Qc) :
  rules this !! "rageClicks" = Some r →
  thresholds r !! "clicksInWindow" = Some (TNum clicksInWindow) →
  thresholds r !! "timeWindow" = Some (TNum timeWindow) →
  thresholds r !! "minOccurrences" = Some (TNum minOccurrences) →
  read_error (db this) QRageClicks = None →
  analyzeRageClicks this w
  = Resolved (imap (rage_issue w r)
                (rage_clicks_query timeWindow clicksInWindow minOccurrences
                   (events (db this)))).
Proof.
  intros Hr Hc Ht Hm He.
  unfold analyzeRageClicks, rule_of, num_threshold, db_all.
  rewrite (js_get_own _ _ _ Hr). cbn.
  rewrite (js_get_own _ _ _ Hc). cbn.
  rewrite (js_get_own _ _ _ Ht). cbn.
  rewrite (js_get_own _ _ _ Hm). cbn.
  by rewrite He.
Qed.

Lemma analyzeRageClicks_default (s : Store) (w : World) :
  read_error s QRageClicks = None →
  analyzeRageClicks (new_RulesEngine s) w
  = Resolved (imap (rage_issue w rageClicks_rule)
                (rage_clicks_query (Qc_of_Z 2000) (Qc_of_Z 3) (Qc_of_Z 2) (events s))).
Proof. intros He. by apply analyzeRageClicks_run. Qed.

(** ** Rage clicks *)

(** The join condition and the row filter of the windowed count read the
    session, the selector, the event type and the timestamp of the two
    rows, and nothing of their pages. *)
Lemma rage_join_ignores_page (tw : Qc) (e1 e2 : event) (p1 p2 : string) :
  rage_on tw (relocate p1 e1) (relocate p2 e2) = rage_on tw e1 e2
  ∧ rage_where (relocate p1 e1, relocate p2 e2) = rage_where (e1, e2).
Proof. by destruct e1, e2. Qed.

Lemma filter_bind {A B} (P : B → Prop) `{∀ x, Decision (P x)} (f : A → list B) (l : list A) :
  filter P (l ≫= f) = l ≫= (λ a, filter P (f a)).
Proof.
  induction l as [|a l IH]; [done|]. by rewrite !bind_cons, filter_app, IH.
Qed.

Lemma bind_only_at {A B} `{EqDecision A} (f : A → list B) (l : list A) (a : A) :
  NoDup l → a ∈ l → (∀ x, x ∈ l → x ≠ a → f x = []) → l ≫= f = f a.
Proof.
  intros Hnd Hin Hf. induction Hnd as [|x l Hx Hnd IH]; [by apply elem_of_nil in Hin|].
  rewrite bind_cons. destruct (decide (x = a)) as [->|Hne].
  - assert (l ≫= f = []) as ->; [|by rewrite app_nil_r].
    clear IH Hin. induction l as [|y l IH]; [done|].
    rewrite bind_cons. apply not_elem_of_cons in Hx as [Hya Hx].
    rewrite Hf; [|right; left|done]. cbn. apply IH; [done|by inversion Hnd|].
    intros z Hz Hza. apply Hf; [|done].
    apply elem_of_cons in Hz as [->|Hz]; [left|right; by right].
  - rewrite Hf; [|left|done]. cbn. apply IH.
    + apply elem_of_cons in Hin as [->|Hin]; done.
    + intros z Hz Hza. apply Hf; [by right|done].
Qed.

Lemma bind_filter_pair {A} (P : A → A → bool) (a : A) (l : list A) :
  (l ≫= λ b, if P a b then [(a, b)] else []) = pair a <$> filter (λ b, Is_true (P a b)) l.
Proof.
  induction l as [|b l IH]; [done|]. rewrite bind_cons, IH, filter_cons.
  destruct (P a b); cbn.
  - by rewrite decide_True.
  - by rewrite decide_False by (by intros []).
Qed.

Lemma rage_from_eq (tw : Qc) (evs : list event) :
  rage_from tw evs
  = evs ≫= λ e1, pair e1 <$> filter (λ e2, Is_true (rage_on tw e1 e2)) evs.
Proof.
  unfold rage_from. apply list_bind_ext; [|done]. intros e1.
  apply (bind_filter_pair (rage_on tw)).
Qed.

Lemma window_clicks_eq (tw : Qc) (evs : list event) (e1 : event) :
  is_Some (element_selector e1) → event_type e1 = "click" →
  filter (λ e2, Is_true (rage_where (e1, e2)))
    (filter (λ e2, Is_true (rage_on tw e1 e2)) evs)
  = window_clicks tw evs e1.
Proof.
  intros [sel Hsel] Hc. rewrite list_filter_filter. apply list_filter_iff. intros e2.
  unfold rage_where, rage_on, is_click. cbn [fst snd]. rewrite Hsel. split.
  - intros [Hw Hon].
    apply andb_prop_elim in Hw as [Hw _]. apply andb_prop_elim in Hw as [_ Hc2].
    apply andb_prop_elim in Hon as [Hon Hhi]. apply andb_prop_elim in Hon as [Hon Hlo].
    apply andb_prop_elim in Hon as [Hs Hse].
    apply bool_decide_unpack in Hc2, Hhi, Hlo, Hs.
    destruct (element_selector e2) as [sel2|]; [|done].
    apply bool_decide_unpack in Hse. subst. done.
  - intros (Hc2 & Hs & Hse & Hlo & Hhi). rewrite Hse. split.
    + repeat (apply andb_prop_intro; split); apply bool_decide_pack;
        (done || by eexists).
    + repeat (apply andb_prop_intro; split); apply bool_decide_pack; done.
Qed.

Lemma self_in_window (tw : Qc) (evs : list event) (e : event) :
  (0 ≤ tw)%Qc → e ∈ evs → event_type e = "click" → e ∈ window_clicks tw evs e.
Proof.
  intros Htw He Hc. apply list_elem_of_filter. split; [|done].
  split_and!; try done.
  rewrite <- (Qcplus_0_r (Qc_of_Z (timestamp e))) at 1.
  by apply Qcplus_le_mono_l.
Qed.

Lemma filter_none {A} (P : A → Prop) `{∀ x, Decision (P x)} (l : list A) :
  (∀ x, x ∈ l → ¬ P x) → filter P l = [].
Proof.
  induction l as [|x l IH]; intros Hl; [done|].
  rewrite filter_cons_False by (apply Hl; left). apply IH. intros y Hy. apply Hl. by right.
Qed.

Lemma rage_from_elem (tw : Qc) (evs : list event) (a b : event) :
  (a, b) ∈ rage_from tw evs ↔ a ∈ evs ∧ b ∈ evs ∧ Is_true (rage_on tw a b).
Proof.
  rewrite rage_from_eq, list_elem_of_bind. split.
  - intros (e1 & Hp & He1). apply list_elem_of_fmap in Hp as (e2 & [= -> ->] & He2).
    apply list_elem_of_filter in He2 as [Hon He2]. done.
  - intros (Ha & Hb & Hon). exists a. split; [|done].
    apply list_elem_of_fmap. exists b. split; [done|]. by apply list_elem_of_filter.
Qed.

(** *** The detector off doubled timestamps *)

Section rage_agreement.
Context (tw cw : Qc) (evs : list event).
Hypothesis Hnodup : NoDup evs.
Hypothesis Hdistinct : distinct_click_times evs.
Hypothesis Htw : (0 ≤ tw)%Qc.

Lemma rage_group (e1 : event) :
  e1 ∈ evs → event_type e1 = "click" → is_Some (element_selector e1) →
  filter (λ p, rage_key p = rage_key (e1, e1))
    (filter (λ p, Is_true (rage_where p)) (rage_from tw evs))
  = pair e1 <$> window_clicks tw evs e1.
Proof.
  intros He1 Hc Hsel. rewrite rage_from_eq, !filter_bind.
  rewrite (bind_only_at _ evs e1 Hnodup He1).
  - rewrite !filter_fmap. f_equal.
    rewrite list_filter_filter_r by done. by apply window_clicks_eq.
  - intros x Hx Hne. rewrite !filter_fmap.
    rewrite filter_none; [done|]. intros b Hb.
    apply list_elem_of_filter in Hb as [Hw Hb].
    unfold rage_key. cbn [fst]. intros [= Hs Hse Ht]. apply Hne.
    unfold rage_where, is_click in Hw. cbn [fst snd] in Hw.
    apply andb_prop_elim in Hw as [Hw _]. apply andb_prop_elim in Hw as [Hcx _].
    apply bool_decide_unpack in Hcx. by apply Hdistinct.
Qed.

Lemma rapid_sequences_elem (r : rapid_sequence) :
  r ∈ rapid_sequences tw cw evs
  ↔ ∃ e, e ∈ evs ∧ event_type e = "click" ∧ is_Some (element_selector e)
      ∧ (cw ≤ Qc_of_nat (length (window_clicks tw evs e)))%Qc
      ∧ r = rapid_sequence_of tw evs e.
Proof.
  assert (∀ e, e ∈ evs → event_type e = "click" → is_Some (element_selector e) →
            rage_select (rage_key (e, e),
                         filter (λ p, rage_key p = rage_key (e, e))
                           (filter (λ p, Is_true (rage_where p)) (rage_from tw evs)))
            = rapid_sequence_of tw evs e) as Hsel.
  { intros e He Hc Hs. rewrite (rage_group e He Hc Hs).
    unfold rage_select, rapid_sequence_of, rage_key. cbn [fst snd].
    rewrite length_fmap. f_equal.
    pose proof (self_in_window tw evs e Htw He Hc) as Hin.
    by destruct (window_clicks tw evs e); [apply elem_of_nil in Hin|]. }
  unfold rapid_sequences. rewrite list_elem_of_filter, list_elem_of_fmap. split.
  - intros [Hh ([k g] & -> & [Hk ->]%elem_of_group_by)].
    apply list_elem_of_fmap in Hk as ([a b] & -> & Hp).
    apply list_elem_of_filter in Hp as [Hw Hp].
    apply rage_from_elem in Hp as (Ha & Hb & Hon).
    unfold rage_where, is_click in Hw. cbn [fst snd] in Hw.
    apply andb_prop_elim in Hw as [Hw Hs]. apply andb_prop_elim in Hw as [Hc _].
    apply bool_decide_unpack in Hc, Hs.
    change (rage_key (a, b)) with (rage_key (a, a)) in Hh |- *.
    rewrite (Hsel a Ha Hc Hs) in Hh |- *. exists a. done.
  - intros (e & He & Hc & Hs & Hq & ->). rewrite <- (Hsel e He Hc Hs). split.
    + rewrite (Hsel e He Hc Hs). done.
    + exists (rage_key (e, e),
              filter (λ p, rage_key p = rage_key (e, e))
                (filter (λ p, Is_true (rage_where p)) (rage_from tw evs))).
      split; [done|]. apply elem_of_group_by. split; [|done].
      apply list_elem_of_fmap. exists (e, e). split; [done|].
      apply list_elem_of_filter. split.
      * unfold rage_where, is_click. cbn [fst snd].
        repeat (apply andb_prop_intro; split); by apply bool_decide_pack.
      * apply rage_from_elem. split; [done|]. split; [done|].
        pose proof (self_in_window tw evs e Htw He Hc) as Hin.
        rewrite <- (window_clicks_eq tw evs e Hs Hc) in Hin.
        by apply list_elem_of_filter in Hin as [_ [? _]%list_elem_of_filter].
Qed.

Lemma rage_sessions_elem (page sel sess : string) :
  sess ∈ rage_sessions tw cw evs page sel
  ↔ ∃ e, e ∈ evs ∧ qualifying tw cw evs e ∧ page_url e = page
      ∧ element_selector e = Some sel ∧ session_id e = sess.
Proof.
  unfold rage_sessions. rewrite elem_of_remove_dups, list_elem_of_fmap. split.
  - intros (e & -> & [(Hq & Hp & Hs) He]%list_elem_of_filter). by exists e.
  - intros (e & He & Hq & Hp & Hs & <-). exists e. split; [done|].
    by apply list_elem_of_filter.
Qed.

Lemma rage_click_sessions_eq :
  rage_click_sessions tw cw evs
  = (λ k : string * option string * string,
       RageClickSession k.1.1 k.1.2 k.2
         (length (filter (λ r, (rs_session_id r, rs_element_selector r, rs_page_url r) = k)
                    (rapid_sequences tw cw evs))))
    <$> remove_dups ((λ r, (rs_session_id r, rs_element_selector r, rs_page_url r))
                       <$> rapid_sequences tw cw evs).
Proof. unfold rage_click_sessions, group_by. by rewrite <- list_fmap_compose. Qed.

Lemma affected_sessions_eq (page sel : string) :
  length (filter (λ s, (rcs_element_selector s, rcs_page_url s) = (Some sel, page))
            (rage_click_sessions tw cw evs))
  = length (rage_sessions tw cw evs page sel).
Proof.
  rewrite rage_click_sessions_eq, filter_fmap, length_fmap. cbn [rcs_element_selector rcs_page_url].
  rewrite (remove_dups_filter (λ k : string * option string * string,
                                 (k.1.2, k.2) = (Some sel, page))).
  rewrite <- (length_fmap (λ s : string, (s, Some sel, page))
                (rage_sessions tw cw evs page sel)).
  apply Permutation_length, NoDup_Permutation.
  - apply NoDup_remove_dups.
  - apply NoDup_fmap_2; [by intros s1 s2 [= ->]|apply NoDup_remove_dups].
  - intros [[s osel] pg]. rewrite elem_of_remove_dups, list_elem_of_filter.
    rewrite !list_elem_of_fmap. cbn [fst snd]. split.
    + intros [[= -> ->] (r & [= -> Hsel Hpage] & Hr)].
      apply rapid_sequences_elem in Hr as (e & He & Hc & Hs & Hq & ->).
      cbn in Hsel, Hpage |- *. exists (session_id e). split; [done|].
      apply rage_sessions_elem. exists e. by split_and!.
    + intros (sess & [= -> -> ->] & (e & He & [Hc Hq] & Hp & Hs & <-)%rage_sessions_elem).
      split; [done|]. exists (rapid_sequence_of tw evs e). split.
      * unfold rapid_sequence_of. cbn. by rewrite Hs, Hp.
      * apply rapid_sequences_elem. exists e. split_and!; (done || by eexists).
Qed.

Lemma rage_rows (mo : Qc) (page sel : string) :
  (∃ row, row ∈ rage_clicks_query tw cw mo evs
          ∧ rg_page_url row = page ∧ rg_element_selector row = Some sel)
  ↔ rage_sessions tw cw evs page sel ≠ []
    ∧ rage_flagged_spec tw cw mo evs page sel.
Proof.
  unfold rage_clicks_query, rage_flagged_spec. split.
  - intros (row & [Hh ([osel pg] & Hk & ->)]%elem_of_grouped & Hp & Hs).
    cbn in Hp, Hs, Hh. subst.
    rewrite affected_sessions_eq in Hh. split; [|done].
    apply list_elem_of_fmap in Hk as (s & Hks & Hin).
    intros Hnil.
    assert (s ∈ filter (λ s, (rcs_element_selector s, rcs_page_url s) = (Some sel, page))
                  (rage_click_sessions tw cw evs)) as Hf by (by apply list_elem_of_filter).
    pose proof (affected_sessions_eq page sel) as Hlen. rewrite Hnil in Hlen.
    apply nil_length_inv in Hlen. rewrite Hlen in Hf. by apply elem_of_nil in Hf.
  - intros [Hne Hm].
    pose proof (affected_sessions_eq page sel) as Hlen.
    destruct (filter (λ s, (rcs_element_selector s, rcs_page_url s) = (Some sel, page))
                (rage_click_sessions tw cw evs)) as [|s rest] eqn:Hf.
    { symmetry in Hlen. by apply nil_length_inv in Hlen. }
    assert (s ∈ filter (λ s, (rcs_element_selector s, rcs_page_url s) = (Some sel, page))
                  (rage_click_sessions tw cw evs)) as Hs by (rewrite Hf; left).
    apply list_elem_of_filter in Hs as [Hks Hs].
    exists (rage_row_select ((Some sel, page), s :: rest)). split; [|done].
    apply elem_of_grouped. split.
    + cbn [rage_row_select rg_affected_sessions fst snd]. by rewrite Hlen.
    + exists (Some sel, page). split; [|by rewrite Hf].
      apply list_elem_of_fmap. by exists s.
Qed.

End rage_agreement.

(** Off doubled timestamps the detector is the one the specification
    words: when the rows are distinct, no two clicks of a session on a
    selector share a timestamp and the window is not negative, a (page,
    selector) pair is flagged exactly when it has a rage session and the
    number of its rage sessions is at least [minOccurrences]. *)
Lemma rage_clicks_agree (this : RulesEngine) (w : World) (r : rule)
    (clicksInWindow timeWindow minOccurrences : Qc) :
  rules this !! "rageClicks" = Some r →
  thresholds r !! "clicksInWindow" = Some (TNum clicksInWindow) →
  thresholds r !! "timeWindow" = Some (TNum timeWindow) →
  thresholds r !! "minOccurrences" = Some (TNum minOccurrences) →
  read_error (db this) QRageClicks = None →
  NoDup (events (db this)) → distinct_click_times (events (db this)) →
  (0 ≤ timeWindow)%Qc →
  ∃ l, analyzeRageClicks this w = Resolved l
    ∧ ∀ page sel,
        flags_pair l page sel
        ↔ rage_sessions timeWindow clicksInWindow (events (db this)) page sel ≠ []
          ∧ rage_flagged_spec timeWindow clicksInWindow minOccurrences
              (events (db this)) page sel.
Proof.
  intros Hr Hc Ht Hm He Hnd Hd Htw.
  eexists. split; [by eapply analyzeRageClicks_run|]. intros page sel.
  rewrite (flags_pair_imap _ _ rg_page_url rg_element_selector); [|done].
  by apply rage_rows.
Qed.

(** C10. The windowed count of a click takes in the clicks of the same
    session on the same selector on any page.  In [cross_page_clicks] each
    session clicks [button.next] twice on /cart and once on /checkout within
    the window: no session has three clicks on either page, the first click
    of each session counts three clicks in its window, and (/cart,
    button.next) is flagged with the default thresholds. *)
Theorem rage_window_spans_pages (w : World) :
  (∀ tw e1 e2 p1 p2,
     rage_on tw (relocate p1 e1) (relocate p2 e2) = rage_on tw e1 e2
     ∧ rage_where (relocate p1 e1, relocate p2 e2) = rage_where (e1, e2))
  ∧ Forall (λ sp : string * string,
              length (filter (λ e, session_id e = sp.1 ∧ page_url e = sp.2)
                        cross_page_clicks) < 3)%nat
       [("s1", "/cart"); ("s1", "/checkout"); ("s2", "/cart"); ("s2", "/checkout")]
  ∧ Forall (λ e, session_id e ∈ ["s1"; "s2"] ∧ page_url e ∈ ["/cart"; "/checkout"])
       cross_page_clicks
  ∧ (λ r, (rs_session_id r, rs_page_url r, rs_timestamp r, rs_clicks_in_window r))
      <$> rapid_sequences (Qc_of_Z 2000) (Qc_of_Z 3) cross_page_clicks
    = [("s1", "/cart", 0%Z, 3%nat); ("s2", "/cart", 10000%Z, 3%nat)]
  ∧ ∃ l, analyzeRageClicks (new_RulesEngine (store_of cross_page_clicks)) w = Resolved l
      ∧ flags_pair l "/cart" "button.next".
Proof.
  split; [intros; apply rage_join_ignores_page|].
  split; [apply (bool_decide_unpack _); by vm_compute|].
  split; [apply (bool_decide_unpack _); by vm_compute|].
  split; [by vm_compute|].
  eexists. split; [by apply analyzeRageClicks_default|].
  apply (flags_pair_imap _ _ rg_page_url rg_element_selector); [done|].
  cbn [events store_of].
  assert (∃ row, head (rage_clicks_query (Qc_of_Z 2000) (Qc_of_Z 3) (Qc_of_Z 2)
                         cross_page_clicks) = Some row
                 ∧ rg_page_url row = "/cart"
                 ∧ rg_element_selector row = Some "button.next") as (row & Hh & Hp & Hs).
  { eexists. split; [by vm_compute|]. by split. }
  exists row. split; [|done].
  destruct (rage_clicks_query _ _ _ _) as [|row' rows]; [done|].
  cbn in Hh. simplify_eq. left.
Qed.

(** C2, at doubled timestamps.  In [doubled_clicks] each of two sessions
    clicks the button twice in one millisecond: every click has two clicks
    in its window, under three, so no session is a rage session and the
    pair is not to be flagged; the query counts the four joined rows of the
    two clicks as [clicks_in_window] and the pair is flagged. *)
Theorem rage_clicks_doubled_timestamps (w : World) :
  Forall (λ e, length (window_clicks (Qc_of_Z 2000) doubled_clicks e) = 2%nat)
    doubled_clicks
  ∧ rage_sessions (Qc_of_Z 2000) (Qc_of_Z 3) doubled_clicks "/p" "button.buy" = []
  ∧ ¬ rage_flagged_spec (Qc_of_Z 2000) (Qc_of_Z 3) (Qc_of_Z 2) doubled_clicks
        "/p" "button.buy"
  ∧ rs_clicks_in_window
      <$> (rage_select <$> group_by rage_key
             (filter (λ p, Is_true (rage_where p))
                (rage_from (Qc_of_Z 2000) doubled_clicks)))
    = [4%nat; 4%nat]
  ∧ ∃ l, analyzeRageClicks (new_RulesEngine (store_of doubled_clicks)) w = Resolved l
      ∧ flags_pair l "/p" "button.buy".
Proof.
  split; [apply (bool_decide_unpack _); by vm_compute|].
  split; [by vm_compute|].
  split; [refine (proj1 (bool_decide_eq_false _) _); by vm_compute|].
  split; [by vm_compute|].
  eexists. split; [by apply analyzeRageClicks_default|].
  apply (flags_pair_imap _ _ rg_page_url rg_element_selector); [done|].
  cbn [events store_of].
  assert (∃ row, head (rage_clicks_query (Qc_of_Z 2000) (Qc_of_Z 3) (Qc_of_Z 2)
                         doubled_clicks) = Some row
                 ∧ rg_page_url row = "/p"
                 ∧ rg_element_selector row = Some "button.buy") as (row & Hh & Hp & Hs).
  { eexists. split; [by vm_compute|]. by split. }
  exists row. split; [|done].
  destruct (rage_clicks_query _ _ _ _) as [|row' rows]; [done|].
  cbn in Hh. simplify_eq. left.
Qed.

(** ** Dead clicks *)

Lemma analyzeDeadClicks_run (this : RulesEngine) (w : World) (r : rule)
    (minClicks : Qc) (sels : list string) :
  rules this !! "deadClicks" = Some r →
  thresholds r !! "minClicksOnNonInteractive" = Some (TNum minClicks) →
  thresholds r !! "nonInteractiveSelectors" = Some (TList sels) →
  sels ≠ [] →
  read_error (db this) QDeadClicks = None →
  analyzeDeadClicks this w
  = Resolved (imap (dead_issue w r) (dead_clicks_query sels minClicks (events (db this)))).
Proof.
  intros Hr Hm Hs Hne He.
  unfold analyzeDeadClicks, rule_of, num_threshold, list_threshold, db_all.
  rewrite (js_get_own _ _ _ Hr). cbn.
  rewrite (js_get_own _ _ _ Hm). cbn.
  rewrite (js_get_own _ _ _ Hs). cbn.
  destruct sels; [done|]. by rewrite He.
Qed.

Lemma dead_group (evs : list event) (page sel : string) :
  Is_true (whitelist_like sel) →
  filter (λ e, (element_selector e, page_url e) = (Some sel, page))
    (filter (λ e, Is_true (dead_where nonInteractiveSelectors_default e)) evs)
  = selector_clicks evs page sel.
Proof.
  intros Hw. rewrite list_filter_filter. apply list_filter_iff. intros e.
  unfold dead_where, is_click. split.
  - intros [Hk Hd]. injection Hk as Hs Hp.
    apply andb_prop_elim in Hd as [Hc _]. apply bool_decide_unpack in Hc. done.
  - intros (Hc & Hp & Hs). split; [by rewrite Hs, Hp|].
    rewrite Hs. apply andb_prop_intro. split; [by apply bool_decide_pack|done].
Qed.

Lemma dead_clicks_rows (minClicks : Qc) (evs : list event) (page sel : string) :
  (∃ row, row ∈ dead_clicks_query nonInteractiveSelectors_default minClicks evs
          ∧ dc_page_url row = page ∧ dc_element_selector row = Some sel)
  ↔ Is_true (whitelist_like sel)
    ∧ selector_clicks evs page sel ≠ []
    ∧ (minClicks ≤ Qc_of_nat (length (selector_clicks evs page sel)))%Qc.
Proof.
  unfold dead_clicks_query. split.
  - intros (row & Hrow & Hp & Hs).
    apply elem_of_grouped in Hrow as [Hh ([ks kp] & Hk & ->)].
    cbn in Hp, Hs. subst.
    apply list_elem_of_fmap in Hk as (e & Hke & He).
    apply list_elem_of_filter in He as [Hd He]. injection Hke as Hes Hep.
    assert (Is_true (whitelist_like sel)) as Hw.
    { unfold dead_where in Hd. apply andb_prop_elim in Hd as [_ Hd].
      by rewrite <- Hes in Hd. }
    cbn in Hh. rewrite (dead_group _ _ _ Hw) in Hh.
    split_and!; [done| |done].
    intros Hnil. eapply (filter_nil_not_elem_of _ _ e Hnil); [|done].
    unfold dead_where, is_click in Hd. apply andb_prop_elim in Hd as [Hc _].
    apply bool_decide_unpack in Hc. done.
  - intros (Hw & Hne & Hm).
    destruct (selector_clicks evs page sel) as [|e rest] eqn:Hsc; [done|].
    assert (e ∈ selector_clicks evs page sel) as He by (rewrite Hsc; left).
    apply list_elem_of_filter in He as [(Hc & Hp & Hs) He].
    exists (dead_select ((Some sel, page),
              filter (λ e, (element_selector e, page_url e) = (Some sel, page))
                (filter (λ e, Is_true (dead_where nonInteractiveSelectors_default e)) evs))).
    split; [|done].
    apply elem_of_grouped. cbn. rewrite (dead_group _ _ _ Hw), Hsc.
    split; [done|]. exists (Some sel, page).
    split; [|by rewrite (dead_group _ _ _ Hw), Hsc].
    apply list_elem_of_fmap. exists e. split; [by rewrite Hs, Hp|].
    apply list_elem_of_filter. split; [|done].
    unfold dead_where, is_click. rewrite Hs.
    apply andb_prop_intro. split; [by apply bool_decide_pack|done].
Qed.

Lemma like_prefix_suffix (lit tag s1 s2 : string) :
  Is_true (no_punctuation lit) → selector_suffix s1 → selector_suffix s2 →
  like_prefix lit (tag +:+ s1) = like_prefix lit (tag +:+ s2).
Proof.
  revert tag. induction lit as [|c lit IH]; intros tag Hl H1 H2; [done|].
  cbn in Hl. apply andb_prop_elim in Hl as [Hc Hl].
  apply andb_prop_elim in Hc as [Hdot Hhash].
  apply negb_prop_elim in Hdot, Hhash.
  destruct tag as [|d tag].
  - change (like_prefix (String c lit) s1 = like_prefix (String c lit) s2).
    assert (∀ s, selector_suffix s → like_prefix (String c lit) s = false) as Hno.
    { intros s [->|[[s' ->]|[s' ->]]]; [done| |]; cbn.
      - destruct (bool_decide (ascii_lower c = ascii_lower ".")) eqn:Hd; [|done].
        exfalso. apply Hdot. apply bool_decide_eq_true in Hd.
        apply bool_decide_pack. by rewrite Hd.
      - destruct (bool_decide (ascii_lower c = ascii_lower "#")) eqn:Hd; [|done].
        exfalso. apply Hhash. apply bool_decide_eq_true in Hd.
        apply bool_decide_pack. by rewrite Hd. }
    by rewrite !Hno.
  - change (like_prefix (String c lit) (String d (tag +:+ s1))
            = like_prefix (String c lit) (String d (tag +:+ s2))).
    cbn [like_prefix]. f_equal. by apply IH.
Qed.

Lemma is_prefix_like_prefix (lit s : string) :
  is_prefix lit s = true → like_prefix lit s = true.
Proof.
  revert s. induction lit as [|c lit IH]; intros [|d s]; cbn; try done.
  intros [Hc Hp]%andb_true_iff. apply bool_decide_eq_true in Hc as ->.
  rewrite bool_decide_eq_true_2 by done. by apply IH.
Qed.

(** C3, as the query decides it.  With the whitelist of the constructor
    the detector flags a (page, selector) pair exactly when the selector
    starts with a whitelist entry up to ASCII case (the LIKE operator),
    the pair has a click, and the number of its clicks is at least
    [minClicksOnNonInteractive].  A class or id suffix after the tag does
    not change whether the whitelist matches, and every case-sensitive
    match is a match. *)
Theorem dead_clicks_flags (this : RulesEngine) (w : World) (r : rule) (minClicks : Qc) :
  rules this !! "deadClicks" = Some r →
  thresholds r !! "minClicksOnNonInteractive" = Some (TNum minClicks) →
  thresholds r !! "nonInteractiveSelectors" = Some (TList nonInteractiveSelectors_default) →
  read_error (db this) QDeadClicks = None →
  (∃ l, analyzeDeadClicks this w = Resolved l
     ∧ ∀ page sel,
         flags_pair l page sel
         ↔ Is_true (whitelist_like sel)
           ∧ selector_clicks (events (db this)) page sel ≠ []
           ∧ (minClicks
              ≤ Qc_of_nat (length (selector_clicks (events (db this)) page sel)))%Qc)
  ∧ (∀ tag s1 s2, selector_suffix s1 → selector_suffix s2 →
       whitelist_like (tag +:+ s1) = whitelist_like (tag +:+ s2))
  ∧ (∀ sel, Is_true (whitelist_case_sensitive sel) → Is_true (whitelist_like sel)).
Proof.
  intros Hr Hm Hs He. split; [|split].
  - eexists. split; [by eapply analyzeDeadClicks_run|].
    intros page sel.
    rewrite (flags_pair_imap _ _ dc_page_url dc_element_selector); [|done].
    apply dead_clicks_rows.
  - intros tag s1 s2 H1 H2. unfold whitelist_like, nonInteractiveSelectors_default.
    cbn [existsb].
    by rewrite !(like_prefix_suffix _ tag s1 s2) by done.
  - intros sel. unfold whitelist_case_sensitive, whitelist_like.
    rewrite !Is_true_true, !existsb_exists.
    intros (lit & Hin & Hp). exists lit. split; [done|]. by apply is_prefix_like_prefix.
Qed.

Lemma dead_clicks_flags_witness :
  ∃ l, analyzeDeadClicks (new_RulesEngine (store_of upper_case_clicks)) quiet_world
       = Resolved l
    ∧ flags_pair l "/home" "DIV.hero".
Proof.
  destruct (dead_clicks_flags (new_RulesEngine (store_of upper_case_clicks)) quiet_world
              deadClicks_rule (Qc_of_Z 5) eq_refl eq_refl eq_refl eq_refl)
    as [(l & Hrun & Hflags) _].
  exists l. split; [done|]. apply Hflags.
  split; [by vm_compute|]. split; [by vm_compute|].
  apply (bool_decide_unpack _). by vm_compute.
Defined.

(** C3 as stated fails on upper-case tags: five clicks on [DIV.hero] are
    flagged, although no whitelist entry is a case-sensitive prefix of the
    selector. *)
Lemma dead_clicks_case_counterexample :
  ¬ (∀ l page sel,
       analyzeDeadClicks (new_RulesEngine (store_of upper_case_clicks)) quiet_world
       = Resolved l →
       flags_pair l page sel
       ↔ dead_flagged_spec (Qc_of_Z 5) upper_case_clicks page sel).
Proof.
  intros Hclaim.
  pose proof (analyzeDeadClicks_run (new_RulesEngine (store_of upper_case_clicks))
                quiet_world _ (Qc_of_Z 5) nonInteractiveSelectors_default
                eq_refl eq_refl eq_refl ltac:(done) eq_refl) as Hrun.
  apply (Hclaim _ "/home" "DIV.hero") in Hrun as [Hcode _].
  destruct Hcode as [Hcase _]; [|by vm_compute in Hcase].
  apply (flags_pair_imap _ _ dc_page_url dc_element_selector); [done|].
  apply dead_clicks_rows.
  split; [by vm_compute|]. split; [by vm_compute|].
  apply (bool_decide_unpack _). by vm_compute.
Qed.

(** ** Low click rate *)

Lemma page_session_counts_eq (evs : list event) :
  page_session_counts evs
  = (λ p, (p, page_sessions evs p)) <$> remove_dups (page_url <$> evs).
Proof.
  unfold page_session_counts, group_by. by rewrite <- list_fmap_compose.
Qed.

Lemma bind_ext_in {A B} (f g : A → list B) (l : list A) :
  (∀ x, x ∈ l → f x = g x) → l ≫= f = l ≫= g.
Proof.
  induction l as [|x l IH]; intros Hfg; [done|].
  rewrite !bind_cons, Hfg by left. f_equal. apply IH.
  intros y Hy. apply Hfg. by right.
Qed.

Lemma bind_singleton_fmap {A B} (f : A → B) (l : list A) :
  l ≫= (λ x, [f x]) = f <$> l.
Proof. induction l as [|x l IH]; [done|]. rewrite bind_cons, IH. done. Qed.

Lemma join_on_key {K V B} `{EqDecision K} (c : K → V) (g : K * V → B) (k : K) (ks : list K) :
  NoDup ks → k ∈ ks →
  ((λ p, (p, c p)) <$> ks) ≫= (λ q, if bool_decide (q.1 = k) then [g q] else [])
  = [g (k, c k)].
Proof.
  intros Hnd Hin. induction Hnd as [|x ks Hx Hnd IH]; [by apply elem_of_nil in Hin|].
  cbn [fmap list_fmap]. rewrite bind_cons. cbn [fst].
  destruct (decide (x = k)) as [->|Hne].
  - rewrite bool_decide_eq_true_2 by done.
    assert (((λ p, (p, c p)) <$> ks) ≫= (λ q, if bool_decide (q.1 = k) then [g q] else [])
            = []) as ->; [|done].
    clear -Hx. induction ks as [|y ks IH]; [done|].
    cbn [fmap list_fmap]. rewrite bind_cons. cbn [fst].
    apply not_elem_of_cons in Hx as [Hne Hx].
    rewrite bool_decide_eq_false_2 by done. by apply IH.
  - rewrite bool_decide_eq_false_2 by done. cbn.
    apply IH. apply elem_of_cons in Hin as [->|Hin]; [done|done].
Qed.

Lemma lcr_from_eq (evs : list event) :
  lcr_from evs = (λ e, (e, (page_url e, page_sessions evs (page_url e)))) <$> evs.
Proof.
  rewrite <- (bind_singleton_fmap
                (λ e, (e, (page_url e, page_sessions evs (page_url e)))) evs).
  unfold lcr_from. rewrite page_session_counts_eq.
  apply bind_ext_in. intros e He.
  apply (join_on_key (page_sessions evs) (λ q, (e, q))).
  - apply NoDup_remove_dups.
  - apply elem_of_remove_dups. apply list_elem_of_fmap. by exists e.
Qed.

Lemma Qc_of_nat_eq_0 (n : nat) : Qc_of_nat n = 0%Qc ↔ n = 0%nat.
Proof.
  unfold Qc_of_nat. rewrite <- Z2Qc_inj_0, Z2Qc_inj_iff. lia.
Qed.

Lemma count_distinct_pos {A K} `{EqDecision K} (key : A → K) (l : list A) (a : A) :
  a ∈ l → (1 ≤ count_distinct key l)%nat.
Proof.
  intros Ha. unfold count_distinct.
  assert (key a ∈ remove_dups (key <$> l)) as Hin.
  { apply elem_of_remove_dups, list_elem_of_fmap. by exists a. }
  destruct (remove_dups (key <$> l)); [by apply elem_of_nil in Hin|cbn; lia].
Qed.

Lemma page_sessions_pos (evs : list event) (e : event) :
  e ∈ evs → (1 ≤ page_sessions evs (page_url e))%nat.
Proof.
  intros He. unfold page_sessions. apply (count_distinct_pos _ _ e).
  by apply list_elem_of_filter.
Qed.

Lemma lcr_group (evs : list event) (page sel : string) :
  sel ≠ EmptyString →
  filter (λ ep, lcr_key ep = (Some sel, page, page_sessions evs page))
    (filter (λ ep, Is_true (lcr_where ep)) (lcr_from evs))
  = lcr_pair evs <$> selector_clicks evs page sel.
Proof.
  intros Hsel. rewrite lcr_from_eq.
  change (λ e, (e, (page_url e, page_sessions evs (page_url e)))) with (lcr_pair evs).
  rewrite !filter_fmap, list_filter_filter. f_equal.
  apply list_filter_iff. intros e. unfold lcr_key, lcr_where, lcr_pair, is_click. cbn.
  split.
  - intros [Hk Hw]. injection Hk as Hs Hp _.
    apply andb_prop_elim in Hw as [Hw _]. apply andb_prop_elim in Hw as [Hc _].
    apply bool_decide_unpack in Hc. done.
  - intros (Hc & Hp & Hs). split; [by rewrite Hs, Hp|].
    rewrite Hs. repeat (apply andb_prop_intro; split); apply bool_decide_pack;
      [done|by eexists|congruence].
Qed.

Lemma lcr_select_group (evs : list event) (page sel : string) (e : event) :
  e ∈ selector_clicks evs page sel →
  lcr_select ((Some sel, page, page_sessions evs page),
              lcr_pair evs <$> selector_clicks evs page sel)
  = lcr_row_of evs page sel.
Proof.
  intros He. unfold lcr_select, lcr_row_of. cbn [fst snd].
  rewrite length_fmap. unfold count_distinct at 1 2.
  rewrite <- !list_fmap_compose.
  change (length (remove_dups ((λ ep : event * (string * nat), session_id ep.1) ∘ lcr_pair evs
                                <$> selector_clicks evs page sel)))
    with (clicking_sessions evs page sel).
  f_equal. unfold sql_div, click_rate.
  apply list_elem_of_filter in He as [(_ & Hp & _) He].
  pose proof (page_sessions_pos evs e He) as Hpos. rewrite Hp in Hpos.
  rewrite decide_False; [done|]. rewrite Qc_of_nat_eq_0. lia.
Qed.

Lemma lcr_rows (minPageViews minClickRate : Qc) (evs : list event) (row : lcr_row) :
  row ∈ low_click_rate_query minPageViews minClickRate evs
  ↔ ∃ page sel,
      sel ≠ EmptyString ∧ selector_clicks evs page sel ≠ []
      ∧ row = lcr_row_of evs page sel
      ∧ (minPageViews ≤ Qc_of_nat (page_sessions evs page))%Qc
      ∧ (click_rate evs page sel < minClickRate)%Qc.
Proof.
  unfold low_click_rate_query. rewrite elem_of_grouped. split.
  - intros [Hh (k & Hk & ->)].
    apply list_elem_of_fmap in Hk as (ep & -> & Hep).
    apply list_elem_of_filter in Hep as [Hw Hep].
    rewrite lcr_from_eq in Hep. apply list_elem_of_fmap in Hep as (e & -> & He).
    unfold lcr_where in Hw. cbn [fst] in Hw.
    apply andb_prop_elim in Hw as [Hw Hne]. apply andb_prop_elim in Hw as [Hc Hs].
    apply bool_decide_unpack in Hc, Hs, Hne. destruct Hs as [sel Hs].
    assert (sel ≠ EmptyString) as Hsel by congruence.
    assert (e ∈ selector_clicks evs (page_url e) sel) as Hin.
    { apply list_elem_of_filter. unfold is_click in Hc. done. }
    exists (page_url e), sel.
    assert (lcr_key (e, (page_url e, page_sessions evs (page_url e)))
            = (Some sel, page_url e, page_sessions evs (page_url e))) as Hkey.
    { unfold lcr_key. cbn. by rewrite Hs. }
    rewrite Hkey in Hh |- *.
    rewrite (lcr_group _ _ _ Hsel), (lcr_select_group _ _ _ e Hin) in Hh |- *.
    split; [done|]. split; [intros Hnil; rewrite Hnil in Hin; by apply elem_of_nil in Hin|].
    split; [done|].
    unfold lcr_having, lcr_row_of in Hh. cbn in Hh.
    apply andb_prop_elim in Hh as [H1 H2]. apply bool_decide_unpack in H1, H2. done.
  - intros (page & sel & Hsel & Hne & -> & Hpv & Hcr).
    destruct (selector_clicks evs page sel) as [|e rest] eqn:Hsc; [done|].
    assert (e ∈ selector_clicks evs page sel) as Hin by (rewrite Hsc; left).
    pose proof Hin as Hin'.
    apply list_elem_of_filter in Hin' as [(Hc & Hp & Hs) He].
    split.
    + unfold lcr_having, lcr_row_of. cbn.
      apply andb_prop_intro. split; by apply bool_decide_pack.
    + exists (Some sel, page, page_sessions evs page). split.
      * apply list_elem_of_fmap. exists (lcr_pair evs e). split.
        { unfold lcr_key, lcr_pair. cbn. by rewrite Hs, Hp. }
        apply list_elem_of_filter. split.
        { unfold lcr_where, lcr_pair, is_click. cbn. rewrite Hs.
          repeat (apply andb_prop_intro; split); apply bool_decide_pack;
            [done|by eexists|congruence]. }
        rewrite lcr_from_eq. apply list_elem_of_fmap. by exists e.
      * rewrite (lcr_group _ _ _ Hsel). by rewrite (lcr_select_group _ _ _ e Hin).
Qed.

Lemma analyzeLowClickRate_run (this : RulesEngine) (w : World) (r : rule)
    (minClickRate minPageViews : Qc) :
  rules this !! "lowClickRate" = Some r →
  thresholds r !! "minClickRate" = Some (TNum minClickRate) →
  thresholds r !! "minPageViews" = Some (TNum minPageViews) →
  read_error (db this) QLowClickRate = None →
  analyzeLowClickRate this w
  = Resolved (imap (lcr_issue w r)
                (low_click_rate_query minPageViews minClickRate (events (db this)))).
Proof.
  intros Hr Hc Hp He.
  unfold analyzeLowClickRate, rule_of, num_threshold, db_all.
  rewrite (js_get_own _ _ _ Hr). cbn.
  rewrite (js_get_own _ _ _ Hc). cbn.
  rewrite (js_get_own _ _ _ Hp). cbn.
  by rewrite He.
Qed.

Lemma Qc_not_le_pred (x : Qc) : ¬ (x ≤ x - 1)%Qc.
Proof.
  intros H. apply Qcle_minus_iff in H.
  replace (x - 1 + - x)%Qc with (- (1))%Qc in H by ring.
  by apply Qcle_not_lt in H.
Qed.

(** What the detector flags, in the measures of the specification: the
    pairs that have a click on a non-empty selector, on a page with enough
    sessions, with a click rate under the bar. *)
Lemma low_click_rate_pairs (w : World) (r : rule) (minClickRate minPageViews : Qc)
    (evs : list event) (page sel : string) :
  flags_pair (imap (lcr_issue w r)
                (low_click_rate_query minPageViews minClickRate evs)) page sel
  ↔ sel ≠ EmptyString ∧ selector_clicks evs page sel ≠ []
    ∧ (minPageViews ≤ Qc_of_nat (page_sessions evs page))%Qc
    ∧ (click_rate evs page sel < minClickRate)%Qc.
Proof.
  rewrite (flags_pair_imap _ _ lcr_page_url lcr_element_selector); [|done].
  split.
  - intros (row & (page' & sel' & Hsel & Hne & -> & Hpv & Hcr)%lcr_rows & Hpage & Hs).
    cbn in Hpage, Hs. by simplify_eq.
  - intros (Hsel & Hne & Hpv & Hcr). exists (lcr_row_of evs page sel).
    split; [|done]. apply lcr_rows. by exists page, sel.
Qed.

(** C4, as the query decides it.  For a (page, selector) pair with a
    click on a non-empty selector, the detector flags the pair exactly when
    the number of distinct sessions on the page is at least [minPageViews]
    and the click rate, distinct clicking sessions over distinct sessions
    on the page, is below [minClickRate]; no other pair is flagged.  Every
    flagged pair has at least one session on its page, so its rate is a
    quotient by a non-zero count and is the rate reported in the metrics; a
    page with [minPageViews - 1] sessions is never flagged. *)
Theorem low_click_rate_flags (this : RulesEngine) (w : World) (r : rule)
    (minClickRate minPageViews : Qc) :
  rules this !! "lowClickRate" = Some r →
  thresholds r !! "minClickRate" = Some (TNum minClickRate) →
  thresholds r !! "minPageViews" = Some (TNum minPageViews) →
  read_error (db this) QLowClickRate = None →
  ∃ l, analyzeLowClickRate this w = Resolved l
    ∧ (∀ page sel,
         sel ≠ EmptyString → selector_clicks (events (db this)) page sel ≠ [] →
         flags_pair l page sel
         ↔ (minPageViews ≤ Qc_of_nat (page_sessions (events (db this)) page))%Qc
           ∧ (click_rate (events (db this)) page sel < minClickRate)%Qc)
    ∧ (∀ page sel,
         flags_pair l page sel →
         sel ≠ EmptyString ∧ selector_clicks (events (db this)) page sel ≠ []
         ∧ (1 ≤ page_sessions (events (db this)) page)%nat)
    ∧ (∀ page sel,
         Qc_of_nat (page_sessions (events (db this)) page) = (minPageViews - 1)%Qc →
         ¬ flags_pair l page sel)
    ∧ (∀ i, i ∈ l →
         ∃ sel, elementSelector i = Some sel
           ∧ metrics i
             = [("clickRate", Some (click_rate (events (db this)) (pageUrl i) sel));
                ("clicks",
                 Some (Qc_of_nat (length (selector_clicks (events (db this)) (pageUrl i) sel))));
                ("uniqueSessions",
                 Some (Qc_of_nat (clicking_sessions (events (db this)) (pageUrl i) sel)));
                ("pageSessions",
                 Some (Qc_of_nat (page_sessions (events (db this)) (pageUrl i))))]).
Proof.
  intros Hr Hc Hp He. eexists. split; [by eapply analyzeLowClickRate_run|].
  set (evs := events (db this)).
  pose proof (low_click_rate_pairs w r minClickRate minPageViews evs) as Hflag.
  split_and!.
  - intros page sel Hsel Hne. rewrite Hflag.
    split; [by intros (_ & _ & ? & ?)|by intros [? ?]].
  - intros page sel (Hsel & Hne & _ & _)%Hflag. split_and!; [done|done|].
    destruct (selector_clicks evs page sel) as [|e rest] eqn:Hsc; [done|].
    assert (e ∈ selector_clicks evs page sel) as Hin by (rewrite Hsc; left).
    apply list_elem_of_filter in Hin as [(_ & <- & _) Hin].
    by apply page_sessions_pos.
  - intros page sel Hb (_ & _ & Hpv & _)%Hflag. rewrite Hb in Hpv.
    by apply Qc_not_le_pred in Hpv.
  - intros i (n & row & Hrow & ->)%elem_of_imap.
    apply list_elem_of_lookup_2 in Hrow.
    apply lcr_rows in Hrow as (page & sel & _ & _ & -> & _ & _).
    by exists sel.
Qed.

(** C4 as stated fails on the empty selector: in [empty_selector_events]
    twenty-five sessions view the page and one of them clicks an element
    recorded with the selector [''], so the page has enough sessions and
    the rate 1/25 is below the bar, yet the pair is not flagged: the query
    leaves out the empty selector. *)
Lemma low_click_rate_empty_selector_counterexample :
  ¬ (∀ l page sel,
       analyzeLowClickRate (new_RulesEngine (store_of empty_selector_events)) quiet_world
       = Resolved l →
       flags_pair l page sel
       ↔ (Qc_of_Z 10 ≤ Qc_of_nat (page_sessions empty_selector_events page))%Qc
         ∧ (click_rate empty_selector_events page sel < dec 5 100)%Qc).
Proof.
  intros Hclaim.
  pose proof (analyzeLowClickRate_run (new_RulesEngine (store_of empty_selector_events))
                quiet_world lowClickRate_rule (dec 5 100) (Qc_of_Z 10)
                eq_refl eq_refl eq_refl eq_refl) as Hrun.
  apply (Hclaim _ "/landing-page" EmptyString) in Hrun as [_ Hflag].
  destruct Hflag as (i & Hi & Hp & Hs).
  { split; apply (bool_decide_unpack _); by vm_compute. }
  assert (flags_pair (imap (lcr_issue quiet_world lowClickRate_rule)
                        (low_click_rate_query (Qc_of_Z 10) (dec 5 100)
                           empty_selector_events)) "/landing-page" EmptyString)
    as Hpair by (by exists i).
  by apply low_click_rate_pairs in Hpair as [Hsel _].
Qed.

Lemma low_click_rate_flags_witness :
  ∃ l, analyzeLowClickRate (new_RulesEngine (store_of landing_page_events)) quiet_world
       = Resolved l
    ∧ flags_pair l "/landing-page" "button.cta-primary"
    ∧ click_rate landing_page_events "/landing-page" "button.cta-primary" = dec 4 100.
Proof.
  destruct (low_click_rate_flags (new_RulesEngine (store_of landing_page_events))
              quiet_world lowClickRate_rule (dec 5 100) (Qc_of_Z 10)
              eq_refl eq_refl eq_refl eq_refl) as (l & Hrun & Hflag & _).
  exists l. split; [done|]. split.
  - apply Hflag; [done|by vm_compute|].
    split; apply (bool_decide_unpack _); by vm_compute.
  - apply (bool_decide_unpack _). by vm_compute.
Defined.

(** ** High exit rate *)

Lemma fmap_ext_in {A B} (f g : A → B) (l : list A) :
  (∀ x, x ∈ l → f x = g x) → f <$> l = g <$> l.
Proof.
  induction l as [|x l IH]; intros Hfg; [done|].
  cbn. rewrite Hfg by left. f_equal. apply IH. intros y Hy. apply Hfg. by right.
Qed.

Lemma session_durations_eq (evs : list event) :
  session_durations evs
  = (λ k : string * string, duration_of evs k.1 k.2)
      <$> remove_dups ((λ e, (page_url e, session_id e)) <$> evs).
Proof.
  unfold session_durations, group_by. rewrite <- list_fmap_compose.
  apply fmap_ext_in. intros [page sess] _. cbn. unfold duration_of, duration. 
  assert (filter (λ a : event, (page_url a, session_id a) = (page, sess)) evs
          = session_events evs page sess) as ->; [|done].
  apply list_filter_iff. intros e. split; [by intros [= -> ->]|by intros [-> ->]].
Qed.

Lemma exit_group (evs : list event) (page : string) :
  filter (λ d, sd_page_url d = page) (session_durations evs)
  = duration_of evs page <$> sessions_on evs page.
Proof.
  rewrite session_durations_eq, filter_fmap. cbn [duration_of sd_page_url].
  rewrite (remove_dups_filter (λ k : string * string, k.1 = page)), filter_fmap.
  cbn [fst].
  rewrite (fmap_ext_in (λ e, (page_url e, session_id e)) (pair page ∘ session_id)).
  2:{ intros e [-> _]%list_elem_of_filter. done. }
  rewrite list_fmap_compose.
  assert (Inj (=) (=) (pair (B:=string) page)) as Hinj by (by intros s1 s2 [= ->]).
  rewrite (remove_dups_fmap_inj (pair page)). unfold sessions_on.
  rewrite <- list_fmap_compose. done.
Qed.

Lemma quick_exits_group (mt : Qc) (evs : list event) (page : string) :
  quick_exits mt (duration_of evs page <$> sessions_on evs page)
  = length (quick_exit_sessions mt evs page).
Proof.
  unfold quick_exits, quick_exit_sessions. by rewrite filter_fmap, length_fmap.
Qed.

Lemma sessions_on_elem (evs : list event) (page sess : string) :
  sess ∈ sessions_on evs page ↔ ∃ e, e ∈ evs ∧ page_url e = page ∧ session_id e = sess.
Proof.
  unfold sessions_on. rewrite elem_of_remove_dups, list_elem_of_fmap. split.
  - intros (e & -> & [Hp He]%list_elem_of_filter). by exists e.
  - intros (e & He & Hp & <-). exists e. split; [done|]. by apply list_elem_of_filter.
Qed.

Lemma exit_select_group (mt : Qc) (evs : list event) (page : string) :
  sessions_on evs page ≠ [] →
  exit_select mt (page, duration_of evs page <$> sessions_on evs page)
  = exit_row_of mt evs page.
Proof.
  intros Hne. unfold exit_select, exit_row_of. cbn [fst snd].
  rewrite quick_exits_group, length_fmap. f_equal.
  unfold sql_div, exit_rate. rewrite decide_False; [done|].
  rewrite Qc_of_nat_eq_0. by destruct (sessions_on evs page).
Qed.

Lemma exit_rows (mt ms : Qc) (evs : list event) (row : exit_row) :
  row ∈ high_exit_rate_query mt ms evs
  ↔ ∃ page,
      sessions_on evs page ≠ []
      ∧ row = exit_row_of mt evs page
      ∧ (ms ≤ Qc_of_nat (length (sessions_on evs page)))%Qc
      ∧ (dec 5 10 < exit_rate mt evs page)%Qc.
Proof.
  unfold high_exit_rate_query. rewrite elem_of_grouped.
  assert (∀ page, page ∈ sd_page_url <$> session_durations evs
                  ↔ sessions_on evs page ≠ []) as Hkeys.
  { intros page. rewrite list_elem_of_fmap. split.
    - intros (d & -> & Hd) Hnil.
      assert (d ∈ filter (λ d', sd_page_url d' = sd_page_url d) (session_durations evs))
        as Hin by (by apply list_elem_of_filter).
      rewrite exit_group, Hnil in Hin. by apply elem_of_nil in Hin.
    - intros Hne. destruct (sessions_on evs page) as [|s rest] eqn:Hso; [done|].
      exists (duration_of evs page s). split; [done|].
      assert (duration_of evs page s
              ∈ filter (λ d, sd_page_url d = page) (session_durations evs)) as Hin.
      { rewrite exit_group, Hso. left. }
      by apply list_elem_of_filter in Hin as [_ Hin]. }
  split.
  - intros [Hh (page & Hk%Hkeys & ->)]. exists page.
    rewrite exit_group, (exit_select_group _ _ _ Hk) in Hh |- *.
    split; [done|]. split; [done|].
    unfold exit_having, exit_row_of in Hh. cbn in Hh.
    apply andb_prop_elim in Hh as [H1 H2]. by apply bool_decide_unpack in H1, H2.
  - intros (page & Hne & -> & Hms & Hrate). split.
    + unfold exit_having, exit_row_of. cbn.
      apply andb_prop_intro. split; by apply bool_decide_pack.
    + exists page. split; [by apply Hkeys|].
      by rewrite exit_group, (exit_select_group _ _ _ Hne).
Qed.

Lemma analyzeHighExitRate_run (this : RulesEngine) (w : World) (r : rule)
    (maxInteractionTime minSessions : Qc) :
  rules this !! "highExitRate" = Some r →
  thresholds r !! "maxInteractionTime" = Some (TNum maxInteractionTime) →
  thresholds r !! "minSessions" = Some (TNum minSessions) →
  read_error (db this) QHighExitRate = None →
  analyzeHighExitRate this w
  = Resolved (imap (exit_issue w r)
                (high_exit_rate_query maxInteractionTime minSessions (events (db this)))).
Proof.
  intros Hr Hc Hp He.
  unfold analyzeHighExitRate, rule_of, num_threshold, db_all.
  rewrite (js_get_own _ _ _ Hr). cbn.
  rewrite (js_get_own _ _ _ Hc). cbn.
  rewrite (js_get_own _ _ _ Hp). cbn.
  by rewrite He.
Qed.

Lemma exit_rate_no_sessions (mt : Qc) (evs : list event) (page : string) :
  sessions_on evs page = [] → exit_rate mt evs page = 0%Qc.
Proof.
  intros Hnil. unfold exit_rate, quick_exit_sessions. rewrite Hnil. by vm_compute.
Qed.

Lemma single_event_duration (evs : list event) (page sess : string) (e : event) :
  session_events evs page sess = [e] → duration evs page sess = 0%Z.
Proof. unfold duration. intros ->. cbn. lia. Qed.

Lemma foldr_max_ge (l : list Z) (a x : Z) :
  x = a ∨ x ∈ l → (x ≤ foldr Z.max a l)%Z.
Proof.
  induction l as [|y l IH]; cbn.
  - intros [->|Hx]; [lia|by apply elem_of_nil in Hx].
  - intros [->|[->|Hx]%elem_of_cons]; [|lia|].
    + specialize (IH (or_introl eq_refl)). lia.
    + specialize (IH (or_intror Hx)). lia.
Qed.

Lemma foldr_min_le (l : list Z) (a x : Z) :
  x = a ∨ x ∈ l → (foldr Z.min a l ≤ x)%Z.
Proof.
  induction l as [|y l IH]; cbn.
  - intros [->|Hx]; [lia|by apply elem_of_nil in Hx].
  - intros [->|[->|Hx]%elem_of_cons]; [|lia|].
    + specialize (IH (or_introl eq_refl)). lia.
    + specialize (IH (or_intror Hx)). lia.
Qed.

Lemma max_Z_ge (l : list Z) (x : Z) : x ∈ l → (x ≤ max_Z l)%Z.
Proof.
  destruct l as [|a l]; [by intros ?%elem_of_nil|].
  intros Hx%elem_of_cons. by apply foldr_max_ge.
Qed.

Lemma min_Z_le (l : list Z) (x : Z) : x ∈ l → (min_Z l ≤ x)%Z.
Proof.
  destruct l as [|a l]; [by intros ?%elem_of_nil|].
  intros Hx%elem_of_cons. by apply foldr_min_le.
Qed.

(** The span of a (page, session) covers any two of its events, clicks and
    scrolls alike. *)
Lemma duration_spans (evs : list event) (page sess : string) (e1 e2 : event) :
  e1 ∈ session_events evs page sess → e2 ∈ session_events evs page sess →
  (timestamp e2 - timestamp e1 ≤ duration evs page sess)%Z.
Proof.
  intros H1 H2. unfold duration.
  assert (timestamp e2 ≤ max_Z (timestamp <$> session_events evs page sess))%Z.
  { apply max_Z_ge, list_elem_of_fmap. by exists e2. }
  assert (min_Z (timestamp <$> session_events evs page sess) ≤ timestamp e1)%Z.
  { apply min_Z_le, list_elem_of_fmap. by exists e1. }
  lia.
Qed.

Lemma high_exit_rate_pages (w : World) (r : rule) (maxInteractionTime minSessions : Qc)
    (evs : list event) (page : string) :
  flags_page (imap (exit_issue w r)
                (high_exit_rate_query maxInteractionTime minSessions evs)) page
  ↔ (minSessions ≤ Qc_of_nat (length (sessions_on evs page)))%Qc
    ∧ (dec 5 10 < exit_rate maxInteractionTime evs page)%Qc.
Proof.
  rewrite (flags_page_imap _ _ ex_page_url); [|done]. split.
  - intros (row & (page' & Hne & -> & Hms & Hrate)%exit_rows & Hpage).
    cbn in Hpage. by subst.
  - intros [Hms Hrate]. exists (exit_row_of maxInteractionTime evs page).
    split; [|done]. apply exit_rows. exists page. split_and!; try done.
    intros Hnil. rewrite (exit_rate_no_sessions _ _ _ Hnil) in Hrate.
    apply Qclt_not_le in Hrate. apply Hrate.
    apply (bool_decide_unpack _). by vm_compute.
Qed.

Lemma updateRuleThreshold_db (this : RulesEngine) (rid key : string) (value : Qc) :
  db (updateRuleThreshold this rid key value).2 = db this.
Proof.
  unfold updateRuleThreshold.
  destruct (js_get (rules this) rid) as [r| |]; [|done|done].
  by destruct (js_get (thresholds r) key).
Qed.



(** ** The test cases of the data generator *)

Lemma NoDup_fmap_eq {A B} (f : A → B) (l : list A) (x y : A) :
  NoDup (f <$> l) → x ∈ l → y ∈ l → f x = f y → x = y.
Proof.
  induction l as [|a l IH]; [by intros _ ?%elem_of_nil|].
  cbn [fmap list_fmap]. intros [Ha Hnd]%NoDup_cons Hx Hy Hxy.
  apply elem_of_cons in Hx as [->|Hx]; apply elem_of_cons in Hy as [->|Hy].
  - done.
  - exfalso. apply Ha. rewrite Hxy. apply list_elem_of_fmap. by exists y.
  - exfalso. apply Ha. rewrite <- Hxy. apply list_elem_of_fmap. by exists x.
  - by apply IH.
Qed.

Lemma distinct_click_times_of_keys (evs : list event) :
  NoDup ((λ e, (session_id e, element_selector e, timestamp e)) <$> evs) →
  distinct_click_times evs.
Proof.
  intros Hnd e1 e2 H1 H2 _ _ Hs Hsel Ht.
  apply (NoDup_fmap_eq _ _ _ _ Hnd H1 H2). by rewrite Hs, Hsel, Ht.
Qed.

(** Three sessions of five rapid clicks: the three are rage sessions and
    the pair is flagged. *)
Example rage_test_case (w : World) :
  length (rage_sessions (Qc_of_Z 2000) (Qc_of_Z 3) rage_test_events
            "/checkout" "button.submit-order") = 3%nat
  ∧ ∃ l, analyzeRageClicks (new_RulesEngine (store_of rage_test_events)) w = Resolved l
      ∧ flags_pair l "/checkout" "button.submit-order".
Proof.
  split; [by vm_compute|].
  destruct (rage_clicks_agree (new_RulesEngine (store_of rage_test_events)) w
              rageClicks_rule (Qc_of_Z 3) (Qc_of_Z 2000) (Qc_of_Z 2)
              eq_refl eq_refl eq_refl eq_refl eq_refl) as (l & Hrun & Hflags).
  - apply (bool_decide_unpack _). by vm_compute.
  - apply distinct_click_times_of_keys. apply (bool_decide_unpack _). by vm_compute.
  - apply (bool_decide_unpack _). by vm_compute.
  - exists l. split; [done|]. apply Hflags. split.
    + by vm_compute.
    + apply (bool_decide_unpack _). by vm_compute.
Qed.

(** Eight clicks on a div: flagged with [clicks = 8]. *)
Example dead_test_case :
  (λ r, (dc_element_selector r, dc_page_url r, dc_clicks r, dc_unique_sessions r))
    <$> dead_clicks_query nonInteractiveSelectors_default (Qc_of_Z 5) dead_test_events
  = [(Some "div.product-image", "/product-page", 8%nat, 8%nat)].
Proof. by vm_compute. Qed.

(** Twelve quick exits out of fifteen sessions: flagged with an exit rate
    of 0.8. *)
Example pricing_test_case :
  exit_rate (Qc_of_Z 10000) pricing_events "/pricing" = dec 8 10
  ∧ (λ r, (ex_page_url r, ex_sessions r, ex_quick_exit_sessions r))
      <$> high_exit_rate_query (Qc_of_Z 10000) (Qc_of_Z 5) pricing_events
    = [("/pricing", 15%nat, 12%nat)].
Proof.
  split; [apply (bool_decide_unpack _); by vm_compute|by vm_compute].
Qed.

(** * Further properties of the program *)

(** ** Low scroll depth *)

Lemma analyzeLowScrollDepth_run (this : RulesEngine) (w : World) (r : rule)
    (maxScrollDepth minSessions : Qc) :
  rules this !! "lowScrollDepth" = Some r →
  thresholds r !! "maxScrollDepth" = Some (TNum maxScrollDepth) →
  thresholds r !! "minSessions" = Some (TNum minSessions) →
  read_error (db this) QLowScrollDepth = None →
  analyzeLowScrollDepth this w
  = Resolved (imap (lsd_issue w r)
                (low_scroll_depth_query minSessions maxScrollDepth (events (db this)))).
Proof.
  intros Hr Hc Hp He.
  unfold analyzeLowScrollDepth, rule_of, num_threshold, db_all.
  rewrite (js_get_own _ _ _ Hr). cbn.
  rewrite (js_get_own _ _ _ Hc). cbn.
  rewrite (js_get_own _ _ _ Hp). cbn.
  by rewrite He.
Qed.

Lemma lsd_group (evs : list event) (page : string) :
  filter (λ e, page_url e = page) (filter (λ e, Is_true (lsd_where e)) evs)
  = scroll_events evs page.
Proof.
  rewrite list_filter_filter. apply list_filter_iff. intros e.
  unfold lsd_where, is_scroll. split.
  - intros [Hp Hw]. apply andb_prop_elim in Hw as [Hs Hd].
    apply bool_decide_unpack in Hs, Hd. done.
  - intros (Hs & Hd & Hp). split; [done|].
    apply andb_prop_intro. split; by apply bool_decide_pack.
Qed.

Lemma scroll_depths_length (evs : list event) (page : string) :
  length (scroll_depths evs page) = length (scroll_events evs page).
Proof.
  unfold scroll_depths, scroll_events.
  induction evs as [|e evs IH]; [done|].
  destruct (decide (event_type e = "scroll" ∧ is_Some (scroll_depth e) ∧ page_url e = page))
    as [Hy|Hn].
  - rewrite filter_cons_True by done. destruct Hy as (_ & [d Hd] & _).
    cbn. rewrite Hd. cbn. by rewrite <- IH.
  - by rewrite filter_cons_False by done.
Qed.

Lemma lsd_select_group (evs : list event) (page : string) :
  scroll_events evs page ≠ [] →
  lsd_select (page, scroll_events evs page) = lsd_row_of evs page.
Proof.
  intros Hne. unfold lsd_select, lsd_row_of. cbn [fst snd].
  f_equal. unfold avg_Qc, sql_div, mean_depth.
  fold (scroll_depths evs page).
  rewrite decide_False; [done|].
  rewrite Qc_of_nat_eq_0, scroll_depths_length.
  intros Hz. by apply nil_length_inv in Hz.
Qed.

Lemma lsd_rows (ms md : Qc) (evs : list event) (row : lsd_row) :
  row ∈ low_scroll_depth_query ms md evs
  ↔ ∃ page,
      scroll_events evs page ≠ []
      ∧ row = lsd_row_of evs page
      ∧ (ms ≤ Qc_of_nat (scrolling_sessions evs page))%Qc
      ∧ (mean_depth evs page < md)%Qc.
Proof.
  unfold low_scroll_depth_query. rewrite elem_of_grouped. split.
  - intros [Hh (page & Hk & ->)].
    apply list_elem_of_fmap in Hk as (e & -> & He).
    assert (scroll_events evs (page_url e) ≠ []) as Hne.
    { rewrite <- lsd_group. intros Hnil.
      by eapply (filter_nil_not_elem_of _ _ e Hnil). }
    exists (page_url e). rewrite lsd_group in Hh |- *.
    rewrite (lsd_select_group _ _ Hne) in Hh |- *.
    split; [done|]. split; [done|].
    unfold lsd_having, lsd_row_of in Hh. cbn in Hh.
    apply andb_prop_elim in Hh as [H1 H2]. apply bool_decide_unpack in H1, H2. done.
  - intros (page & Hne & -> & Hs & Hd).
    destruct (scroll_events evs page) as [|e rest] eqn:Hsc; [done|].
    assert (e ∈ scroll_events evs page) as Hin by (rewrite Hsc; left).
    rewrite <- lsd_group in Hin.
    apply list_elem_of_filter in Hin as [Hp Hin].
    split.
    + unfold lsd_having, lsd_row_of. cbn.
      apply andb_prop_intro. split; by apply bool_decide_pack.
    + exists page. split.
      * apply list_elem_of_fmap. by exists e.
      * rewrite lsd_group. symmetry. apply lsd_select_group. by rewrite Hsc.
Qed.

Lemma Qc_of_nat_S (n : nat) : Qc_of_nat (S n) = (Qc_of_nat n + 1)%Qc.
Proof.
  unfold Qc_of_nat. rewrite Nat2Z.inj_succ, <- Z.add_1_r.
  by rewrite Z2Qc_inj_add.
Qed.

Lemma Qc_of_nat_pos (n : nat) : (0 < n)%nat → (0 < Qc_of_nat n)%Qc.
Proof.
  intros Hn. unfold Qc_of_nat. rewrite <- Z2Qc_inj_0. apply (proj1 (Z2Qc_inj_lt _ _)). lia.
Qed.

Lemma sum_Qc_lt (b : Qc) (l : list Qc) :
  l ≠ [] → (∀ d, d ∈ l → (d < b)%Qc) →
  (sum_Qc l < Qc_of_nat (length l) * b)%Qc.
Proof.
  induction l as [|x l IH]; [done|]. intros _ Hall.
  cbn [length sum_Qc foldr]. rewrite Qc_of_nat_S.
  replace ((Qc_of_nat (length l) + 1) * b)%Qc
    with (b + Qc_of_nat (length l) * b)%Qc by ring.
  assert (x < b)%Qc as Hx by (apply Hall; left).
  destruct l as [|y l'].
  - cbn [length sum_Qc foldr]. unfold Qc_of_nat. change (Z.of_nat 0) with 0%Z.
    rewrite Z2Qc_inj_0, Qcmult_0_l, !Qcplus_0_r. done.
  - eapply Qclt_trans.
    + apply Qcplus_lt_mono_r, Hx.
    + apply Qcplus_lt_mono_l. apply IH; [done|]. intros d Hd. apply Hall. by right.
Qed.

Lemma Qc_div_lt (x n b : Qc) : (0 < n)%Qc → (x < n * b)%Qc → (x / n < b)%Qc.
Proof.
  intros Hn Hx.
  apply (Qcmult_lt_mono_pos_r _ _ n Hn).
  replace (x / n * n)%Qc with x; [by rewrite (Qcmult_comm b)|].
  unfold Qcdiv. rewrite <- Qcmult_assoc, (Qcmult_comm (/ n)), Qcmult_inv_r.
  - by rewrite Qcmult_1_r.
  - intros ->. by apply Qclt_not_eq in Hn.
Qed.

Lemma mean_depth_lt (evs : list event) (page : string) (b : Qc) :
  scroll_events evs page ≠ [] →
  (∀ d, d ∈ scroll_depths evs page → (d < b)%Qc) →
  (mean_depth evs page < b)%Qc.
Proof.
  intros Hne Hall. unfold mean_depth.
  assert (scroll_depths evs page ≠ []) as Hne'.
  { intros Hnil. apply Hne, nil_length_inv.
    by rewrite <- scroll_depths_length, Hnil. }
  apply Qc_div_lt.
  - apply Qc_of_nat_pos. destruct (scroll_depths evs page); [done|cbn; lia].
  - by apply sum_Qc_lt.
Qed.

Lemma grouped_NoDup {A K R} `{EqDecision K} (key : A → K)
    (select : K * list A → R) (proj : R → K) (having : R → Prop)
    `{∀ r, Decision (having r)} (before : relation R)
    `{∀ x y, Decision (before x y)} (l : list A) :
  (∀ g, proj (select g) = g.1) →
  NoDup (proj <$> merge_sort before (filter having (select <$> group_by key l))).
Proof.
  intros Hproj. rewrite merge_sort_Permutation.
  apply (sublist_NoDup _ (proj <$> (select <$> group_by key l)));
    [|apply fmap_sublist, sublist_filter].
  rewrite <- list_fmap_compose. unfold group_by. rewrite <- list_fmap_compose.
  rewrite (list_fmap_ext _ id (remove_dups (key <$> l))).
  - rewrite list_fmap_id. apply NoDup_remove_dups.
  - intros i k _. cbn. by rewrite Hproj.
Qed.



(** ** analyzeAllRules: rejection, order and distinctness of the findings *)

Lemma analyzeAllRules_inv this w l :
  analyzeAllRules this w = Resolved l →
  ∃ l1 l2 l3 l4 l5,
    analyzeLowClickRate this w = Resolved l1
    ∧ analyzeLowScrollDepth this w = Resolved l2
    ∧ analyzeRageClicks this w = Resolved l3
    ∧ analyzeDeadClicks this w = Resolved l4
    ∧ analyzeHighExitRate this w = Resolved l5
    ∧ attach_suggestions this w 0 (l1 ++ l2 ++ l3 ++ l4 ++ l5) = Resolved l.
Proof.
  unfold analyzeAllRules. intros H. invert_reads H. by eexists _, _, _, _, _.
Qed.

Lemma analyzeAllRules_reads this w l q :
  analyzeAllRules this w = Resolved l → q ∈ detector_reads →
  read_error (db this) q = None.
Proof.
  intros (l1 & l2 & l3 & l4 & l5 & H1 & H2 & H3 & H4 & H5 & _)%analyzeAllRules_inv Hq.
  apply analyzeLowClickRate_inv in H1 as (? & ? & ? & _ & _ & _ & E1 & _).
  apply analyzeLowScrollDepth_inv in H2 as (? & ? & ? & _ & _ & _ & E2 & _).
  apply analyzeRageClicks_inv in H3 as (? & ? & ? & ? & _ & _ & _ & _ & E3 & _).
  apply analyzeDeadClicks_inv in H4 as (? & ? & ? & _ & _ & _ & _ & E4 & _).
  apply analyzeHighExitRate_inv in H5 as (? & ? & ? & _ & _ & _ & E5 & _).
  unfold detector_reads in Hq.
  repeat (apply elem_of_cons in Hq as [->|Hq]; [done|]).
  by apply elem_of_nil in Hq.
Qed.

(** X2. If the read of any one of the five detectors fails,
    [analyzeAllRules] is rejected: no partial list of issues is returned,
    whatever the other four detectors found. *)
Theorem analyzeAllRules_fail_fast (this : RulesEngine) (w : World)
    (q : query_name) (e : string) :
  q ∈ detector_reads → read_error (db this) q = Some e →
  ∃ e', analyzeAllRules this w = Rejected e'.
Proof.
  intros Hq He. destruct (analyzeAllRules this w) as [l|e'] eqn:Hrun; [|by exists e'].
  pose proof (analyzeAllRules_reads _ _ _ _ Hrun Hq) as Hok. congruence.
Qed.

Lemma analyzeAllRules_fail_fast_witness :
  ∃ e', analyzeAllRules (new_RulesEngine rage_read_failing_store) quiet_world = Rejected e'.
Proof.
  apply (analyzeAllRules_fail_fast (new_RulesEngine rage_read_failing_store) quiet_world
           QRageClicks "SQLITE_BUSY").
  - unfold detector_reads. do 2 apply list_elem_of_further. apply list_elem_of_here.
  - reflexivity.
Defined.

Lemma attach_suggestions_lookup this w i l l' :
  attach_suggestions this w i l = Resolved l' →
  length l' = length l
  ∧ ∀ n x, l !! n = Some x →
      ∃ sg, getSuggestionsForRule this (ruleId x) = Return sg
        ∧ l' !! n = Some (with_suggestions x sg (date_now w "detectedAt" (i + n))).
Proof.
  revert i l'. induction l as [|x l IH]; intros i l' Hrun.
  - cbn in Hrun. injection Hrun as <-. split; [done|]. by intros n x [=].
  - cbn in Hrun.
    destruct (getSuggestionsForRule this (ruleId x)) as [sg|e] eqn:Hsg; [|done].
    apply bind_result_inv in Hrun as (rest & Hrest & [= <-]).
    apply IH in Hrest as [Hlen Hrest]. split; [cbn; by rewrite Hlen|].
    intros [|n] y Hy.
    + injection Hy as <-. exists sg. split; [done|]. cbn. by rewrite Nat.add_0_r.
    + cbn in Hy. destruct (Hrest n y Hy) as (sg' & Hsg' & Hl).
      exists sg'. split; [done|]. cbn. by rewrite Nat.add_succ_r.
Qed.

Lemma attach_suggestions_fmap {B} (f : issue → B) this w i l l' :
  (∀ x sg stamp, f (with_suggestions x sg stamp) = f x) →
  attach_suggestions this w i l = Resolved l' → f <$> l' = f <$> l.
Proof.
  intros Hf. revert i l'. induction l as [|x l IH]; intros i l' Hrun.
  - cbn in Hrun. by injection Hrun as <-.
  - cbn in Hrun.
    destruct (getSuggestionsForRule this (ruleId x)) as [sg|e] eqn:Hsg; [|done].
    apply bind_result_inv in Hrun as (rest & Hrest & [= <-]).
    cbn. rewrite Hf. f_equal. by eapply IH.
Qed.

Lemma attach_suggestions_total this w i l :
  (∀ x, x ∈ l → ruleId x ∉ object_prototype_props) →
  ∃ l', attach_suggestions this w i l = Resolved l'.
Proof.
  revert i. induction l as [|x l IH]; intros i Hall; [by eexists|].
  cbn. unfold getSuggestionsForRule, js_get.
  assert (ruleId x ∉ object_prototype_props) as Hx by (apply Hall; left).
  destruct (IH (S i)) as [l' ->]; [intros y Hy; apply Hall; by right|].
  destruct (suggestions this !! ruleId x); [by eexists|].
  rewrite bool_decide_eq_false_2 by done. by eexists.
Qed.

Lemma detector_ruleIds this w l1 l2 l3 l4 l5 :
  analyzeLowClickRate this w = Resolved l1 →
  analyzeLowScrollDepth this w = Resolved l2 →
  analyzeRageClicks this w = Resolved l3 →
  analyzeDeadClicks this w = Resolved l4 →
  analyzeHighExitRate this w = Resolved l5 →
  Forall (λ x, ruleId x = "lowClickRate") l1
  ∧ Forall (λ x, ruleId x = "lowScrollDepth") l2
  ∧ Forall (λ x, ruleId x = "rageClicks") l3
  ∧ Forall (λ x, ruleId x = "deadClicks") l4
  ∧ Forall (λ x, ruleId x = "highExitRate") l5.
Proof.
  intros H1 H2 H3 H4 H5.
  apply analyzeLowClickRate_inv in H1 as (? & ? & ? & _ & _ & _ & _ & ->).
  apply analyzeLowScrollDepth_inv in H2 as (? & ? & ? & _ & _ & _ & _ & ->).
  apply analyzeRageClicks_inv in H3 as (? & ? & ? & ? & _ & _ & _ & _ & _ & ->).
  apply analyzeDeadClicks_inv in H4 as (? & ? & ? & _ & _ & _ & _ & _ & ->).
  apply analyzeHighExitRate_inv in H5 as (? & ? & ? & _ & _ & _ & _ & ->).
  split_and!; apply Forall_forall; by intros i (n & row & _ & ->)%elem_of_imap.
Qed.

Lemma fmap_replicate {A B} (f : A → B) (y : B) (l : list A) :
  Forall (λ x, f x = y) l → f <$> l = replicate (length l) y.
Proof. induction 1 as [|x l Hx _ IH]; [done|]. cbn. by rewrite Hx, IH. Qed.



Lemma NoDup_fmap_via {A B C} (g : A → B) (f : B → C) (h : A → C) (l : list A) :
  Inj (=) (=) f → (∀ a, h a = f (g a)) → NoDup (g <$> l) → NoDup (h <$> l).
Proof.
  intros Hinj Hh Hnd.
  rewrite (list_fmap_ext h (f ∘ g) l) by (intros; apply Hh).
  rewrite list_fmap_compose. by apply (NoDup_fmap_2 f).
Qed.

Lemma lcr_keys_NoDup (ms mc : Qc) (evs : list event) :
  NoDup ((λ r, (lcr_page_url r, lcr_element_selector r))
           <$> low_click_rate_query ms mc evs).
Proof.
  apply NoDup_fmap_2_strong.
  - intros r1 r2 (p1 & s1 & _ & _ & -> & _)%lcr_rows (p2 & s2 & _ & _ & -> & _)%lcr_rows.
    cbn. by intros [= -> ->].
  - apply (NoDup_fmap_1 (λ r, (lcr_element_selector r, lcr_page_url r, lcr_page_sessions r))).
    unfold low_click_rate_query. apply grouped_NoDup. by intros [[[a b] c] g].
Qed.

Lemma lsd_keys_NoDup (ms md : Qc) (evs : list event) :
  NoDup ((λ r, (lsd_page_url r, @None string)) <$> low_scroll_depth_query ms md evs).
Proof.
  apply (NoDup_fmap_via lsd_page_url (λ p, (p, None))); [by intros p1 p2 [= ->]|done|].
  unfold low_scroll_depth_query. by apply grouped_NoDup.
Qed.

Lemma rage_keys_NoDup (tw cw mo : Qc) (evs : list event) :
  NoDup ((λ r, (rg_page_url r, rg_element_selector r)) <$> rage_clicks_query tw cw mo evs).
Proof.
  apply (NoDup_fmap_via (λ r, (rg_element_selector r, rg_page_url r))
           (λ k : option string * string, (k.2, k.1)));
    [intros [a b] [c d] Heq; cbn in Heq; by injection Heq as -> ->|done|].
  unfold rage_clicks_query. apply grouped_NoDup. by intros [[a b] g].
Qed.

Lemma dead_keys_NoDup (sels : list string) (mc : Qc) (evs : list event) :
  NoDup ((λ r, (dc_page_url r, dc_element_selector r)) <$> dead_clicks_query sels mc evs).
Proof.
  apply (NoDup_fmap_via (λ r, (dc_element_selector r, dc_page_url r))
           (λ k : option string * string, (k.2, k.1)));
    [intros [a b] [c d] Heq; cbn in Heq; by injection Heq as -> ->|done|].
  unfold dead_clicks_query. apply grouped_NoDup. by intros [[a b] g].
Qed.

Lemma exit_keys_NoDup (mt ms : Qc) (evs : list event) :
  NoDup ((λ r, (ex_page_url r, @None string)) <$> high_exit_rate_query mt ms evs).
Proof.
  apply (NoDup_fmap_via ex_page_url (λ p, (p, None))); [by intros p1 p2 [= ->]|done|].
  unfold high_exit_rate_query. by apply grouped_NoDup.
Qed.

Lemma issue_keys_imap {R} (rid : string) (pg : R → string) (sl : R → option string)
    (mk : nat → R → issue) (rows : list R) :
  (∀ i row, issue_key (mk i row) = (rid, pg row, sl row)) →
  NoDup ((λ row, (pg row, sl row)) <$> rows) →
  NoDup (issue_key <$> imap mk rows)
  ∧ Forall (λ k, k.1.1 = rid) (issue_key <$> imap mk rows).
Proof.
  intros Hk Hnd.
  rewrite (fmap_imap_const _ _ (λ row, (rid, pg row, sl row))) by done. split.
  - apply (NoDup_fmap_via (λ row, (pg row, sl row))
             (λ p : string * option string, (rid, p.1, p.2))); [|done..].
    intros [a b] [c d] Heq. cbn in Heq. by injection Heq as -> ->.
  - apply Forall_fmap, Forall_forall. by intros row _.
Qed.

Lemma NoDup_app_tagged {A} (tag : A → string) (a : string) (l1 l2 : list A) :
  Forall (λ x, tag x = a) l1 → Forall (λ x, tag x ≠ a) l2 →
  NoDup l1 → NoDup l2 → NoDup (l1 ++ l2).
Proof.
  intros H1 H2 N1 N2. apply NoDup_app. split_and!; [done| |done].
  intros x Hx1 Hx2.
  rewrite Forall_forall in H1. rewrite Forall_forall in H2.
  by apply (H2 x Hx2), H1.
Qed.



(** ** Threshold updates *)

Lemma js_get_Own_inv {A} (o : gmap string A) k a : js_get o k = Own a → o !! k = Some a.
Proof.
  unfold js_get. destruct (o !! k); [by intros [= ->]|]. by case_bool_decide.
Qed.

Lemma js_get_not_Own {A} (o : gmap string A) k :
  (∀ a, js_get o k ≠ Own a) → o !! k = None.
Proof.
  intros Hn. destruct (o !! k) as [a|] eqn:Hl; [|done].
  by destruct (Hn a (js_get_own _ _ _ Hl)).
Qed.

Lemma js_set_lookup {A} (o : gmap string A) k v k0 a0 :
  o !! k0 = Some a0 →
  js_set o k v !! k0 = Some (if decide (k = k0) then v else a0).
Proof.
  intros H0. unfold js_set. destruct (decide (k = k0)) as [->|Hne].
  - rewrite H0. by rewrite lookup_insert_eq.
  - destruct (o !! k); [by rewrite lookup_insert_ne|].
    case_bool_decide; [done|by rewrite lookup_insert_ne].
Qed.

(** What one update does to a threshold that exists. *)
Lemma updateRuleThreshold_threshold this rid key v rid0 r0 k0 t0 :
  rules this !! rid0 = Some r0 → thresholds r0 !! k0 = Some t0 →
  ∃ r1, rules (updateRuleThreshold this rid key v).2 !! rid0 = Some r1
    ∧ thresholds r1 !! k0
      = Some (if decide (rid = rid0 ∧ key = k0) then TNum v else t0)
    ∧ rule_name r1 = rule_name r0 ∧ rule_description r1 = rule_description r0
    ∧ severity r1 = severity r0.
Proof.
  intros Hr Ht. unfold updateRuleThreshold.
  destruct (js_get (rules this) rid) as [r| |] eqn:Hg.
  - apply js_get_Own_inv in Hg.
    destruct (js_get (thresholds r) key) as [t| |] eqn:Hk.
    + cbn. destruct (decide (rid = rid0)) as [->|Hne].
      * rewrite lookup_insert_eq. eexists. split; [done|]. cbn.
        assert (r = r0) as -> by congruence.
        rewrite (js_set_lookup _ _ _ _ _ Ht).
        split; [|done]. f_equal. destruct (decide (key = k0)) as [->|Hk0].
        -- by rewrite decide_True.
        -- rewrite decide_False; [done|]. by intros [_ ?].
      * rewrite lookup_insert_ne by done. exists r0. split; [done|].
        rewrite decide_False; [done|]. by intros [? _].
    + cbn. destruct (decide (rid = rid0)) as [->|Hne].
      * rewrite lookup_insert_eq. eexists. split; [done|]. cbn.
        assert (r = r0) as -> by congruence.
        rewrite (js_set_lookup _ _ _ _ _ Ht).
        split; [|done]. f_equal. destruct (decide (key = k0)) as [->|Hk0].
        -- by rewrite decide_True.
        -- rewrite decide_False; [done|]. by intros [_ ?].
      * rewrite lookup_insert_ne by done. exists r0. split; [done|].
        rewrite decide_False; [done|]. by intros [? _].
    + cbn. exists r0. split; [done|]. rewrite decide_False; [done|].
      intros [-> ->]. assert (r = r0) as -> by congruence.
      by rewrite (js_get_own _ _ _ Ht) in Hk.
  - cbn. exists r0. split; [done|]. rewrite decide_False; [done|].
    intros [-> _]. by rewrite (js_get_own _ _ _ Hr) in Hg.
  - cbn. exists r0. split; [done|]. rewrite decide_False; [done|].
    intros [-> _]. by rewrite (js_get_own _ _ _ Hr) in Hg.
Qed.

Lemma updateRuleThreshold_suggestions (this : RulesEngine) (rid key : string) (value : Qc) :
  suggestions (updateRuleThreshold this rid key value).2 = suggestions this.
Proof.
  unfold updateRuleThreshold.
  destruct (js_get (rules this) rid) as [r| |]; [|done..].
  by destruct (js_get (thresholds r) key).
Qed.

Lemma apply_updates_db this ups : db (apply_updates this ups) = db this.
Proof.
  unfold apply_updates. induction ups as [|u ups IH] using rev_ind; [done|].
  by rewrite foldl_snoc, updateRuleThreshold_db.
Qed.

Lemma apply_updates_suggestions this ups :
  suggestions (apply_updates this ups) = suggestions this.
Proof.
  unfold apply_updates. induction ups as [|u ups IH] using rev_ind; [done|].
  by rewrite foldl_snoc, updateRuleThreshold_suggestions.
Qed.

Lemma apply_updates_threshold this ups rid0 r0 k0 t0 :
  rules this !! rid0 = Some r0 → thresholds r0 !! k0 = Some t0 →
  ∃ r1, rules (apply_updates this ups) !! rid0 = Some r1
    ∧ thresholds r1 !! k0 = Some (final_threshold rid0 k0 t0 ups)
    ∧ rule_name r1 = rule_name r0 ∧ rule_description r1 = rule_description r0
    ∧ severity r1 = severity r0.
Proof.
  intros Hr Ht. unfold apply_updates, final_threshold.
  induction ups as [|[[rid key] v] ups IH] using rev_ind; [by exists r0|].
  rewrite !foldl_snoc. destruct IH as (r1 & Hr1 & Ht1 & Hn & Hd & Hs).
  destruct (updateRuleThreshold_threshold _ rid key v _ _ _ _ Hr1 Ht1)
    as (r2 & Hr2 & Ht2 & Hn2 & Hd2 & Hs2).
  exists r2. cbn [fst snd]. split; [done|]. split; [done|]. split_and!; congruence.
Qed.



(** ** analyzeAllRules after threshold updates *)

Lemma final_threshold_num rid k q ups :
  ∃ q', final_threshold rid k (TNum q) ups = TNum q'.
Proof.
  unfold final_threshold. induction ups as [|u ups IH] using rev_ind; [by exists q|].
  rewrite foldl_snoc. case_decide; [by eexists|done].
Qed.

Lemma final_threshold_hit rid k t0 ups v :
  (rid, k, v) ∈ ups → ∃ q, final_threshold rid k t0 ups = TNum q.
Proof.
  unfold final_threshold. induction ups as [|u ups IH] using rev_ind.
  - by intros ?%elem_of_nil.
  - rewrite foldl_snoc. intros [Hin|Hin]%elem_of_app.
    + case_decide; [by eexists|by apply IH].
    + apply list_elem_of_singleton in Hin as <-. cbn. rewrite decide_True by done.
      by eexists.
Qed.

Lemma final_threshold_miss rid k t0 ups :
  (∀ v, (rid, k, v) ∉ ups) → final_threshold rid k t0 ups = t0.
Proof.
  unfold final_threshold. induction ups as [|[[rid' k'] v'] ups IH] using rev_ind; [done|].
  intros Hno. rewrite foldl_snoc. cbn [fst snd]. rewrite decide_False.
  - apply IH. intros v Hin. apply (Hno v), elem_of_app. by left.
  - intros [-> ->]. apply (Hno v'), elem_of_app. right. left.
Qed.

Lemma default_numeric s ups rid r0 k q :
  default_rules !! rid = Some r0 → thresholds r0 !! k = Some (TNum q) →
  ∃ r1 q', rules (apply_updates (new_RulesEngine s) ups) !! rid = Some r1
    ∧ thresholds r1 !! k = Some (TNum q').
Proof.
  intros Hr Ht.
  destruct (apply_updates_threshold (new_RulesEngine s) ups rid r0 k _ Hr Ht)
    as (r1 & Hr1 & Ht1 & _).
  destruct (final_threshold_num rid k q ups) as [q' Hq]. rewrite Hq in Ht1.
  by exists r1, q'.
Qed.

Lemma rule_ids_plain rid : rid ∈ rule_ids → rid ∉ object_prototype_props.
Proof.
  unfold rule_ids. intros Hin.
  repeat (apply elem_of_cons in Hin as [->|Hin];
          [apply (bool_decide_unpack _); by vm_compute|]).
  by apply elem_of_nil in Hin.
Qed.


(** ** One threshold update *)

Lemma js_set_lookup_ne {A} (o : gmap string A) k v k0 :
  k ≠ k0 → js_set o k v !! k0 = o !! k0.
Proof.
  intros Hne. unfold js_set. destruct (o !! k); [by rewrite lookup_insert_ne|].
  case_bool_decide; [done|by rewrite lookup_insert_ne].
Qed.

Lemma updateRuleThreshold_cases this rid key v :
  (updateRuleThreshold this rid key v).2 = this
  ∧ (updateRuleThreshold this rid key v).1 ≠ Return true
  ∨ ∃ r, rules this !! rid = Some r
      ∧ (is_Some (thresholds r !! key) ∨ key ∈ object_prototype_props)
      ∧ updateRuleThreshold this rid key v
        = (Return true, set_threshold this rid r key v).
Proof.
  unfold updateRuleThreshold.
  destruct (js_get (rules this) rid) as [r| |] eqn:Hg; [|by left..].
  apply js_get_Own_inv in Hg. unfold js_get.
  destruct (thresholds r !! key) as [t|] eqn:Ht.
  - right. exists r. split_and!; [done|left; by eexists|done].
  - case_bool_decide; [|by left]. right. exists r. split_and!; [done|by right|done].
Qed.

(** X7. What one [updateRuleThreshold] call leaves alone, whatever its
    arguments: the store handle, the suggestion catalogue, the set of rule
    ids, every rule's name, description and severity, every other rule, and
    every other threshold of the rule named.  A call that does not return
    true changes nothing at all.  A call that returns true has stored the
    number under the key, except for the key [__proto__]: then true is
    returned and the thresholds are as before. *)
Theorem updateRuleThreshold_preserves (this : RulesEngine) (rid key : string) (v : Qc) :
  db (updateRuleThreshold this rid key v).2 = db this
  ∧ suggestions (updateRuleThreshold this rid key v).2 = suggestions this
  ∧ (∀ id, is_Some (rules (updateRuleThreshold this rid key v).2 !! id)
           ↔ is_Some (rules this !! id))
  ∧ (∀ id r, rules this !! id = Some r →
       ∃ r', rules (updateRuleThreshold this rid key v).2 !! id = Some r'
         ∧ rule_name r' = rule_name r ∧ rule_description r' = rule_description r
         ∧ severity r' = severity r
         ∧ (id ≠ rid → r' = r)
         ∧ ∀ k, k ≠ key → thresholds r' !! k = thresholds r !! k)
  ∧ ((updateRuleThreshold this rid key v).1 ≠ Return true →
     (updateRuleThreshold this rid key v).2 = this)
  ∧ ((updateRuleThreshold this rid key v).1 = Return true →
     ∃ r r', rules this !! rid = Some r
       ∧ rules (updateRuleThreshold this rid key v).2 !! rid = Some r'
       ∧ (key ≠ "__proto__" → thresholds r' !! key = Some (TNum v))
       ∧ (key = "__proto__" → thresholds r !! key = None → thresholds r' = thresholds r)).
Proof.
  split; [apply updateRuleThreshold_db|].
  split; [apply updateRuleThreshold_suggestions|].
  destruct (updateRuleThreshold_cases this rid key v)
    as [[Heq Hne]|(r & Hr & Hkey & Heq)].
  - rewrite Heq. split_and!; [done| |done|done].
    intros id r0 Hr0. exists r0. by split_and!.
  - rewrite Heq. cbn [fst snd set_threshold rules]. split_and!.
    + intros id. destruct (decide (rid = id)) as [<-|Hne].
      * rewrite lookup_insert_eq, Hr. split; by eexists.
      * by rewrite lookup_insert_ne.
    + intros id r0 Hr0. destruct (decide (rid = id)) as [<-|Hne].
      * rewrite lookup_insert_eq. eexists. split; [done|]. cbn.
        assert (r0 = r) as -> by congruence. split_and!; [done..| |].
        -- by intros [].
        -- intros k Hk. by apply js_set_lookup_ne.
      * rewrite lookup_insert_ne by done. exists r0. by split_and!.
    + by intros [].
    + intros _. exists r. eexists. rewrite lookup_insert_eq.
      split; [done|]. split; [done|]. cbn. split.
      * intros Hp. unfold js_set.
        destruct (thresholds r !! key); [by rewrite lookup_insert_eq|].
        rewrite bool_decide_eq_false_2 by done. by rewrite lookup_insert_eq.
      * intros -> Hnone. unfold js_set. by rewrite Hnone.
Qed.

Lemma rule_of_update_ne this rid key v rid0 :
  rid ≠ rid0 → rule_of (updateRuleThreshold this rid key v).2 rid0 = rule_of this rid0.
Proof.
  intros Hne. unfold rule_of, js_get.
  destruct (updateRuleThreshold_cases this rid key v) as [[-> _]|(r & Hr & _ & ->)]; [done|].
  cbn [snd set_threshold rules]. by rewrite lookup_insert_ne.
Qed.

(** X8. Updating a threshold of one rule does not change what the detector
    of any other rule returns. *)
Theorem updateRuleThreshold_other_detectors (this : RulesEngine) (w : World)
    (rid key : string) (v : Qc) :
  (rid ≠ "lowClickRate" →
   analyzeLowClickRate (updateRuleThreshold this rid key v).2 w
   = analyzeLowClickRate this w)
  ∧ (rid ≠ "lowScrollDepth" →
     analyzeLowScrollDepth (updateRuleThreshold this rid key v).2 w
     = analyzeLowScrollDepth this w)
  ∧ (rid ≠ "rageClicks" →
     analyzeRageClicks (updateRuleThreshold this rid key v).2 w
     = analyzeRageClicks this w)
  ∧ (rid ≠ "deadClicks" →
     analyzeDeadClicks (updateRuleThreshold this rid key v).2 w
     = analyzeDeadClicks this w)
  ∧ (rid ≠ "highExitRate" →
     analyzeHighExitRate (updateRuleThreshold this rid key v).2 w
     = analyzeHighExitRate this w).
Proof.
  split_and!; intros Hne;
    unfold analyzeLowClickRate, analyzeLowScrollDepth, analyzeRageClicks,
      analyzeDeadClicks, analyzeHighExitRate;
    by rewrite rule_of_update_ne, updateRuleThreshold_db.
Qed.

(** X9. Updating [minClickRate] and analysing again: the call returns
    true and the low-click-rate detector then compares the click rate with
    the new value, all else being the same.  Raising the bar keeps every
    pair that was flagged; lowering it flags no new pair. *)
Theorem updateRuleThreshold_minClickRate (this : RulesEngine) (w : World) (r : rule)
    (old minPageViews v : Qc) :
  rules this !! "lowClickRate" = Some r →
  thresholds r !! "minClickRate" = Some (TNum old) →
  thresholds r !! "minPageViews" = Some (TNum minPageViews) →
  read_error (db this) QLowClickRate = None →
  ∃ l l',
    analyzeLowClickRate this w = Resolved l
    ∧ (updateRuleThreshold this "lowClickRate" "minClickRate" v).1 = Return true
    ∧ analyzeLowClickRate (updateRuleThreshold this "lowClickRate" "minClickRate" v).2 w
      = Resolved l'
    ∧ (∀ page sel,
         flags_pair l page sel
         ↔ sel ≠ EmptyString ∧ selector_clicks (events (db this)) page sel ≠ []
           ∧ (minPageViews ≤ Qc_of_nat (page_sessions (events (db this)) page))%Qc
           ∧ (click_rate (events (db this)) page sel < old)%Qc)
    ∧ (∀ page sel,
         flags_pair l' page sel
         ↔ sel ≠ EmptyString ∧ selector_clicks (events (db this)) page sel ≠ []
           ∧ (minPageViews ≤ Qc_of_nat (page_sessions (events (db this)) page))%Qc
           ∧ (click_rate (events (db this)) page sel < v)%Qc)
    ∧ ((old ≤ v)%Qc → ∀ page sel, flags_pair l page sel → flags_pair l' page sel)
    ∧ ((v ≤ old)%Qc → ∀ page sel, flags_pair l' page sel → flags_pair l page sel).
Proof.
  intros Hr Hc Hp He.
  destruct (updateRuleThreshold_known this "lowClickRate" "minClickRate" v r _ Hr Hc)
    as (this' & r' & Hupd & Hr' & Hc' & _ & Hother & _ & Hdb & _).
  rewrite Hupd. cbn [fst snd].
  eexists _, _. split; [by eapply analyzeLowClickRate_run|]. split; [done|].
  split.
  { eapply analyzeLowClickRate_run; [done|done| |by rewrite Hdb].
    by rewrite Hother. }
  rewrite Hdb. split_and!.
  - intros page sel. apply low_click_rate_pairs.
  - intros page sel. apply low_click_rate_pairs.
  - intros Hle page sel. rewrite !low_click_rate_pairs.
    intros (? & ? & ? & Hlt). split_and!; [done..|].
    by eapply Qclt_le_trans.
  - intros Hle page sel. rewrite !low_click_rate_pairs.
    intros (? & ? & ? & Hlt). split_and!; [done..|].
    by eapply Qclt_le_trans.
Qed.

Lemma updateRuleThreshold_minClickRate_witness :
  ∃ l l',
    analyzeLowClickRate (new_RulesEngine (store_of landing_page_events)) quiet_world
    = Resolved l
    ∧ analyzeLowClickRate
        (updateRuleThreshold (new_RulesEngine (store_of landing_page_events))
           "lowClickRate" "minClickRate" (dec 1 100)).2 quiet_world
      = Resolved l'
    ∧ flags_pair l "/landing-page" "button.cta-primary"
    ∧ ¬ flags_pair l' "/landing-page" "button.cta-primary".
Proof.
  destruct (updateRuleThreshold_minClickRate
              (new_RulesEngine (store_of landing_page_events)) quiet_world
              lowClickRate_rule (dec 5 100) (Qc_of_Z 10) (dec 1 100)
              eq_refl eq_refl eq_refl eq_refl)
    as (l & l' & Hl & _ & Hl' & Hold & Hflags & _ & Hdown).
  exists l, l'. split; [done|]. split; [done|].
  assert (¬ flags_pair l' "/landing-page" "button.cta-primary") as Hno.
  { rewrite Hflags. intros (_ & _ & _ & Hlt). revert Hlt.
    apply (bool_decide_unpack _). by vm_compute. }
  split; [|done].
  apply Hold. split_and!.
  - done.
  - by vm_compute.
  - apply (bool_decide_unpack _). by vm_compute.
  - apply (bool_decide_unpack _). by vm_compute.
Defined.

(** ** getSuggestionsForRule and getRuleConfiguration *)

Lemma suggestion_id_inj (rid d1 d2 : string) :
  "suggestion-" +:+ rid +:+ "-" +:+ d1 = "suggestion-" +:+ rid +:+ "-" +:+ d2 → d1 = d2.
Proof.
  intros H. apply (inj (String.app _)) in H. apply (inj (String.app _)) in H.
  by apply (inj (String.app _)) in H.
Qed.

Lemma slice_map_lookup rid (l : list string) n s :
  slice_map rid l !! n = Some s →
  (n < 3)%nat
  ∧ sg_id s = "suggestion-" +:+ rid +:+ "-" +:+ digit_of n
  ∧ sg_priority s = priority_of n.
Proof.
  unfold slice_map. rewrite list_lookup_imap.
  destruct (take 3 l !! n) as [t|] eqn:Ht; [|done]. intros [= <-].
  split; [|done]. apply lookup_lt_Some in Ht. rewrite length_take in Ht. lia.
Qed.

Lemma slice_map_ids_NoDup rid (l : list string) : NoDup (sg_id <$> slice_map rid l).
Proof.
  apply NoDup_alt. intros i j x Hi Hj.
  rewrite list_lookup_fmap in Hi, Hj.
  destruct (slice_map rid l !! i) as [s1|] eqn:H1; [|done].
  destruct (slice_map rid l !! j) as [s2|] eqn:H2; [|done].
  injection Hi as <-. injection Hj as Heq.
  apply slice_map_lookup in H1 as (Hi3 & Hid1 & _).
  apply slice_map_lookup in H2 as (Hj3 & Hid2 & _).
  rewrite Hid1, Hid2 in Heq. apply suggestion_id_inj in Heq.
  destruct i as [|[|[|i]]], j as [|[|[|j]]]; try done; lia.
Qed.

(** X10. [getSuggestionsForRule] throws exactly for a rule id that is not
    in the catalogue but names a property of [Object.prototype]; for any
    other unknown id it returns the empty list.  When it returns, there are
    at most three suggestions, their texts are the first three of the
    catalogue entry, their ids are pairwise distinct and the one at position
    [n] has the id [suggestion-<rule>-<n>] and the priority high, medium or
    low by position. *)
Theorem getSuggestionsForRule_total (this : RulesEngine) (rid : string) :
  ((∃ e, getSuggestionsForRule this rid = Throw e)
   ↔ suggestions this !! rid = None ∧ rid ∈ object_prototype_props)
  ∧ (suggestions this !! rid = None → rid ∉ object_prototype_props →
     getSuggestionsForRule this rid = Return [])
  ∧ ∀ sg, getSuggestionsForRule this rid = Return sg →
      (length sg ≤ 3)%nat
      ∧ NoDup (sg_id <$> sg)
      ∧ sg_text <$> sg = take 3 (default [] (suggestions this !! rid))
      ∧ ∀ n s, sg !! n = Some s →
          sg_id s = "suggestion-" +:+ rid +:+ "-" +:+ digit_of n
          ∧ sg_priority s = priority_of n.
Proof.
  unfold getSuggestionsForRule, js_get.
  destruct (suggestions this !! rid) as [l|] eqn:Hl.
  - split_and!.
    + split; [by intros [e ?]|by intros [? _]].
    + done.
    + intros sg [= <-]. split_and!.
      * rewrite slice_map_length. lia.
      * apply slice_map_ids_NoDup.
      * apply slice_map_texts.
      * intros n s Hs. by apply slice_map_lookup in Hs as (_ & ? & ?).
  - case_bool_decide as Hp.
    + split_and!.
      * split; [done|]. intros _. by eexists.
      * done.
      * done.
    + split_and!.
      * split; [by intros [e ?]|by intros [_ ?]].
      * done.
      * intros sg [= <-]. split_and!; [cbn; lia|constructor|done|done].
Qed.

(** X11. After an update that returned true (the key not being
    [__proto__]), [getRuleConfiguration] lists the rule once, with the new
    number under the key; the entries of the other rules are as before and
    the listing has the same length. *)
Theorem getRuleConfiguration_round_trip (this : RulesEngine) (rid key : string) (v : Qc) :
  (updateRuleThreshold this rid key v).1 = Return true → key ≠ "__proto__" →
  ∃ r',
    (rid, r') ∈ getRuleConfiguration (updateRuleThreshold this rid key v).2
    ∧ thresholds r' !! key = Some (TNum v)
    ∧ (∀ r'', (rid, r'') ∈ getRuleConfiguration (updateRuleThreshold this rid key v).2 →
              r'' = r')
    ∧ (∀ id r, id ≠ rid →
         (id, r) ∈ getRuleConfiguration (updateRuleThreshold this rid key v).2
         ↔ (id, r) ∈ getRuleConfiguration this)
    ∧ length (getRuleConfiguration (updateRuleThreshold this rid key v).2)
      = length (getRuleConfiguration this).
Proof.
  intros Htrue Hkey. unfold getRuleConfiguration.
  destruct (updateRuleThreshold_cases this rid key v)
    as [[_ Hne]|(r & Hr & _ & Heq)]; [done|].
  rewrite Heq. cbn [snd set_threshold rules].
  eexists. split_and!.
  - apply elem_of_map_to_list. apply lookup_insert_eq.
  - cbn. unfold js_set.
    destruct (thresholds r !! key); [by rewrite lookup_insert_eq|].
    rewrite bool_decide_eq_false_2 by done. by rewrite lookup_insert_eq.
  - intros r'' Hin. apply elem_of_map_to_list in Hin.
    rewrite lookup_insert_eq in Hin. by injection Hin as <-.
  - intros id r0 Hne. rewrite !elem_of_map_to_list. by rewrite lookup_insert_ne.
  - rewrite !length_map_to_list. apply map_size_insert_Some. by eexists.
Qed.

Lemma getRuleConfiguration_round_trip_witness :
  ∃ r',
    (("rageClicks", r')
       ∈ getRuleConfiguration
           (updateRuleThreshold sample_engine "rageClicks" "timeWindow" (Qc_of_Z 1500)).2)
    ∧ thresholds r' !! "timeWindow" = Some (TNum (Qc_of_Z 1500))
    ∧ length (getRuleConfiguration
                (updateRuleThreshold sample_engine "rageClicks" "timeWindow"
                   (Qc_of_Z 1500)).2)
      = length (getRuleConfiguration sample_engine).
Proof.
  destruct (updateRuleThreshold_known sample_engine "rageClicks" "timeWindow"
              (Qc_of_Z 1500) rageClicks_rule (TNum (Qc_of_Z 2000)) eq_refl eq_refl)
    as (this' & r0 & Hupd & _).
  destruct (getRuleConfiguration_round_trip sample_engine "rageClicks" "timeWindow"
              (Qc_of_Z 1500)) as (r' & Hin & Ht & _ & _ & Hlen).
  - rewrite Hupd. reflexivity.
  - intros Heq. discriminate Heq.
  - exists r'. split; [exact Hin|]. split; [exact Ht|exact Hlen].
Defined.

(** ** Rage clicks: what is flagged and what is reported *)

Section rage_metrics.
Context (tw cw : Qc) (evs : list event).
Hypothesis Hnodup : NoDup evs.
Hypothesis Hdistinct : distinct_click_times evs.
Hypothesis Htw : (0 ≤ tw)%Qc.

Lemma rage_rows_metrics (mo : Qc) (row : rage_row) :
  row ∈ rage_clicks_query tw cw mo evs →
  ∃ sel, rg_element_selector row = Some sel
    ∧ rg_affected_sessions row = length (rage_sessions tw cw evs (rg_page_url row) sel).
Proof.
  unfold rage_clicks_query.
  intros [_ ([osel pg] & Hk & ->)]%elem_of_grouped.
  apply list_elem_of_fmap in Hk as (s & Hks & Hs).
  rewrite rage_click_sessions_eq in Hs.
  apply list_elem_of_fmap in Hs as ([[sess osel'] pg'] & -> & Hin).
  cbn in Hks. injection Hks as -> ->.
  apply elem_of_remove_dups, list_elem_of_fmap in Hin as (r & Hr & Hin).
  apply (rapid_sequences_elem tw cw evs Hnodup Hdistinct Htw) in Hin
    as (e & _ & _ & [sel Hsel] & _ & ->).
  cbn in Hr. injection Hr as _ -> _.
  exists sel. split; [done|]. cbn [rage_row_select rg_affected_sessions rg_page_url fst snd].
  rewrite Hsel. by apply affected_sessions_eq.
Qed.
End rage_metrics.



(** ** getAggregatedMetrics: the contents of the snapshot *)

Lemma deliver_other s now st key k :
  k ≠ key → agg_results (deliver s now st key) !! k = agg_results st !! k.
Proof.
  intros Hne. unfold deliver.
  destruct (list_find _ (metric_queries now)) as [[i [k' [q run]]]|]; [|done].
  unfold db_all. destruct (read_error s q); [done|]. cbn.
  by rewrite lookup_insert_ne.
Qed.

Lemma deliver_value s now st key q run :
  (∀ q, read_error s q = None) → (key, (q, run)) ∈ metric_queries now →
  agg_results (deliver s now st key) !! key = Some (run (events s)).
Proof.
  intros Hok Hin. unfold metric_queries in Hin.
  repeat (apply elem_of_cons in Hin as [Heq|Hin];
          [inversion Heq; subst; unfold deliver; cbn;
           repeat (rewrite decide_False by done); rewrite decide_True by done;
           cbn; unfold db_all; rewrite Hok; cbn; apply lookup_insert_eq|]).
  by apply elem_of_nil in Hin.
Qed.

Lemma results_values s now arrival key q run :
  (∀ q, read_error s q = None) → (key, (q, run)) ∈ metric_queries now →
  key ∈ arrival →
  agg_results (getAggregatedMetrics s now arrival) !! key = Some (run (events s)).
Proof.
  intros Hok Hq. unfold getAggregatedMetrics.
  induction arrival as [|x l IH] using rev_ind; [by intros ?%elem_of_nil|].
  intros Hin. rewrite foldl_snoc. destruct (decide (key = x)) as [<-|Hne].
  - by eapply deliver_value.
  - rewrite deliver_other by done. apply IH.
    apply elem_of_app in Hin as [Hin|Hin]; [done|].
    by apply list_elem_of_singleton in Hin.
Qed.

Lemma results_absent s now arrival k :
  k ∉ arrival → agg_results (getAggregatedMetrics s now arrival) !! k = None.
Proof.
  unfold getAggregatedMetrics.
  induction arrival as [|x l IH] using rev_ind; [done|].
  intros Hnin. rewrite foldl_snoc, deliver_other.
  - apply IH. intros Hin. apply Hnin, elem_of_app. by left.
  - intros ->. apply Hnin, elem_of_app. right. left.
Qed.

Lemma snapshot_is_results s now arrival :
  (∀ q, read_error s q = None) → arrival ≡ₚ metric_keys →
  agg_promise (getAggregatedMetrics s now arrival)
  = Fulfilled (agg_results (getAggregatedMetrics s now arrival)).
Proof.
  intros Hok Hperm.
  assert (∀ k, k ∈ arrival → k ∈ metric_keys) as Hsub.
  { intros k. by rewrite Hperm. }
  assert (∀ k, read_ok s now k = true ∨ k ∉ metric_keys) as Hall.
  { intros k. destruct (decide (k ∈ metric_keys)) as [Hk|Hk]; [left|by right].
    unfold read_ok. destruct (find_metric_key now k Hk) as (i & q & run & ->).
    by rewrite Hok. }
  pose proof (Permutation_length Hperm) as Hlen. cbn in Hlen.
  destruct arrival as [|x l _] using rev_ind; [done|].
  rewrite length_app in Hlen. cbn in Hlen.
  assert (filter (λ k, Is_true (read_ok s now k)) l = l) as Hfl.
  { clear -Hall Hsub. induction l as [|y l IH]; [done|].
    rewrite filter_cons_True.
    - f_equal. apply IH. intros k Hk. apply Hsub. by right.
    - destruct (Hall y) as [->|Hy]; [done|]. exfalso. apply Hy, Hsub. left. }
  pose proof (completed_count s now l) as Hcount. rewrite Hfl in Hcount.
  assert (agg_promise (getAggregatedMetrics s now l) = Pending) as Hpend.
  { destruct (agg_promise (getAggregatedMetrics s now l)) as [|m|e] eqn:Hp; [done| |].
    - exfalso. revert Hp. apply not_fulfilled_before_all.
      rewrite Hfl. cbn [metric_queries length]. lia.
    - exfalso. revert Hp. by apply never_failed. }
  unfold getAggregatedMetrics in *. rewrite foldl_snoc.
  destruct (deliver_resolved s now (foldl (deliver s now) (Aggregation ∅ 0 Pending) l) x)
    as [rows ->]; [done|apply Hsub, elem_of_app; right; left|].
  unfold on_rows. cbn [agg_promise agg_results agg_completed].
  rewrite Hpend, Hcount.
  rewrite bool_decide_eq_true_2; [done|lia].
Qed.

Lemma length_remove_dups_le {A} `{EqDecision A} (l : list A) :
  (length (remove_dups l) ≤ length l)%nat.
Proof.
  induction l as [|x l IH]; [done|]. cbn. case_decide; cbn; lia.
Qed.





(** ** The ranked metrics *)

Global Instance count_desc_trans {K} : Transitive (@count_desc K).
Proof. intros x y z. unfold count_desc. lia. Qed.

Global Instance count_desc_total {K} : Total (@count_desc K).
Proof. intros x y. unfold count_desc. lia. Qed.

(** [ORDER BY n DESC LIMIT n] over [GROUP BY key]. *)
Lemma top_n_spec {A K} `{EqDecision K} (key : A → K) (n : nat) (l : list A) :
  let rows := take n (merge_sort count_desc
                        ((λ g : K * list A, (g.1, length g.2)) <$> group_by key l)) in
  (length rows ≤ n)%nat
  ∧ NoDup (rows.*1)
  ∧ StronglySorted count_desc rows
  ∧ (∀ k c, (k, c) ∈ rows →
       k ∈ key <$> l ∧ c = length (filter (λ a, key a = k) l) ∧ (0 < c)%nat)
  ∧ (∀ k, k ∈ key <$> l →
       (k, length (filter (λ a, key a = k) l)) ∈ rows
       ∨ (length rows = n
          ∧ ∀ r, r ∈ rows → (length (filter (λ a, key a = k) l) ≤ r.2)%nat)).
Proof.
  set (all := (λ g : K * list A, (g.1, length g.2)) <$> group_by key l).
  set (sorted := merge_sort count_desc all). intros rows.
  assert (∀ k c, (k, c) ∈ sorted
                 ↔ k ∈ key <$> l ∧ c = length (filter (λ a, key a = k) l)) as Hsorted.
  { intros k c. unfold sorted. rewrite elem_of_merge_sort. unfold all.
    rewrite list_elem_of_fmap. split.
    - intros ([k' g] & [= -> ->] & Hg). apply elem_of_group_by in Hg as [Hk ->]. done.
    - intros [Hk ->]. eexists (k, _). split; [done|]. by apply elem_of_group_by. }
  assert (StronglySorted count_desc sorted) as Hss.
  { apply StronglySorted_merge_sort; apply _. }
  assert (sorted = rows ++ drop n sorted)%list as Hsplit by (symmetry; apply take_drop).
  split_and!.
  - unfold rows. rewrite length_take. lia.
  - apply (sublist_NoDup _ (sorted.*1)); [|apply fmap_sublist, sublist_take].
    unfold sorted. rewrite merge_sort_Permutation. unfold all.
    rewrite <- list_fmap_compose. unfold group_by. rewrite <- list_fmap_compose.
    rewrite (list_fmap_ext _ id (remove_dups (key <$> l))) by done.
    rewrite list_fmap_id. apply NoDup_remove_dups.
  - rewrite Hsplit in Hss. by apply StronglySorted_app_1_l in Hss.
  - intros k c Hin.
    assert ((k, c) ∈ sorted) as Hin' by (rewrite Hsplit; apply elem_of_app; by left).
    apply Hsorted in Hin' as [Hk ->]. split_and!; [done..|].
    apply list_elem_of_fmap in Hk as (a & -> & Ha).
    assert (a ∈ filter (λ a0, key a0 = key a) l) as Hf by (by apply list_elem_of_filter).
    destruct (filter (λ a0, key a0 = key a) l); [by apply elem_of_nil in Hf|cbn; lia].
  - intros k Hk.
    assert ((k, length (filter (λ a, key a = k) l)) ∈ sorted) as Hin by (by apply Hsorted).
    rewrite Hsplit in Hin. apply elem_of_app in Hin as [Hin|Hin]; [by left|right].
    split.
    + unfold rows. apply length_take_le.
      destruct (decide (n ≤ length sorted)%nat) as [?|Hlt]; [done|].
      rewrite drop_ge in Hin by lia. by apply elem_of_nil in Hin.
    + intros r Hr. rewrite Hsplit in Hss.
      apply (StronglySorted_app_1_elem_of _ _ _ _ _ Hss Hr Hin).
Qed.

Lemma clicks_on_group (evs : list event) (sel : string) :
  filter (λ e, element_selector e = Some sel)
    (filter (λ e, Is_true (is_click e && bool_decide (is_Some (element_selector e)))) evs)
  = clicks_on evs sel.
Proof.
  rewrite list_filter_filter. apply list_filter_iff. intros e. unfold is_click. split.
  - intros [Hs Hc]. apply andb_prop_elim in Hc as [Hc _].
    apply bool_decide_unpack in Hc. done.
  - intros [Hc Hs]. split; [done|]. rewrite Hs.
    apply andb_prop_intro. split; apply bool_decide_pack; [done|by eexists].
Qed.

(** X14. [topClickedElements] is the top ten: at most ten rows, no selector
    twice, in descending order of clicks; each row is a non-null selector
    with the number of its click rows, which is positive; and a clicked
    selector that is not listed has no more clicks than any listed one,
    which happens only when ten rows are listed. *)
Theorem top_clicked_elements_top (evs : list event) :
  ∃ rows, top_clicked_elements evs = TopClickedRows rows
    ∧ (length rows ≤ 10)%nat
    ∧ NoDup (rows.*1)
    ∧ StronglySorted count_desc rows
    ∧ (∀ osel c, (osel, c) ∈ rows →
         ∃ sel, osel = Some sel ∧ c = length (clicks_on evs sel) ∧ (0 < c)%nat)
    ∧ (∀ sel, clicks_on evs sel ≠ [] →
         (Some sel, length (clicks_on evs sel)) ∈ rows
         ∨ (length rows = 10%nat
            ∧ ∀ r, r ∈ rows → (length (clicks_on evs sel) ≤ r.2)%nat)).
Proof.
  eexists. split; [done|].
  destruct (top_n_spec element_selector 10
              (filter (λ e, Is_true (is_click e && bool_decide (is_Some (element_selector e))))
                 evs)) as (Hlen & Hnd & Hss & Hrows & Htop).
  split_and!; [done..| |].
  - intros osel c Hin. apply Hrows in Hin as (Hk & -> & Hpos).
    apply list_elem_of_fmap in Hk as (e & -> & [He _]%list_elem_of_filter).
    apply andb_prop_elim in He as [_ Hs]. apply bool_decide_unpack in Hs as [sel Hs].
    exists sel. rewrite Hs in Hpos |- *. by rewrite clicks_on_group in Hpos |- *.
  - intros sel Hne.
    destruct (clicks_on evs sel) as [|e rest] eqn:Hc; [done|].
    assert (e ∈ clicks_on evs sel) as He by (rewrite Hc; left).
    rewrite <- clicks_on_group in He. apply list_elem_of_filter in He as [Hs He].
    destruct (Htop (Some sel)) as [Hin|[Hfull Hall]].
    + apply list_elem_of_fmap. by exists e.
    + left. by rewrite clicks_on_group, Hc in Hin.
    + right. split; [done|]. intros r Hr. specialize (Hall r Hr).
      by rewrite clicks_on_group, Hc in Hall.
Qed.

Lemma recent_events_group (now : Z) (evs : list event) (page : string) :
  filter (λ e, page_url e = page) (filter (λ e, now - 3600 < created_at e)%Z evs)
  = recent_events now evs page.
Proof.
  rewrite list_filter_filter. apply list_filter_iff. intros e. tauto.
Qed.

(** X15. [recentActivity] is the top five of the pages by the number of
    rows written during the last hour: at most five rows, no page twice, in
    descending order; each row carries the number of such rows of its page,
    which is positive; a page with such rows that is not listed has no more
    of them than any listed one, which happens only when five rows are
    listed. *)
Theorem recent_activity_top (now : Z) (evs : list event) :
  ∃ rows, recent_activity now evs = RecentActivityRows rows
    ∧ (length rows ≤ 5)%nat
    ∧ NoDup (rows.*1)
    ∧ StronglySorted count_desc rows
    ∧ (∀ page c, (page, c) ∈ rows →
         c = length (recent_events now evs page) ∧ (0 < c)%nat)
    ∧ (∀ page, recent_events now evs page ≠ [] →
         (page, length (recent_events now evs page)) ∈ rows
         ∨ (length rows = 5%nat
            ∧ ∀ r, r ∈ rows → (length (recent_events now evs page) ≤ r.2)%nat)).
Proof.
  eexists. split; [done|].
  destruct (top_n_spec page_url 5 (filter (λ e, now - 3600 < created_at e)%Z evs))
    as (Hlen & Hnd & Hss & Hrows & Htop).
  split_and!; [done..| |].
  - intros page c Hin. apply Hrows in Hin as (_ & -> & Hpos).
    by rewrite recent_events_group in Hpos |- *.
  - intros page Hne.
    destruct (recent_events now evs page) as [|e rest] eqn:Hc; [done|].
    assert (e ∈ recent_events now evs page) as He by (rewrite Hc; left).
    rewrite <- recent_events_group in He. apply list_elem_of_filter in He as [Hs He].
    destruct (Htop page) as [Hin|[Hfull Hall]].
    + apply list_elem_of_fmap. by exists e.
    + left. by rewrite recent_events_group, Hc in Hin.
    + right. split; [done|]. intros r Hr. specialize (Hall r Hr).
      by rewrite recent_events_group, Hc in Hall.
Qed.

(** ** The average scroll depth *)

Lemma sum_Qc_bounds (lo hi : Qc) (l : list Qc) :
  (∀ d, d ∈ l → (lo ≤ d)%Qc ∧ (d ≤ hi)%Qc) →
  (Qc_of_nat (length l) * lo ≤ sum_Qc l)%Qc ∧ (sum_Qc l ≤ Qc_of_nat (length l) * hi)%Qc.
Proof.
  induction l as [|x l IH]; intros Hall.
  - cbn [length sum_Qc foldr]. unfold Qc_of_nat. change (Z.of_nat 0) with 0%Z.
    rewrite Z2Qc_inj_0, !Qcmult_0_l. split; apply Qcle_refl.
  - cbn [length sum_Qc foldr]. rewrite Qc_of_nat_S.
    destruct IH as [IH1 IH2]; [intros d Hd; apply Hall; by right|].
    destruct (Hall x) as [Hx1 Hx2]; [left|].
    replace ((Qc_of_nat (length l) + 1) * lo)%Qc
      with (lo + Qc_of_nat (length l) * lo)%Qc by ring.
    replace ((Qc_of_nat (length l) + 1) * hi)%Qc
      with (hi + Qc_of_nat (length l) * hi)%Qc by ring.
    split; by apply Qcplus_le_compat.
Qed.

Lemma Qc_div_bounds (x n lo hi : Qc) :
  (0 < n)%Qc → (n * lo ≤ x)%Qc → (x ≤ n * hi)%Qc → (lo ≤ x / n)%Qc ∧ (x / n ≤ hi)%Qc.
Proof.
  intros Hn Hlo Hhi.
  assert (x / n * n = x)%Qc as Hx.
  { unfold Qcdiv. rewrite <- Qcmult_assoc, (Qcmult_comm (/ n)), Qcmult_inv_r.
    - by rewrite Qcmult_1_r.
    - intros ->. by apply Qclt_not_eq in Hn. }
  split; apply (Qcmult_le_mono_pos_r _ _ n Hn); rewrite Hx.
  - by rewrite (Qcmult_comm lo).
  - by rewrite (Qcmult_comm hi).
Qed.

Lemma omap_scroll_depth_length (l : list event) :
  (∀ e, e ∈ l → is_Some (scroll_depth e)) → length (omap scroll_depth l) = length l.
Proof.
  induction l as [|e l IH]; [done|]. intros Hall.
  destruct (Hall e) as [d Hd]; [left|]. cbn. rewrite Hd. cbn. f_equal.
  apply IH. intros e' He'. apply Hall. by right.
Qed.



(** ** insertEvents *)

Lemma foldr_max_base (b : Z) (l : list Z) :
  (b ≤ foldr Z.max b l)%Z ∧ ∀ x, x ∈ l → (x ≤ foldr Z.max b l)%Z.
Proof.
  induction l as [|y l [IH1 IH2]]; cbn.
  - split; [lia|]. by intros x ?%elem_of_nil.
  - split; [lia|]. intros x [->|Hx]%elem_of_cons; [lia|].
    specialize (IH2 x Hx). lia.
Qed.

Lemma next_row_id_fresh (d : Database) :
  (sqlite_sequence d < next_row_id d)%Z
  ∧ ∀ old, old ∈ events (store d) → (row_id old < next_row_id d)%Z.
Proof.
  unfold next_row_id.
  destruct (foldr_max_base (sqlite_sequence d) (row_id <$> events (store d))) as [H1 H2].
  split; [lia|]. intros old Hold.
  assert (row_id old ∈ row_id <$> events (store d)) as Hin.
  { apply list_elem_of_fmap. by exists old. }
  specialize (H2 _ Hin). lia.
Qed.

Lemma insert_row_Some d created ev d' :
  insert_row d created ev = Some d' →
  ∃ row, row_of ev row ∧ row_id row = next_row_id d ∧ created_at row = created
    ∧ events (store d') = (events (store d) ++ [row])%list
    ∧ read_error (store d') = read_error (store d)
    ∧ sqlite_sequence d' = next_row_id d.
Proof.
  unfold insert_row. destruct ev as [[s|] [p|] [t|] sel x y sd [ts|]]; cbn; try done.
  intros [= <-]. exists (Event (next_row_id d) s p t sel x y sd ts created).
  unfold row_of. cbn. by split_and!.
Qed.

Lemma insert_row_required d created ev :
  is_Some (insert_row d created ev) ↔ required_present ev.
Proof.
  unfold insert_row, required_present.
  destruct ev as [[s|] [p|] [t|] sel x y sd [ts|]]; cbn;
    (split;
     [intros [? ?]; try done; split_and!; by eexists
     |intros ([? ?] & [? ?] & [? ?] & [? ?]); try done; by eexists]).
Qed.

Lemma insert_rows_spec d clock i evs d' :
  insert_rows d clock i evs = Some d' →
  ∃ rows,
    events (store d') = (events (store d) ++ rows)%list
    ∧ read_error (store d') = read_error (store d)
    ∧ length rows = length evs
    ∧ (∀ n ev, evs !! n = Some ev →
         ∃ row, rows !! n = Some row ∧ row_of ev row ∧ created_at row = clock (i + n)%nat)
    ∧ (∀ row, row ∈ rows →
         (sqlite_sequence d < row_id row)%Z
         ∧ (row_id row ≤ sqlite_sequence d')%Z
         ∧ ∀ old, old ∈ events (store d) → (row_id old < row_id row)%Z)
    ∧ StronglySorted Z.lt (row_id <$> rows)
    ∧ (sqlite_sequence d ≤ sqlite_sequence d')%Z.
Proof.
  revert d i. induction evs as [|ev evs IH]; intros d i Hrun.
  - cbn in Hrun. injection Hrun as <-. exists []. rewrite app_nil_r.
    split_and!; try done.
    + by intros row ?%elem_of_nil.
    + constructor.
  - cbn in Hrun. destruct (insert_row d (clock i) ev) as [d1|] eqn:H1; [|done].
    cbn in Hrun.
    apply insert_row_Some in H1 as (row & Hrow & Hid & Hat & Hev & Herr & Hseq).
    apply IH in Hrun as (rows & Hev' & Herr' & Hlen & Hmap & Hfresh & Hsorted & Hle).
    destruct (next_row_id_fresh d) as [Hf1 Hf2].
    exists (row :: rows). split_and!.
    + rewrite Hev', Hev. by rewrite <- app_assoc.
    + congruence.
    + cbn. by rewrite Hlen.
    + intros [|n] ev' Hn.
      * injection Hn as <-. exists row. rewrite Nat.add_0_r. by split_and!.
      * cbn in Hn. destruct (Hmap n ev' Hn) as (row' & Hr' & Hof & Hc).
        exists row'. split_and!; [done..|]. by rewrite Nat.add_succ_r.
    + intros r [->|Hr]%elem_of_cons.
      * rewrite Hid. split_and!; [done|lia|done].
      * destruct (Hfresh r Hr) as (Hr1 & Hr2 & Hr3). split_and!; [lia|done|].
        intros old Hold. apply Hr3. rewrite Hev. apply elem_of_app. by left.
    + cbn. constructor; [done|]. apply Forall_forall.
      intros x (r & -> & Hr)%list_elem_of_fmap.
      destruct (Hfresh r Hr) as (Hr1 & _). lia.
    + lia.
Qed.

Lemma insert_rows_required d clock i evs :
  is_Some (insert_rows d clock i evs) ↔ Forall required_present evs.
Proof.
  revert d i. induction evs as [|ev evs IH]; intros d i.
  - cbn. split; [by constructor|by eexists].
  - cbn. rewrite Forall_cons, <- (insert_row_required d (clock i) ev).
    destruct (insert_row d (clock i) ev) as [d1|]; cbn.
    + rewrite IH. split; [by split; [eexists|]|by intros [_ ?]].
    + split; [by intros [? ?]|by intros [[? ?] _]].
Qed.



Lemma insert_rows_app d clock i evs1 evs2 :
  insert_rows d clock i (evs1 ++ evs2)
  = d1 ← insert_rows d clock i evs1; insert_rows d1 clock (i + length evs1) evs2.
Proof.
  revert d i. induction evs1 as [|ev evs1 IH]; intros d i.
  - cbn. by rewrite Nat.add_0_r.
  - cbn. destruct (insert_row d (clock i) ev) as [d0|]; [|done].
    cbn. rewrite IH. by rewrite Nat.add_succ_r.
Qed.

Lemma insert_rows_shift d clock k i evs :
  insert_rows d clock (k + i) evs = insert_rows d (λ n, clock (k + n)%nat) i evs.
Proof.
  revert d i. induction evs as [|ev evs IH]; intros d i; [done|].
  cbn. destruct (insert_row d (clock (k + i)%nat) ev) as [d0|]; [|done].
  cbn. by rewrite <- IH, Nat.add_succ_r.
Qed.


(** ** Dead clicks across inserts *)

Lemma Qc_of_nat_le (n m : nat) : (n ≤ m)%nat → (Qc_of_nat n ≤ Qc_of_nat m)%Qc.
Proof. intros H. unfold Qc_of_nat. apply (proj1 (Z2Qc_inj_le _ _)). lia. Qed.

(** X19. Dead clicks only accumulate: after a batch has been inserted,
    the engine working on the same database still flags every (page,
    selector) pair the dead-click detector flagged before, and no pair has
    fewer click rows than before. *)
Theorem analyzeDeadClicks_after_insert (this : RulesEngine) (d d' : Database)
    (w : World) (clock : nat → Z) (evs : list js_event) (r : rule) (minClicks : Qc) :
  db this = store d → insertEvents d clock evs = Some d' →
  rules this !! "deadClicks" = Some r →
  thresholds r !! "minClicksOnNonInteractive" = Some (TNum minClicks) →
  thresholds r !! "nonInteractiveSelectors" = Some (TList nonInteractiveSelectors_default) →
  read_error (store d) QDeadClicks = None →
  ∃ l l',
    analyzeDeadClicks this w = Resolved l
    ∧ analyzeDeadClicks (engine_on this d') w = Resolved l'
    ∧ (∀ page sel, flags_pair l page sel → flags_pair l' page sel)
    ∧ (∀ page sel,
         (length (selector_clicks (events (store d)) page sel)
          ≤ length (selector_clicks (events (store d')) page sel))%nat).
Proof.
  intros Hdb Hins Hr Hm Hs He. unfold insertEvents in Hins.
  apply insert_rows_spec in Hins as (rows & Hev & Herr & _).
  assert (∀ page sel,
            selector_clicks (events (store d')) page sel
            = (selector_clicks (events (store d)) page sel
               ++ selector_clicks rows page sel)%list) as Happ.
  { intros page sel. unfold selector_clicks. by rewrite Hev, filter_app. }
  eexists _, _. split.
  { eapply analyzeDeadClicks_run; [done..| |]; [done|by rewrite Hdb]. }
  split.
  { eapply analyzeDeadClicks_run; [done..| |]; [done|]. cbn. by rewrite Herr. }
  cbn [engine_on db]. rewrite Hdb. split.
  - intros page sel.
    rewrite !(flags_pair_imap _ _ dc_page_url dc_element_selector); [|done..].
    rewrite !dead_clicks_rows. intros (Hw & Hne & Hle). split_and!; [done| |].
    + rewrite Happ. intros [Hnil _]%app_eq_nil. done.
    + eapply Qcle_trans; [done|]. apply Qc_of_nat_le. rewrite Happ, length_app. lia.
  - intros page sel. rewrite Happ, length_app. lia.
Qed.

Lemma analyzeDeadClicks_after_insert_witness :
  ∃ d' l l',
    insertEvents sample_database (λ _, 0%Z) sample_batch = Some d'
    ∧ analyzeDeadClicks (new_RulesEngine (store sample_database)) quiet_world = Resolved l
    ∧ analyzeDeadClicks (engine_on (new_RulesEngine (store sample_database)) d') quiet_world
      = Resolved l'
    ∧ (flags_pair l "/home" "DIV.hero" → flags_pair l' "/home" "DIV.hero").
Proof.
  destruct (insertEvents sample_database (λ _, 0%Z) sample_batch) as [d'|] eqn:Hins;
    [|by vm_compute in Hins].
  destruct (analyzeDeadClicks_after_insert (new_RulesEngine (store sample_database))
              sample_database d' quiet_world (λ _, 0%Z) sample_batch deadClicks_rule
              (Qc_of_Z 5) eq_refl Hins eq_refl eq_refl eq_refl eq_refl)
    as (l & l' & Hl & Hl' & Hmono & _).
  exists d', l, l'. split; [reflexivity|]. split; [exact Hl|]. split; [exact Hl'|].
  apply Hmono.
Defined.

(** ** The update stream *)

Lemma res_write_lookup res chunk wr c :
  res_write res chunk wr !! c
  = if decide (res = c) then Some (default [] (wr !! c) ++ [chunk])%list else wr !! c.
Proof.
  unfold res_write. case_decide as Hc.
  - subst. by rewrite lookup_insert_eq.
  - by rewrite lookup_insert_ne.
Qed.

Lemma broadcast_lookup chunk (l : list nat) wr c :
  NoDup l →
  foldl (λ wr client, res_write client chunk wr) wr l !! c
  = if decide (c ∈ l) then Some (default [] (wr !! c) ++ [chunk])%list else wr !! c.
Proof.
  induction l as [|x l IH] using rev_ind; intros Hnd; [done|].
  apply NoDup_app in Hnd as (Hnd & Hdisj & _).
  rewrite foldl_snoc, res_write_lookup, IH by done.
  destruct (decide (x = c)) as [->|Hne].
  - rewrite decide_False; [|intros Hin; by apply (Hdisj c Hin), list_elem_of_singleton].
    rewrite decide_True; [done|]. apply elem_of_app. right. left.
  - destruct (decide (c ∈ l)) as [Hin|Hnin].
    + rewrite decide_True; [done|]. apply elem_of_app. by left.
    + rewrite decide_False; [done|]. intros [?|Hx%list_elem_of_singleton]%elem_of_app; by subst.
Qed.

Lemma handle_NoDup st rq : NoDup (sseClients st) → NoDup (sseClients (handle st rq)).
Proof.
  intros Hnd. destruct rq as [res now|res|valid inserted]; cbn.
  - unfold set_add. case_decide; [done|]. apply NoDup_app. split_and!; [done| |].
    + intros x Hx Hin%list_elem_of_singleton. by subst.
    + apply NoDup_singleton.
  - by apply NoDup_filter.
  - unfold post_events. destruct valid; [|done]. by destruct inserted.
Qed.

Lemma serve_NoDup rqs : NoDup (sseClients (serve rqs)).
Proof.
  unfold serve. induction rqs as [|rq rqs IH] using rev_ind; [constructor|].
  rewrite foldl_snoc. by apply handle_NoDup.
Qed.

(** A request about another stream, or a batch, as seen by [res]. *)
Lemma handle_other st rq res :
  NoDup (sseClients st) → about res rq = false →
  (res ∈ sseClients (handle st rq) ↔ res ∈ sseClients st)
  ∧ written (handle st rq) !! res
    = if decide (res ∈ sseClients st ∧ Is_true (accepted rq))
      then Some (default [] (written st !! res) ++ [data_chunk metrics_update_json])%list
      else written st !! res.
Proof.
  intros Hnd Hrq. destruct rq as [r now|r|valid inserted]; cbn in Hrq |- *.
  - apply bool_decide_eq_false in Hrq. split.
    + unfold set_add. case_decide; [done|]. rewrite elem_of_app, list_elem_of_singleton.
      split; [intros [?|?]; [done|by subst]|by left].
    + rewrite res_write_lookup, decide_False by done.
      rewrite decide_False; [done|]. by intros [_ ?].
  - apply bool_decide_eq_false in Hrq. split.
    + unfold set_delete. rewrite list_elem_of_filter. split; [by intros [_ ?]|].
      intros Hin. split; [|done]. by intros ->.
    + rewrite decide_False; [done|]. by intros [_ ?].
  - unfold post_events. destruct valid; cbn.
    + destruct inserted as [u|e]; cbn.
      * split; [done|]. rewrite broadcast_lookup by done.
        destruct (decide (res ∈ sseClients st)) as [Hin|Hnin].
        -- by rewrite decide_True.
        -- rewrite decide_False; [done|]. by intros [? _].
      * split; [done|]. rewrite decide_False; [done|]. by intros [_ ?].
    + split; [done|]. rewrite decide_False; [done|]. by intros [_ ?].
Qed.

(** Once the stream is closed, nothing but a new registration writes to it. *)
Lemma handle_absent st rq res :
  NoDup (sseClients st) → opens res rq = false → res ∉ sseClients st →
  (res ∉ sseClients (handle st rq))
  ∧ written (handle st rq) !! res = written st !! res.
Proof.
  intros Hnd Hrq Hnin. destruct rq as [r now|r|valid inserted]; cbn in Hrq |- *.
  - apply bool_decide_eq_false in Hrq. split.
    + unfold set_add. case_decide; [done|]. rewrite elem_of_app, list_elem_of_singleton.
      intros [?|?]; [done|by subst].
    + by rewrite res_write_lookup, decide_False.
  - split; [|done]. unfold set_delete. rewrite list_elem_of_filter. by intros [_ ?].
  - unfold post_events. destruct valid; cbn; [|done].
    destruct inserted as [u|e]; cbn; [|done].
    split; [done|]. rewrite broadcast_lookup by done. by rewrite decide_False.
Qed.

Lemma serve_absent pre res :
  (∀ rq, rq ∈ pre → about res rq = false) →
  (res ∉ sseClients (serve pre)) ∧ written (serve pre) !! res = None.
Proof.
  unfold serve. induction pre as [|rq pre IH] using rev_ind; intros Hpre.
  - split; [by intros ?%elem_of_nil|done].
  - rewrite foldl_snoc.
    destruct IH as [IH1 IH2]; [intros rq' Hin; apply Hpre, elem_of_app; by left|].
    assert (about res rq = false) as Hrq by (apply Hpre, elem_of_app; right; left).
    destruct (handle_absent (foldl handle (SseState [] ∅) pre) rq res) as [H1 H2].
    + apply serve_NoDup.
    + destruct rq; cbn in Hrq |- *; done.
    + done.
    + split; [done|]. by rewrite H2.
Qed.

Lemma foldl_handle_registered st post res log :
  NoDup (sseClients st) → res ∈ sseClients st → written st !! res = Some log →
  (∀ rq, rq ∈ post → about res rq = false) →
  NoDup (sseClients (foldl handle st post))
  ∧ res ∈ sseClients (foldl handle st post)
  ∧ written (foldl handle st post) !! res
    = Some (log ++ replicate (length (filter (λ rq, Is_true (accepted rq)) post))
                     (data_chunk metrics_update_json))%list.
Proof.
  intros Hnd Hin Hlog. induction post as [|rq post IH] using rev_ind; intros Hpost.
  - cbn. by rewrite app_nil_r.
  - rewrite foldl_snoc.
    destruct IH as (IH0 & IH1 & IH2); [intros rq' Hin'; apply Hpost, elem_of_app; by left|].
    assert (about res rq = false) as Hrq by (apply Hpost, elem_of_app; right; left).
    destruct (handle_other (foldl handle st post) rq res IH0 Hrq) as [H1 H2].
    split; [by apply handle_NoDup|]. split; [by apply H1|].
    rewrite H2, IH2, filter_app, length_app. cbn [default from_option id].
    destruct (accepted rq) eqn:Hacc.
    + rewrite decide_True by done. rewrite filter_cons_True by (by apply Is_true_true_2).
      cbn [filter list_filter length]. rewrite <- app_assoc. do 2 f_equal.
      rewrite Nat.add_1_r. by rewrite replicate_S_end.
    + rewrite decide_False by (by intros [_ ?]).
      rewrite filter_cons_False by (by apply Is_true_false_2).
      cbn [filter list_filter length]. by rewrite Nat.add_0_r.
Qed.

Lemma foldl_handle_absent st later res :
  NoDup (sseClients st) → res ∉ sseClients st →
  (∀ rq, rq ∈ later → opens res rq = false) →
  written (foldl handle st later) !! res = written st !! res
  ∧ (res ∉ sseClients (foldl handle st later))
  ∧ NoDup (sseClients (foldl handle st later)).
Proof.
  intros Hnd Hnin. induction later as [|rq later IH] using rev_ind; intros Hl; [done|].
  rewrite foldl_snoc.
  destruct IH as (IH1 & IH2 & IH3); [intros rq' Hin'; apply Hl, elem_of_app; by left|].
  assert (opens res rq = false) as Hrq by (apply Hl, elem_of_app; right; left).
  destruct (handle_absent (foldl handle st later) rq res IH3 Hrq IH2) as [H1 H2].
  split_and!; [congruence|done|by apply handle_NoDup].
Qed.

(** X20. What a listener of [/metrics/stream] receives.  A response that
    registers after the requests [pre] and sees the requests [post] while
    registered has been written its ping and then one [metrics_update]
    message for each batch of [post] that was valid and inserted, in that
    order: nothing of what was accepted before it registered, nothing for a
    batch that was refused or whose insert failed.  After its connection
    has closed nothing more is written to it, whatever follows short of
    the same response registering again. *)
Theorem stream_delivery (pre post later : list request) (res : nat) (now : Z) :
  (∀ rq, rq ∈ pre → about res rq = false) →
  (∀ rq, rq ∈ post → about res rq = false) →
  (∀ rq, rq ∈ later → opens res rq = false) →
  written (serve (pre ++ StreamOpened res now :: post)) !! res
  = Some (ping_chunk now
          :: replicate (length (filter (λ rq, Is_true (accepted rq)) post))
               (data_chunk metrics_update_json))
  ∧ written (serve (pre ++ StreamOpened res now :: post ++ StreamClosed res :: later)) !! res
    = written (serve (pre ++ StreamOpened res now :: post)) !! res.
Proof.
  intros Hpre Hpost Hlater.
  destruct (serve_absent pre res Hpre) as [Hnin Hnone].
  set (st1 := handle (serve pre) (StreamOpened res now)).
  assert (NoDup (sseClients st1)) as Hnd1 by apply handle_NoDup, serve_NoDup.
  assert (res ∈ sseClients st1) as Hin1.
  { unfold st1. cbn. unfold set_add. rewrite decide_False by done.
    apply elem_of_app. right. left. }
  assert (written st1 !! res = Some [ping_chunk now]) as Hlog1.
  { unfold st1. cbn. rewrite res_write_lookup, decide_True by done. by rewrite Hnone. }
  destruct (foldl_handle_registered st1 post res _ Hnd1 Hin1 Hlog1 Hpost)
    as (Hnd2 & Hin2 & Hlog2).
  assert (serve (pre ++ StreamOpened res now :: post) = foldl handle st1 post) as Hserve.
  { unfold serve. by rewrite foldl_app. }
  split.
  - by rewrite Hserve, Hlog2.
  - replace (pre ++ StreamOpened res now :: post ++ StreamClosed res :: later)%list
      with ((pre ++ StreamOpened res now :: post) ++ StreamClosed res :: later)%list
      by (by rewrite <- app_assoc).
    unfold serve at 1. rewrite foldl_app. fold (serve (pre ++ StreamOpened res now :: post)).
    cbn [foldl]. rewrite Hserve.
    set (st2 := foldl handle st1 post) in *.
    destruct (foldl_handle_absent (handle st2 (StreamClosed res)) later res) as (Hw & _).
    + by apply handle_NoDup.
    + cbn. unfold set_delete. rewrite list_elem_of_filter. by intros [? _].
    + done.
    + by rewrite Hw.
Qed.

Lemma stream_delivery_witness :
  written (serve ([EventsPosted true (Resolved ())]
                  ++ StreamOpened 1 1700000000000
                     :: [EventsPosted true (Resolved ()); EventsPosted false (Resolved ());
                         StreamOpened 2 1700000000500;
                         EventsPosted true (Rejected "SQLITE_BUSY");
                         EventsPosted true (Resolved ())])) !! 1%nat
  = Some [ping_chunk 1700000000000; data_chunk metrics_update_json;
          data_chunk metrics_update_json].
Proof.
  refine (proj1 (stream_delivery [EventsPosted true (Resolved ())]
                   [EventsPosted true (Resolved ()); EventsPosted false (Resolved ());
                    StreamOpened 2 1700000000500;
                    EventsPosted true (Rejected "SQLITE_BUSY");
                    EventsPosted true (Resolved ())]
                   [] 1%nat 1700000000000 _ _ _)).
  - intros rq Hrq. apply list_elem_of_singleton in Hrq as ->. reflexivity.
  - intros rq Hrq.
    repeat (apply elem_of_cons in Hrq as [->|Hrq]; [reflexivity|]).
    by apply elem_of_nil in Hrq.
  - intros rq Hrq. by apply elem_of_nil in Hrq.
Defined.

(** X21. [POST /events] in any state the server can reach: the status is
    200 exactly when the body was valid and the insert resolved, 400
    exactly when the body was invalid, 500 exactly when the insert was
    rejected.  Without a 200 the stream state is untouched; with a 200 every
    registered response is written exactly one [metrics_update] message and
    no other response is written to.  The set of listeners is never
    changed. *)
Theorem post_events_broadcast (rqs : list request) (valid : bool)
    (inserted : result unit) :
  let st := serve rqs in
  ((post_events valid inserted st).1 = 200%nat
   ↔ valid = true ∧ ∃ u, inserted = Resolved u)
  ∧ ((post_events valid inserted st).1 = 400%nat ↔ valid = false)
  ∧ ((post_events valid inserted st).1 = 500%nat
     ↔ valid = true ∧ ∃ e, inserted = Rejected e)
  ∧ ((post_events valid inserted st).1 ≠ 200%nat → (post_events valid inserted st).2 = st)
  ∧ sseClients (post_events valid inserted st).2 = sseClients st
  ∧ ((post_events valid inserted st).1 = 200%nat →
     ∀ res,
       written (post_events valid inserted st).2 !! res
       = if decide (res ∈ sseClients st)
         then Some (default [] (written st !! res) ++ [data_chunk metrics_update_json])%list
         else written st !! res).
Proof.
  intros st. pose proof (serve_NoDup rqs) as Hnd. fold st in Hnd.
  unfold post_events. destruct valid; [destruct inserted as [u|e]|]; cbn.
  - split_and!.
    + split; [intros _; split; [done|by eexists]|done].
    + split; intros H; discriminate H.
    + split; [intros H; discriminate H|by intros [_ [e [=]]]].
    + intros H. by destruct H.
    + done.
    + intros _ res. by apply broadcast_lookup.
  - split_and!.
    + split; [intros H; discriminate H|by intros [_ [u [=]]]].
    + split; intros H; discriminate H.
    + split; [intros _; split; [done|by eexists]|done].
    + done.
    + done.
    + intros H. discriminate H.
  - split_and!.
    + split; [intros H; discriminate H|intros [H _]; discriminate H].
    + done.
    + split; [intros H; discriminate H|intros [H _]; discriminate H].
    + done.
    + done.
    + intros H. discriminate H.
Qed.

(** ** The collector: queue and batches *)

Lemma flush_recorded c :
  recorded (flush c) = recorded c ∧ lastScrollEventTs (flush c) = lastScrollEventTs c.
Proof.
  unfold flush, recorded. destruct (queue c) as [|e q] eqn:Hq; [by rewrite Hq|].
  cbn [sent queue lastScrollEventTs]. split; [|done].
  rewrite concat_app. cbn. by rewrite !app_nil_r.
Qed.

Lemma enqueue_recorded evt c :
  recorded (enqueue evt c) = (recorded c ++ [evt])%list
  ∧ lastScrollEventTs (enqueue evt c) = lastScrollEventTs c.
Proof.
  unfold enqueue. case_decide.
  - destruct (flush_recorded (Collector (queue c ++ [evt]) (lastScrollEventTs c) (sent c)))
      as [-> ->].
    unfold recorded. cbn. by rewrite app_assoc.
  - unfold recorded. cbn. by rewrite app_assoc.
Qed.

Lemma flush_batches c : batches_ok c → batches_ok (flush c).
Proof.
  intros [Hq Hs]. unfold flush.
  destruct (queue c) as [|e q] eqn:Hqc; [split; [by rewrite Hqc|done]|].
  split; cbn [queue sent]; [unfold BATCH_SIZE; cbn; lia|].
  apply Forall_app. split; [done|]. apply Forall_singleton.
  cbn in Hq |- *. lia.
Qed.

Lemma enqueue_batches evt c : batches_ok c → batches_ok (enqueue evt c).
Proof.
  intros [Hq Hs]. unfold enqueue. cbn [queue]. case_decide as Hfull.
  - unfold flush, batches_ok. cbn [queue sent lastScrollEventTs].
    destruct (queue c ++ [evt])%list as [|e q] eqn:Hqc.
    { by apply app_nil in Hqc as [_ ?]. }
    cbn [queue sent]. split; [unfold BATCH_SIZE; cbn; lia|].
    apply Forall_app. split; [done|]. apply Forall_singleton.
    rewrite <- Hqc, length_app. cbn. unfold BATCH_SIZE in *. lia.
  - split; [cbn; lia|done].
Qed.

Lemma listen_batches sid href c ev : batches_ok c → batches_ok (listen sid href c ev).
Proof.
  intros Hok. destruct ev as [target rect x y now|py st ct sh ch now|]; cbn.
  - by apply enqueue_batches.
  - unfold on_scroll. case_decide; [done|]. apply enqueue_batches.
    destruct Hok as [? ?]. by split.
  - by apply flush_batches.
Qed.

Lemma elem_of_concat {A} (x : A) (ls : list (list A)) :
  x ∈ concat ls ↔ ∃ l, l ∈ ls ∧ x ∈ l.
Proof.
  induction ls as [|l ls IH]; cbn.
  - split; [by intros ?%elem_of_nil|by intros (l & ?%elem_of_nil & _)].
  - rewrite elem_of_app, IH. split.
    + intros [Hx|(l' & Hl' & Hx)]; [exists l; split; [left|done]|].
      exists l'. split; [by right|done].
    + intros (l' & [->|Hl']%elem_of_cons & Hx); [by left|]. right. by exists l'.
Qed.

(** X22. Whatever clicks, scrolls and timer ticks the page reports, the
    collector's queue stays below [BATCH_SIZE], every batch it hands over is
    non-empty and has at most [BATCH_SIZE] events, every event in a batch
    carries the four properties the table requires, and a timer tick
    leaves the queue empty. *)
Theorem collector_batches (sid href : string) (evs : list dom_event) :
  (length (queue (collect sid href evs)) < BATCH_SIZE)%nat
  ∧ Forall (λ b, b ≠ [] ∧ (length b ≤ BATCH_SIZE)%nat) (sent (collect sid href evs))
  ∧ Forall (Forall required_present) (sent (collect sid href evs))
  ∧ queue (collect sid href (evs ++ [FlushTimer])) = [].
Proof.
  assert (Forall required_present (recorded (collect sid href evs))) as Hrec.
  { unfold collect. induction evs as [|ev evs IH] using rev_ind; [constructor|].
    rewrite foldl_snoc.
    destruct ev as [target rect x y now|py st ct sh ch now|]; cbn.
    - unfold on_click. destruct (enqueue_recorded
        (JsEvent (Some sid) (Some href) (Some "click") (selectorFor target)
           (Some (js_round (x - (default (0%Qc, 0%Qc) rect).1)%Qc))
           (Some (js_round (y - (default (0%Qc, 0%Qc) rect).2)%Qc)) None (Some now))
        (foldl (listen sid href) collector_start evs)) as [-> _].
      apply Forall_app. split; [done|]. apply Forall_singleton.
      unfold required_present. cbn. by split_and!; eexists.
    - unfold on_scroll. case_decide; [done|].
      match goal with |- Forall _ (recorded (enqueue ?e ?c)) =>
        destruct (enqueue_recorded e c) as [-> _] end.
      apply Forall_app. split; [done|]. apply Forall_singleton.
      unfold required_present. cbn. by split_and!; eexists.
    - by destruct (flush_recorded (foldl (listen sid href) collector_start evs)) as [-> _]. }
  assert (batches_ok (collect sid href evs)) as [Hq Hs].
  { clear Hrec. unfold collect. induction evs as [|ev evs IH] using rev_ind.
    - split; [cbn; unfold BATCH_SIZE; lia|constructor].
    - rewrite foldl_snoc. by apply listen_batches. }
  split; [done|]. split.
  { eapply Forall_impl; [done|]. intros b [H1 H2]. split; [|done].
    intros ->. cbn in H1. lia. }
  split.
  - unfold recorded in Hrec. apply Forall_app in Hrec as [Hrec _].
    apply Forall_forall. intros b Hb. apply Forall_forall. intros e He.
    rewrite Forall_forall in Hrec. apply Hrec. apply elem_of_concat.
    by exists b.
  - unfold collect. rewrite foldl_snoc. cbn. unfold flush.
    by destruct (queue _) eqn:Hqq.
Qed.

(** X23. The collector neither loses, duplicates nor reorders events:
    [enqueue] adds the event at the end of what has been recorded (the
    batches handed over followed by the queue) and [flush] leaves it
    unchanged; neither touches the scroll clock.  [enqueue] hands over a
    batch exactly when the queue reaches [BATCH_SIZE], and then the whole
    queue; [flush] on an empty queue does nothing. *)
Theorem collector_loses_nothing (evt : js_event) (c : collector) :
  recorded (enqueue evt c) = (recorded c ++ [evt])%list
  ∧ recorded (flush c) = recorded c
  ∧ lastScrollEventTs (enqueue evt c) = lastScrollEventTs c
  ∧ lastScrollEventTs (flush c) = lastScrollEventTs c
  ∧ ((length (queue c) < BATCH_SIZE - 1)%nat →
     sent (enqueue evt c) = sent c ∧ queue (enqueue evt c) = (queue c ++ [evt])%list)
  ∧ ((BATCH_SIZE - 1 ≤ length (queue c))%nat →
     sent (enqueue evt c) = (sent c ++ [queue c ++ [evt]])%list ∧ queue (enqueue evt c) = [])
  ∧ (queue c = [] → flush c = c).
Proof.
  destruct (enqueue_recorded evt c) as [H1 H2].
  destruct (flush_recorded c) as [H3 H4].
  split_and!; try done.
  - intros Hlt. unfold enqueue. cbn [queue]. rewrite decide_False; [done|].
    rewrite length_app. cbn. unfold BATCH_SIZE in *. lia.
  - intros Hge. unfold enqueue. cbn [queue]. rewrite decide_True.
    + unfold flush. cbn [queue sent lastScrollEventTs].
      destruct (queue c ++ [evt])%list as [|e q] eqn:Hqc; [|done].
      by apply app_nil in Hqc as [_ ?].
    + rewrite length_app. cbn. unfold BATCH_SIZE in *. lia.
  - intros Hq. unfold flush. by rewrite Hq.
Qed.

(** ** The collector: scroll throttle and scroll depth *)

Lemma scroll_stamps_app l1 l2 :
  scroll_stamps (l1 ++ l2) = (scroll_stamps l1 ++ scroll_stamps l2)%list.
Proof. unfold scroll_stamps. apply omap_app. Qed.

Lemma spaced_snoc gap l t :
  spaced gap l → (∀ t0, last l = Some t0 → (gap ≤ t - t0)%Z) → spaced gap (l ++ [t]).
Proof.
  intros Hl Hlast i t1 t2 H1 H2.
  apply lookup_snoc_Some in H2 as [[Hlt H2]|[Heq <-]].
  - rewrite lookup_app_l in H1 by lia. by eapply Hl.
  - rewrite lookup_app_l in H1 by lia. apply Hlast.
    rewrite last_lookup. rewrite <- Heq. cbn. done.
Qed.

Lemma throttle_invariant (sid href : string) (evs : list dom_event) :
  spaced SCROLL_THROTTLE (scroll_stamps (recorded (collect sid href evs)))
  ∧ (∀ t, last (scroll_stamps (recorded (collect sid href evs))) = Some t →
          t = lastScrollEventTs (collect sid href evs))
  ∧ (∀ t, t ∈ scroll_stamps (recorded (collect sid href evs)) → (SCROLL_THROTTLE ≤ t)%Z)
  ∧ (scroll_stamps (recorded (collect sid href evs)) = [] →
     lastScrollEventTs (collect sid href evs) = 0%Z).
Proof.
  unfold collect. induction evs as [|ev evs (IH1 & IH2 & IH3 & IH4)] using rev_ind.
  - split_and!; [by intros i t1 t2 [=]|by intros t [=]|by intros t ?%elem_of_nil|done].
  - rewrite foldl_snoc. set (c := foldl (listen sid href) collector_start evs) in *.
    destruct ev as [target rect x y now|py st ct sh ch now|]; cbn [listen].
    + unfold on_click.
      match goal with |- context [enqueue ?e c] =>
        destruct (enqueue_recorded e c) as [-> ->] end.
      rewrite scroll_stamps_app. cbn. by rewrite app_nil_r.
    + unfold on_scroll. case_decide as Hthr; [done|].
      match goal with |- context [enqueue ?e ?c'] =>
        destruct (enqueue_recorded e c') as [-> ->] end.
      change (recorded (Collector (queue c) now (sent c))) with (recorded c).
      cbn [lastScrollEventTs].
      rewrite scroll_stamps_app. cbn [scroll_stamps omap list_omap ev_eventType ev_timestamp].
      rewrite decide_True by done. cbn [app].
      assert (0 ≤ lastScrollEventTs c)%Z as Hpos.
      { destruct (last (scroll_stamps (recorded c))) as [t|] eqn:Hl.
        - rewrite <- (IH2 t eq_refl). assert (t ∈ scroll_stamps (recorded c)) as Hin.
          { apply last_Some in Hl as [l' ->]. apply elem_of_app. right. left. }
          specialize (IH3 t Hin). unfold SCROLL_THROTTLE in IH3. lia.
        - apply last_None in Hl. rewrite (IH4 Hl). lia. }
      split_and!.
      * apply spaced_snoc; [done|]. intros t0 Ht0. rewrite (IH2 t0 Ht0). lia.
      * intros t. rewrite last_snoc. by intros [= <-].
      * intros t [Hin|Hin%list_elem_of_singleton]%elem_of_app; [by apply IH3|].
        subst. unfold SCROLL_THROTTLE in *. lia.
      * by intros [_ ?]%app_eq_nil.
    + by destruct (flush_recorded c) as [-> ->].
Qed.

(** X24. Scroll throttling: among the events recorded, consecutive scroll
    events are at least [SCROLL_THROTTLE] milliseconds apart, whatever the
    page reports and whatever the clock does; the collector's scroll clock
    is the time of the last scroll event recorded; and a scroll reported
    less than [SCROLL_THROTTLE] after it changes nothing. *)
Theorem scroll_throttle (sid href : string) (evs : list dom_event) :
  spaced SCROLL_THROTTLE (scroll_stamps (recorded (collect sid href evs)))
  ∧ (∀ t, last (scroll_stamps (recorded (collect sid href evs))) = Some t →
          t = lastScrollEventTs (collect sid href evs))
  ∧ (∀ pre t1 t2 post,
       scroll_stamps (recorded (collect sid href evs)) = (pre ++ t1 :: t2 :: post)%list →
       (t1 + SCROLL_THROTTLE ≤ t2)%Z)
  ∧ ∀ py st ct sh ch now,
      (now - lastScrollEventTs (collect sid href evs) < SCROLL_THROTTLE)%Z →
      collect sid href (evs ++ [ScrollAt py st ct sh ch now]) = collect sid href evs.
Proof.
  destruct (throttle_invariant sid href evs) as (H1 & H2 & _ & _).
  split_and!; [done|done| |].
  - intros pre t1 t2 post Heq.
    assert (SCROLL_THROTTLE ≤ t2 - t1)%Z; [|lia].
    apply (H1 (length pre)); rewrite Heq.
    + by apply list_lookup_middle.
    + replace (pre ++ t1 :: t2 :: post)%list with ((pre ++ [t1]) ++ t2 :: post)%list
        by (by rewrite <- app_assoc).
      apply list_lookup_middle. rewrite length_app. cbn. lia.
  - intros py st ct sh ch now Hthr. unfold collect. rewrite foldl_snoc. cbn [listen].
    unfold on_scroll. by rewrite decide_True.
Qed.

(** ** The collector: scroll depth and selectors *)

Lemma js_round_mono (x y : Qc) : (x ≤ y)%Qc → (js_round x ≤ js_round y)%Z.
Proof.
  intros Hxy. unfold js_round. apply Qfloor_resp_le.
  change (x + dec 1 2 ≤ y + dec 1 2)%Qc. by apply Qcplus_le_mono_r.
Qed.



Lemma append_empty_r (s : string) : s +:+ EmptyString = s.
Proof.
  induction s as [|c s IH]; [done|].
  change (String c (s +:+ EmptyString) = String c s). by rewrite IH.
Qed.

Lemma append_eq_empty (s1 s2 : string) : s1 +:+ s2 = EmptyString → s1 = EmptyString.
Proof. by destruct s1. Qed.

Lemma ascii_lower_idemp (c : ascii) : ascii_lower (ascii_lower c) = ascii_lower c.
Proof.
  destruct c as [[] [] [] [] [] [] [] []]; reflexivity.
Qed.

Lemma like_prefix_lower (lit s : string) :
  like_prefix lit (toLowerCase s) = like_prefix lit s.
Proof.
  revert s. induction lit as [|c lit IH]; intros s; [done|].
  destruct s as [|d s]; [done|]. cbn. by rewrite ascii_lower_idemp, IH.
Qed.

Lemma whitelist_like_ext (s t : string) :
  (∀ lit, lit ∈ nonInteractiveSelectors_default → like_prefix lit s = like_prefix lit t) →
  whitelist_like s = whitelist_like t.
Proof.
  unfold whitelist_like. induction nonInteractiveSelectors_default as [|lit l IH]; [done|].
  intros Hall. cbn. rewrite (Hall lit) by left. f_equal.
  apply IH. intros lit' Hin. apply Hall. by right.
Qed.

Lemma whitelist_no_punctuation (lit : string) :
  lit ∈ nonInteractiveSelectors_default → Is_true (no_punctuation lit).
Proof.
  unfold nonInteractiveSelectors_default. intros Hin.
  repeat (apply elem_of_cons in Hin as [->|Hin]; [by vm_compute|]).
  by apply elem_of_nil in Hin.
Qed.

Lemma selectorFor_tagged (e : element) (t : string) :
  nodeType e ≠ 0%nat → tagName e = Some t → t ≠ EmptyString →
  (el_id e ≠ EmptyString → selectorFor (Some e) = Some ("#" +:+ el_id e))
  ∧ (el_id e = EmptyString →
     ∃ suffix, selectorFor (Some e) = Some (toLowerCase t +:+ suffix)
       ∧ selector_suffix suffix).
Proof.
  intros Hn Ht Hne. cbn. rewrite decide_False by done. split.
  - intros Hid. by rewrite decide_True.
  - intros Hid. rewrite decide_False by (by rewrite Hid; intros []). rewrite Ht.
    assert (toLowerCase t ≠ EmptyString) as Hlow by (by destruct t).
    destruct (classList e) as [|c cl].
    + exists EmptyString. rewrite append_empty_r, decide_False by done.
      split; [done|by left].
    + exists ("." +:+ String.concat "." (take 3 (c :: cl))).
      rewrite decide_False; [split; [done|right; left; by eexists]|].
      intros Heq. by apply append_eq_empty in Heq.
Qed.

(** X26. [selectorFor] never returns the empty string.  It returns null
    for no node and for a node without a node type; [#id] for a node with
    an id; otherwise the lower-cased tag name followed by nothing or by a
    class part starting with a dot.  Only the first three classes count. *)
Theorem selectorFor_shape (el : option element) :
  selectorFor el ≠ Some EmptyString
  ∧ (el = None → selectorFor el = None)
  ∧ (∀ e, el = Some e → nodeType e = 0%nat → selectorFor el = None)
  ∧ (∀ e, el = Some e → nodeType e ≠ 0%nat → el_id e ≠ EmptyString →
       selectorFor el = Some ("#" +:+ el_id e))
  ∧ (∀ e t, el = Some e → nodeType e ≠ 0%nat → el_id e = EmptyString →
       tagName e = Some t → t ≠ EmptyString →
       ∃ suffix, selectorFor el = Some (toLowerCase t +:+ suffix)
         ∧ selector_suffix suffix)
  ∧ (∀ e e', el = Some e → nodeType e' = nodeType e → el_id e' = el_id e →
       tagName e' = tagName e → take 3 (classList e') = take 3 (classList e) →
       selectorFor (Some e') = selectorFor el).
Proof.
  split_and!.
  - destruct el as [e|]; [|done]. cbn.
    destruct (decide (nodeType e = 0%nat)); [done|].
    destruct (decide (el_id e ≠ EmptyString)).
    + by intros [= Heq].
    + case_decide; [done|]. by intros [= ?].
  - by intros ->.
  - intros e -> Hn. cbn. by rewrite decide_True.
  - intros e -> Hn Hid. cbn. rewrite decide_False by done. by rewrite decide_True.
  - intros e t -> Hn Hid Ht Hne. by apply selectorFor_tagged.
  - intros e e' -> Hn Hid Ht Hcl. cbn. rewrite Hn, Hid, Ht.
    destruct (classList e') as [|c' cl'], (classList e) as [|c cl];
      [done|done|done|]. by rewrite Hcl.
Qed.

(** X27. The collector's selectors under the dead-click filter: a click on
    an element that has an id is never a dead click, its selector [#id]
    matching no whitelist entry; for an element without an id the filter
    decides on the tag name alone, whatever its case and the classes. *)
Theorem selectorFor_dead_clicks (e : element) (t : string) :
  nodeType e ≠ 0%nat → tagName e = Some t → t ≠ EmptyString →
  ∃ sel, selectorFor (Some e) = Some sel
    ∧ (el_id e ≠ EmptyString → whitelist_like sel = false)
    ∧ (el_id e = EmptyString → whitelist_like sel = whitelist_like t)
    ∧ ∀ ev, element_selector ev = Some sel → el_id e ≠ EmptyString →
        dead_where nonInteractiveSelectors_default ev = false.
Proof.
  intros Hn Ht Hne.
  destruct (selectorFor_tagged e t Hn Ht Hne) as [Hwith Hwithout].
  destruct (decide (el_id e = EmptyString)) as [Hid|Hid].
  - destruct (Hwithout Hid) as (suffix & Hsel & Hsuf).
    exists (toLowerCase t +:+ suffix). split_and!; [done..| |done].
    intros _. apply whitelist_like_ext. intros lit Hlit.
    rewrite (like_prefix_suffix lit (toLowerCase t) suffix EmptyString);
      [|by apply whitelist_no_punctuation|done|by left].
    by rewrite append_empty_r, like_prefix_lower.
  - exists ("#" +:+ el_id e). split_and!; [by apply Hwith|done|done|].
    intros ev Hev _. unfold dead_where. rewrite Hev. by destruct (is_click ev).
Qed.

Lemma selectorFor_dead_clicks_witness :
  (∃ sel, selectorFor (Some buy_button) = Some sel ∧ whitelist_like sel = false)
  ∧ ∃ sel, selectorFor (Some hero_banner) = Some sel ∧ whitelist_like sel = true.
Proof.
  split.
  - destruct (selectorFor_dead_clicks buy_button "BUTTON") as (sel & Hsel & Hid & _);
      [done..|].
    exists sel. split; [exact Hsel|]. by apply Hid.
  - destruct (selectorFor_dead_clicks hero_banner "DIV") as (sel & Hsel & _ & Hnoid & _);
      [done..|].
    exists sel. split; [exact Hsel|]. by rewrite Hnoid.
Defined.
